(** * A LevelDB-backed dictionary index: loader and prefix/substring search

    Shallow embedding of [index.js] (the loader [setup], the substring
    enumerator [allSubstrings] and the search functions), of the record
    shapes of [interfaces.ts], and of the loader and the searches of the
    later TypeScript revision [index.ts] (modules [IndexTs] and
    [IndexTsSearch]).

    Modelling conventions.
    - A JavaScript string is a Rocq [string]: a finite sequence of units.
      [substring] counts these units and keys are ordered unit by unit
      ([String.compare]), the way LevelDB's bytewise comparator orders
      the encoded keys.  In the program the former are UTF-16 code units
      and the latter UTF-8 bytes; the two agree on ASCII text, which the
      examples use.  One example ([corpus_astral]) holds the UTF-8 bytes
      of a character outside the basic plane in a field: it is used for
      the order of the keys only.  The sentinel ['\uFFFF'] is the three
      bytes of its UTF-8 encoding.
    - The store at [dbpath] is a finite map from keys to values
      ([gmap string string]); a range scan sorts the entries by key,
      keeps the ones between the bounds and applies the iterator's
      [limit].  [classic-level] and [level-read-stream] are libraries:
      they are modelled by their documented contract.
    - The functions are written in a small state-and-exception monad
      [Eff] over a [World]: the contents of the store, whether the handle
      is open, how many more batches the store accepts before it starts
      rejecting them, and the trace of the effects performed so far.  A
      computation ends by returning, by throwing, or by [process.exit].
    - Two limits of the library models.  [new ClassicLevel] always
      yields an open handle: the lock the real store holds while a
      handle is open is not modelled, so what is said of a second
      [setup] is about a later run, or a call made after the first
      handle was closed.  [Promise.all] over the gets is a sequential
      [mapM] that stops at the first failure, where the program starts
      every get at once: outcomes agree, and so do the traces of the
      calls that return.
    - [JSON.stringify] and [JSON.parse] are an interface ([JSON]) with
      the law that parsing a serialized word gives the word back.  The
      readers of the revision ([IndexTsSearch.Parse]) come without a
      law: where one is needed it is a hypothesis on the records of the
      corpus. *)

From Stdlib Require Import ZArith Ascii String.
From stdpp Require Import gmap strings list fin_maps sorting pretty.

Local Open Scope string_scope.
Local Open Scope list_scope.

(** ** JavaScript strings *)

Module JsString.

(** [s.substring(indexStart, indexEnd)] for non-negative integer
    arguments: both indices are clamped to [s.length], and swapped when
    [indexStart > indexEnd]. *)
Definition substring (s : string) (indexStart indexEnd : nat) : string :=
  let len := String.length s in
  let a := Nat.min indexStart len in
  let b := Nat.min indexEnd len in
  let from := Nat.min a b in
  let to := Nat.max a b in
  String.substring from (to - from) s.

(** A JavaScript [Set] of strings, kept in insertion order. *)
Definition Set_add (ret : list string) (x : string) : list string :=
  if decide (x ∈ ret) then ret else ret ++ [x].

End JsString.

(** ** The substring enumerator *)

Definition allSubstrings (s : string) : list string :=
  let slen := String.length s in
  foldl (fun ret start =>
           foldl (fun ret length => JsString.Set_add ret (JsString.substring s start length))
                 ret (seq 1 (slen - start)))
        [] (seq 0 slen).

(** ** Records of the corpus ([interfaces.ts]) *)

Record Word := {
  id : string;
  traditional : string;
  simplified : string;
  pinyin : string;
  jyutping : string;
  meaning : list string;
  comments : string
}.

Record Simplified := {
  version : string;
  words : list Word
}.

(** [JSON.stringify] and [JSON.parse] are built-ins of the language: they
    are taken as an interface.  Parsing returns [None] where the built-in
    throws a [SyntaxError]. *)
Class JSON := {
  JSON_stringify : Word → string;
  JSON_parse_Word : string → option Word;
  JSON_parse_Simplified : string → option Simplified;
  JSON_parse_stringify : ∀ w, JSON_parse_Word (JSON_stringify w) = Some w
}.

(** ** The store and the effects of the program *)

Inductive BatchOp :=
| Put (key value : string)
| Del (key : string).

Inductive Event :=
| EvOpen (dbpath : string)
| EvGet (key : string)
| EvBatch (ops : list BatchOp)
| EvScan (gte lt : string) (limit : Z)
| EvClose
| EvReadFile (filename : string)
| EvConsoleLog (msg : string)
| EvConsoleError (msg : string).

Inductive Error :=
| NotFound (key : string)
| NotOpen
| WriteFailed
| SyntaxError
| JsError (message : string).

(** How a computation ends: with a value, with a thrown error (a rejected
    promise), or with the whole process terminated by [process.exit]. *)
Inductive Outcome (A : Type) :=
| Return (a : A)
| Throw (e : Error)
| Exit (code : Z).
Arguments Return {A} a.
Arguments Throw {A} e.
Arguments Exit {A} code.

(** [db_budget] is the fault model of the store: [None] is a store that
    accepts every batch; [Some n] accepts [n] more batches and rejects
    every later one. *)
Record World := {
  db_data : gmap string string;
  db_open : bool;
  db_budget : option nat;
  trace : list Event
}.

Definition log (ev : Event) (w : World) : World :=
  {| db_data := db_data w; db_open := db_open w;
     db_budget := db_budget w; trace := trace w ++ [ev] |}.

Definition Eff (A : Type) : Type := World → Outcome A * World.

#[global] Instance Eff_ret : MRet Eff := λ A a w, (Return a, w).
#[global] Instance Eff_bind : MBind Eff := λ A B k m w,
  match m w with
  | (Return a, w') => k a w'
  | (Throw e, w') => (Throw e, w')
  | (Exit c, w') => (Exit c, w')
  end.

Definition throw {A} (e : Error) : Eff A := λ w, (Throw e, w).

(** [try { m } catch (e) { h e }] *)
Definition try_catch {A} (m : Eff A) (h : Error → Eff A) : Eff A := λ w,
  match m w with
  | (Throw e, w') => h e w'
  | r => r
  end.

Definition process_exit {A} (code : Z) : Eff A := λ w, (Exit code, w).

Definition console_log (msg : string) : Eff unit := λ w,
  (Return (), log (EvConsoleLog msg) w).

Definition console_error (msg : string) : Eff unit := λ w,
  (Return (), log (EvConsoleError msg) w).

Definition apply_op (m : gmap string string) (op : BatchOp) : gmap string string :=
  match op with
  | Put k v => <[k:=v]> m
  | Del k => delete k m
  end.

Definition apply_batch (ops : list BatchOp) (m : gmap string string) : gmap string string :=
  foldl apply_op m ops.

Module ClassicLevel.

(** [new ClassicLevel(dbpath)]: a fresh handle on the store at [dbpath]. *)
Definition new (dbpath : string) : Eff unit := λ w,
  (Return (),
   {| db_data := db_data w; db_open := true;
      db_budget := db_budget w; trace := trace w ++ [EvOpen dbpath] |}).

Definition get (key : string) : Eff string := λ w,
  let w' := log (EvGet key) w in
  if db_open w then
    match db_data w !! key with
    | Some v => (Return v, w')
    | None => (Throw (NotFound key), w')
    end
  else (Throw NotOpen, w').

(** [db.batch(ops)]: all of [ops], in order, or none of them. *)
Definition batch (ops : list BatchOp) : Eff unit := λ w,
  let w' := log (EvBatch ops) w in
  if db_open w then
    match db_budget w with
    | Some 0 => (Throw WriteFailed, w')
    | b =>
        (Return (),
         {| db_data := apply_batch ops (db_data w); db_open := true;
            db_budget := pred <$> b; trace := trace w' |})
    end
  else (Throw NotOpen, w').

Definition close : Eff unit := λ w,
  (Return (),
   {| db_data := db_data w; db_open := false;
      db_budget := db_budget w; trace := trace w ++ [EvClose] |}).

End ClassicLevel.

(** [fs.promises.readFile(filename, 'utf8')] against the files [fs]. *)
Definition readFile (fs : gmap string string) (filename : string) : Eff string := λ w,
  let w' := log (EvReadFile filename) w in
  match fs !! filename with
  | Some contents => (Return contents, w')
  | None => (Throw (JsError ("ENOENT: " +:+ filename)), w')
  end.

(** ** Ordered range scans *)

(** ['\uFFFF'], as the store sees it: the bytes EF BF BF. *)
Definition uFFFF : string :=
  String "239"%char (String "191"%char (String "191"%char EmptyString)).

Definition key_le (x y : string * string) : Prop := String.leb x.1 y.1 = true.

#[global] Instance key_le_dec x y : Decision (key_le x y).
Proof. unfold key_le. apply _. Defined.

(** All entries of the store, in ascending key order. *)
Definition sorted_entries (m : gmap string string) : list (string * string) :=
  merge_sort key_le (map_to_list m).

Definition in_range (gte lt k : string) : bool :=
  String.leb gte k && String.ltb k lt.

(** The iterator's [limit]: a maximum number of entries when it is at
    least 0, no limit when it is negative. *)
Definition take_limit {A} (limit : Z) (l : list A) : list A :=
  if decide (0 ≤ limit)%Z then take (Z.to_nat limit) l else l.

Definition range_entries (m : gmap string string) (gte lt : string) (limit : Z)
  : list (string * string) :=
  take_limit limit (filter (λ kv, in_range gte lt kv.1 = true) (sorted_entries m)).

(** Every entry of the store whose key lies between [gte] and
    [gte + '\uFFFF'], in ascending key order. *)
Definition matching (m : gmap string string) (gte : string) : list (string * string) :=
  filter (λ kv, in_range gte (gte +:+ uFFFF) kv.1 = true) (sorted_entries m).

(** The options handed to [new ValueStream(db, { gte, lt, limit })]. *)
Record ValueStream := {
  opt_gte : string;
  opt_lt : string;
  opt_limit : Z
}.

(** The entries a stream scans in the world [w], in scan order. *)
Definition scanned (stream : ValueStream) (w : World) : list (string * string) :=
  range_entries (db_data w) (opt_gte stream) (opt_lt stream) (opt_limit stream).

(** [drainStream] collects every value the stream yields. *)
Definition drainStream (stream : ValueStream) : Eff (list string) := λ w,
  let w' := log (EvScan (opt_gte stream) (opt_lt stream) (opt_limit stream)) w in
  if db_open w then
    (Return (scanned stream w).*2, w')
  else (Throw NotOpen, w').

(** ** The buffered loop of the loader *)

Definition maxBatches : Z := 10000.

(** The head of the loop body: once the buffer holds more than
    [maxBatches] operations it is written out and emptied. *)
Definition flush_full (verbose : bool) (numWritten : nat)
    (batch : list BatchOp) : Eff (list BatchOp) :=
  if decide (maxBatches < Z.of_nat (length batch))%Z then
    ClassicLevel.batch batch;;
    (if verbose
     then console_log (pretty numWritten +:+ " entries written")
     else mret ());;
    mret []
  else mret batch.

(** [for (const [numWritten, e] of entries.entries()) { ... }]: each turn
    flushes a full buffer, then pushes the operations [entry_ops e] of
    its entry.  [numWritten] is the index of the first entry of [es]. *)
Fixpoint load_entries {E} (entry_ops : E → list BatchOp) (verbose : bool)
    (numWritten : nat) (es : list E) (batch : list BatchOp)
  : Eff (list BatchOp) :=
  match es with
  | [] => mret batch
  | e :: es' =>
      batch ← flush_full verbose numWritten batch;
      load_entries entry_ops verbose (S numWritten) es' (batch ++ entry_ops e)
  end.

(** ** The loader and the search functions ([index.js]) *)

Section Index.
Context `{JSON}.

(** The keys of the store, as the template strings of [setup] build
    them. *)
Definition metadata_key (key : string) : string := "raw/" +:+ key.
Definition record_key (i : string) : string := "raw/words/" +:+ i.
Definition exact_key (w : Word) : string :=
  "indexes/" +:+ traditional w +:+ "-" +:+ id w.
Definition partial_key (substr : string) (w : Word) : string :=
  "indexes/partial/" +:+ substr +:+ "-" +:+ id w.

(** What one turn of the loop pushes on the batch for the word [w]. *)
Definition word_ops (omitPartial : bool) (w : Word) : list BatchOp :=
  [Put (record_key (id w)) (JSON_stringify w);
   Put (exact_key w) (id w)] ++
  (if omitPartial then []
   else (λ substr, Put (partial_key substr w) (id w))
          <$> allSubstrings (traditional w)).

Definition load (raw : Simplified) (verbose omitPartial : bool) : Eff unit :=
  batch ← load_entries (word_ops omitPartial) verbose 0 (words raw)
            [Put (metadata_key "version") (version raw)];
  if decide (length batch = 0) then mret () else ClassicLevel.batch batch.

(** [setup] returns the handle, which is the world's, and the version. *)
Definition setup (fs : gmap string string) (dbpath filename : string)
    (verbose omitPartial : bool) : Eff string :=
  ClassicLevel.new dbpath;;
  probe ← try_catch (version ← ClassicLevel.get "version"; mret (Some version))
                    (λ _, mret None);
  match probe with
  | Some version => mret version
  | None =>
      if decide (filename = "") then
        ClassicLevel.close;;
        throw (JsError "database not found but cannot create it if no `filename` given")
      else
        contents ← try_catch (readFile fs filename)
                     (λ _, console_error ("Unable to find " +:+ filename);;
                           process_exit 1);
        raw ← match JSON_parse_Simplified contents with
              | Some raw => mret raw
              | None => throw SyntaxError
              end;
        try_catch (load raw verbose omitPartial)
                  (λ e, ClassicLevel.close;; throw e);;
        mret (version raw)
  end.

Definition idsToWords (idxs : list string) : Eff (list Word) :=
  mapM (λ i, x ← ClassicLevel.get (record_key i);
             match JSON_parse_Word x with
             | Some w => mret w
             | None => throw SyntaxError
             end) idxs.

(** The stream each search opens. *)
Definition beginning_stream (prefix : string) (limit : Z) : ValueStream :=
  let gte := "indexes/" +:+ prefix in
  {| opt_gte := gte; opt_lt := gte +:+ uFFFF; opt_limit := limit |}.

Definition anywhere_stream (text : string) (limit : Z) : ValueStream :=
  let gte := "indexes/partial/" +:+ text in
  {| opt_gte := gte; opt_lt := gte +:+ uFFFF; opt_limit := limit |}.

Definition searchBeginning (prefix : string) (limit : Z) : Eff (list Word) :=
  ids ← drainStream (beginning_stream prefix limit);
  idsToWords ids.

Definition searchAnywhere (text : string) (limit : Z) : Eff (list Word) :=
  ids ← drainStream (anywhere_stream text limit);
  idsToWords ids.

(** The exported searches; [limit] defaults to [-1]. *)
Definition charBeginning (prefix : string) (limit : option Z) : Eff (list Word) :=
  searchBeginning prefix (default (-1)%Z limit).

Definition charAnywhere (text : string) (limit : option Z) : Eff (list Word) :=
  searchAnywhere text (default (-1)%Z limit).

Definition getField (key : string) : Eff string :=
  ClassicLevel.get (metadata_key key).

(** Every operation of a load of [raw], in the order it is pushed. *)
Definition corpus_ops (omitPartial : bool) (raw : Simplified) : list BatchOp :=
  Put (metadata_key "version") (version raw) :: (words raw ≫= word_ops omitPartial).

(** The record the store holds for the identifier [i]. *)
Definition resolves (m : gmap string string) (i : string) (wd : Word) : Prop :=
  ∃ x, m !! record_key i = Some x ∧ JSON_parse_Word x = Some wd.

End Index.

(** ** The TypeScript revision of the loader ([index.ts])

    The later revision indexes two fields of every word and adds a
    collection of characters.  Its [allSubstrings] is the one above.
    Numbers are kept as integers; no function of the loader reads
    them. *)

Module IndexTs.

Record Etymology := {
  type : string;
  hint : string
}.

Module Word.
Record t := {
  content : string;
  id : string;
  cantodict_id : option Z;
  pinyin : string;
  jyutping : string;
  notes : string;
  meaning : list string;
  dialect : string;
  freq : Z;
  variants : list string;
  similar : unit;
  simplified : string;
  pos : list string
}.
End Word.

Module Character.
Record t := {
  content : string;
  id : string;
  cantodict_id : option Z;
  pinyin : string;
  jyutping : string;
  notes : string;
  meaning : list string;
  dialect : string;
  freq : Z;
  variants : list string;
  similar : unit;
  stroke_count : Z;
  decomposition : string;
  radical : string;
  etymology : Etymology
}.
End Character.

Record Simplified := {
  version : string;
  words : list Word.t;
  characters : list Character.t
}.

Class JSON := {
  JSON_stringify_Word : Word.t → string;
  JSON_stringify_Character : Character.t → string;
  JSON_parse : string → option Simplified
}.

Section Loader.
Context `{JSON}.

Definition word_ops (omitPartial : bool) (w : Word.t) : list BatchOp :=
  [Put ("raw/words/" +:+ Word.id w) (JSON_stringify_Word w);
   Put ("indexes/" +:+ Word.content w +:+ "-" +:+ Word.id w) (Word.id w);
   Put ("indexes/" +:+ Word.simplified w +:+ "-" +:+ Word.id w) (Word.id w)] ++
  (if omitPartial then []
   else ((λ substr, Put ("indexes/partial/" +:+ substr +:+ "-" +:+ Word.id w) (Word.id w))
           <$> allSubstrings (Word.content w)) ++
        ((λ substr, Put ("indexes/partial/" +:+ substr +:+ "-" +:+ Word.id w) (Word.id w))
           <$> allSubstrings (Word.simplified w))).

Definition character_ops (w : Character.t) : list BatchOp :=
  [Put ("raw/char/" +:+ Character.id w) (JSON_stringify_Character w);
   Put ("indexchar/" +:+ Character.content w +:+ "-" +:+ Character.id w)
       (Character.id w)].

(** The body of the [try] block.  The buffer is not emptied after the
    flush that follows the words: the loop over the characters goes on
    with it. *)
Definition load (raw : Simplified) (verbose omitPartial : bool) : Eff unit :=
  batch ← load_entries (word_ops omitPartial) verbose 0 (words raw)
            [Put ("raw/" +:+ "version") (version raw)];
  (if decide (length batch = 0) then mret () else ClassicLevel.batch batch);;
  batch ← load_entries character_ops verbose 0 (characters raw) batch;
  if decide (length batch = 0) then mret () else ClassicLevel.batch batch.

Definition setup (fs : gmap string string) (dbpath filename : string)
    (verbose omitPartial : bool) : Eff string :=
  ClassicLevel.new dbpath;;
  probe ← try_catch (version ← ClassicLevel.get "version"; mret (Some version))
                    (λ _, mret None);
  match probe with
  | Some version => mret version
  | None =>
      if decide (filename = "") then
        ClassicLevel.close;;
        throw (JsError "database not found but cannot create it if no `filename` given")
      else
        contents ← try_catch (readFile fs filename)
                     (λ _, console_error ("Unable to find " +:+ filename);;
                           process_exit 1);
        raw ← match JSON_parse contents with
              | Some raw => mret raw
              | None => throw SyntaxError
              end;
        try_catch (load raw verbose omitPartial)
                  (λ e, ClassicLevel.close;; throw e);;
        mret (version raw)
  end.

End Loader.

End IndexTs.

(** ** The vocabulary of the statements *)

(** [t] occurs in [s] as a run of consecutive units. *)
Definition contiguous_substring (t s : string) : Prop :=
  ∃ pre post, s = pre +:+ t +:+ post.

Definition key_lt (x y : string * string) : Prop := String.ltb x.1 y.1 = true.

(** The operations of the batches among the events [evs], in order. *)
Definition written (evs : list Event) : list BatchOp :=
  evs ≫= λ ev, match ev with EvBatch ops => ops | _ => [] end.

Definition is_put (op : BatchOp) : Prop :=
  match op with Put _ _ => True | Del _ => False end.

(** A put under a key other than the one [setup] probes. *)
Definition skips_probe (op : BatchOp) : Prop :=
  match op with Put k _ => k ≠ "version" | Del _ => False end.

(** From [w] to [w'] every batch issued holds puts only, and no key of
    the store is lost. *)
Definition only_puts (w w' : World) : Prop :=
  ∃ evs, trace w' = trace w ++ evs ∧ Forall is_put (written evs) ∧
         dom (db_data w) ⊆ dom (db_data w').

Definition healthy (w : World) : Prop := db_open w = true ∧ db_budget w = None.

(** From [w] to [w'] the batches issued hold [ops], in this order, and
    the store has taken them all. *)
Definition wrote (w w' : World) (ops : list BatchOp) : Prop :=
  ∃ evs, trace w' = trace w ++ evs ∧ written evs = ops ∧
         db_data w' = apply_batch ops (db_data w) ∧ healthy w'.

Definition no_filename_message : string :=
  "database not found but cannot create it if no `filename` given".

Inductive Namespace := Metadata | Records | ExactIndex | SubstringIndex.

(** The keys a load of [raw] writes for each namespace. *)
Definition written_for (raw : Simplified) (ns : Namespace) (k : string) : Prop :=
  match ns with
  | Metadata => k = metadata_key "version"
  | Records => ∃ wd, wd ∈ words raw ∧ k = record_key (id wd)
  | ExactIndex => ∃ wd, wd ∈ words raw ∧ k = exact_key wd
  | SubstringIndex =>
      ∃ wd substr, wd ∈ words raw ∧ substr ∈ allSubstrings (traditional wd) ∧
                   k = partial_key substr wd
  end.

(** One of the two strings starts with the other. *)
Definition prefix_related (a b : string) : Prop :=
  (∃ rest, b = a +:+ rest) ∨ (∃ rest, a = b +:+ rest).

(** The order the specification names for results: by field value, then
    by identifier. *)
Definition value_id_le (x y : Word) : Prop :=
  String.ltb (traditional x) (traditional y) = true ∨
  (traditional x = traditional y ∧ String.leb (id x) (id y) = true).

(** ** A concrete codec, to run the program on examples

    Any injective, decodable text format is an instance of [JSON]; this
    one writes the binary digits of the value's code. *)

Module Codec.

#[global] Instance Word_eq_dec : EqDecision Word.
Proof. solve_decision. Defined.

#[global] Instance Simplified_eq_dec : EqDecision Simplified.
Proof. solve_decision. Defined.

#[global] Instance Word_countable : Countable Word :=
  inj_countable'
    (λ w, (id w, traditional w, simplified w, pinyin w, jyutping w,
           meaning w, comments w))
    (λ '(a, b, c, d, e, f, g),
       {| id := a; traditional := b; simplified := c; pinyin := d;
          jyutping := e; meaning := f; comments := g |})
    (λ w, match w with Build_Word _ _ _ _ _ _ _ => eq_refl end).

#[global] Instance Simplified_countable : Countable Simplified :=
  inj_countable'
    (λ r, (version r, words r))
    (λ '(v, ws), {| version := v; words := ws |})
    (λ r, match r with Build_Simplified _ _ => eq_refl end).

Fixpoint digits (p : positive) : string :=
  match p with
  | xH => ""
  | xO p => String "0" (digits p)
  | xI p => String "1" (digits p)
  end.

Fixpoint undigits (s : string) : option positive :=
  match s with
  | "" => Some xH
  | String c s =>
      p ← undigits s;
      if decide (c = "0"%char) then Some (xO p)
      else if decide (c = "1"%char) then Some (xI p)
      else None
  end.

Definition write `{Countable A} (a : A) : string := digits (encode a).
Definition read `{Countable A} (s : string) : option A := undigits s ≫= decode.

#[global] Instance json : JSON.
Proof.
  refine {| JSON_stringify := write; JSON_parse_Word := read;
            JSON_parse_Simplified := read |}.
  intros w. unfold read, write.
  assert (Hd : ∀ p, undigits (digits p) = Some p).
  { intros p. induction p as [p IH|p IH|]; simpl; rewrite ?IH; reflexivity. }
  rewrite Hd. simpl. apply decode_encode.
Defined.

End Codec.

(** ** Inputs used in the examples *)

Definition mkWord (i t : string) : Word :=
  {| id := i; traditional := t; simplified := ""; pinyin := ""; jyutping := "";
     meaning := []; comments := "" |}.

(** A machine on which nothing has been stored yet. *)
Definition fresh : World :=
  {| db_data := ∅; db_open := false; db_budget := None; trace := [] |}.

(** The same machine with a store that rejects its first batch. *)
Definition failing : World :=
  {| db_data := ∅; db_open := false; db_budget := Some 0; trace := [] |}.

Definition corpus_abc : Simplified :=
  {| version := "1.0"; words := [mkWord "1" "abc"] |}.

Definition corpus_ab : Simplified :=
  {| version := "1.0"; words := [mkWord "1" "ab"] |}.

Definition corpus_order : Simplified :=
  {| version := "1.0"; words := [mkWord "2" "a"; mkWord "1" "a!"] |}.

Definition files : gmap string string :=
  {[ "abc.json" := Codec.write corpus_abc;
     "ab.json" := Codec.write corpus_ab;
     "order.json" := Codec.write corpus_order;
     "broken.json" := "{" ]}.

(** For the revision: a corpus of one word and one character, and a
    reader that knows the one file holding it. *)
Module TsExample.

Definition word : IndexTs.Word.t :=
  {| IndexTs.Word.content := "abc"; IndexTs.Word.id := "1";
     IndexTs.Word.cantodict_id := None; IndexTs.Word.pinyin := "";
     IndexTs.Word.jyutping := ""; IndexTs.Word.notes := "";
     IndexTs.Word.meaning := []; IndexTs.Word.dialect := "";
     IndexTs.Word.freq := 0; IndexTs.Word.variants := [];
     IndexTs.Word.similar := (); IndexTs.Word.simplified := "ab";
     IndexTs.Word.pos := [] |}.

Definition character : IndexTs.Character.t :=
  {| IndexTs.Character.content := "a"; IndexTs.Character.id := "7";
     IndexTs.Character.cantodict_id := None; IndexTs.Character.pinyin := "";
     IndexTs.Character.jyutping := ""; IndexTs.Character.notes := "";
     IndexTs.Character.meaning := []; IndexTs.Character.dialect := "";
     IndexTs.Character.freq := 0; IndexTs.Character.variants := [];
     IndexTs.Character.similar := (); IndexTs.Character.stroke_count := 1;
     IndexTs.Character.decomposition := ""; IndexTs.Character.radical := "";
     IndexTs.Character.etymology := {| IndexTs.type := ""; IndexTs.hint := "" |} |}.

Definition corpus : IndexTs.Simplified :=
  {| IndexTs.version := "2.0"; IndexTs.words := [word];
     IndexTs.characters := [character] |}.

#[global] Instance json : IndexTs.JSON := {|
  IndexTs.JSON_stringify_Word w := "word " +:+ IndexTs.Word.id w;
  IndexTs.JSON_stringify_Character c := "character " +:+ IndexTs.Character.id c;
  IndexTs.JSON_parse contents :=
    if decide (contents = "cantodict") then Some corpus else None
|}.

Definition files : gmap string string := {[ "cantodict.json" := "cantodict" ]}.

End TsExample.

(** The machine after a load of each corpus. *)
Definition loaded_abc : World := (setup files "test" "abc.json" false false fresh).2.
Definition loaded_order : World := (setup files "test" "order.json" false false fresh).2.

(** ** More vocabulary: slices, last writes, identifiers *)

(** The units of [s] from index [a] up to, not including, index [b]. *)
Definition slice (s : string) (a b : nat) : string :=
  String.substring a (b - a) s.

(** The value of the last put under [k] among [ops], if there is one. *)
Fixpoint put_value (k : string) (ops : list BatchOp) : option string :=
  match ops with
  | [] => None
  | op :: ops' =>
      match put_value k ops' with
      | Some v => Some v
      | None =>
          match op with
          | Put k' v => if decide (k' = k) then Some v else None
          | Del _ => None
          end
      end
  end.

Fixpoint no_hyphen (s : string) : bool :=
  match s with
  | "" => true
  | String c s' => if decide (c = "-"%char) then false else no_hyphen s'
  end.

(** The identifiers of the corpus are pairwise distinct, and none holds
    the separator ['-'] of the index keys. *)
Definition plain_ids (raw : Simplified) : Prop :=
  NoDup (id <$> words raw) ∧ ∀ wd, wd ∈ words raw → no_hyphen (id wd) = true.

(** What follows a query in a key does not reach the sentinel: it is
    empty or starts with a unit below the first byte of ['\uFFFF']. *)
Definition below_sentinel (rest : string) : Prop :=
  match rest with
  | "" => True
  | String c _ => (N_of_ascii c < 239)%N
  end.

(** The machine [w] holds an open handle on a store that a load of
    [raw] has filled, starting from an empty one. *)
Definition loaded `{JSON} (omitPartial : bool) (raw : Simplified) (w : World) : Prop :=
  db_open w = true ∧ db_data w = apply_batch (corpus_ops omitPartial raw) ∅.

(** The events [evs] without what was printed. *)
Definition silent (evs : list Event) : list Event :=
  filter (λ ev, match ev with EvConsoleLog _ => false | _ => true end = true) evs.

(** From [w] to [w'] the store was only read: the data, the handle and
    the budget are the same, and every event is a get or a scan. *)
Definition only_reads (w w' : World) : Prop :=
  db_data w' = db_data w ∧ db_open w' = db_open w ∧ db_budget w' = db_budget w ∧
  ∃ evs, trace w' = trace w ++ evs ∧
         Forall (λ ev, match ev with EvGet _ | EvScan _ _ _ => True | _ => False end) evs.

(** Two machines that differ at most in what was printed. *)
Definition same_store (w1 w2 : World) : Prop :=
  db_data w1 = db_data w2 ∧ db_open w1 = db_open w2 ∧
  db_budget w1 = db_budget w2 ∧ silent (trace w1) = silent (trace w2).

(** The batches among the events [evs], one by one. *)
Definition batches (evs : list Event) : list (list BatchOp) :=
  evs ≫= λ ev, match ev with EvBatch ops => [ops] | _ => [] end.

(** Under the key [key i] the store [m] holds a document that [rd]
    reads as [a]. *)
Definition fetches {A} (key : string → string) (rd : string → option A)
    (m : gmap string string) (i : string) (a : A) : Prop :=
  ∃ x, m !! key i = Some x ∧ rd x = Some a.

(** ** The searches of the TypeScript revision ([index.ts])

    [JSON.parse(x) as Word] and [JSON.parse(x) as Character] are the
    two readers of an interface of their own; no law is assumed of
    them. *)

Module IndexTsSearch.

Class Parse := {
  JSON_parse_Word : string → option IndexTs.Word.t;
  JSON_parse_Character : string → option IndexTs.Character.t
}.

Section Search.
Context `{Parse}.

Definition idsToChar (idxs : list string) : Eff (list IndexTs.Character.t) :=
  mapM (λ i, x ← ClassicLevel.get ("raw/char/" +:+ i);
             match JSON_parse_Character x with
             | Some c => mret c
             | None => throw SyntaxError
             end) idxs.

Definition idsToWords (idxs : list string) : Eff (list IndexTs.Word.t) :=
  mapM (λ i, x ← ClassicLevel.get ("raw/words/" +:+ i);
             match JSON_parse_Word x with
             | Some w => mret w
             | None => throw SyntaxError
             end) idxs.

(** The stream each search opens. *)
Definition beginning_stream (prefix : string) (limit : Z) : ValueStream :=
  let gte := "indexes/" +:+ prefix in
  {| opt_gte := gte; opt_lt := gte +:+ uFFFF; opt_limit := limit |}.

Definition anywhere_stream (text : string) (limit : Z) : ValueStream :=
  let gte := "indexes/partial/" +:+ text in
  {| opt_gte := gte; opt_lt := gte +:+ uFFFF; opt_limit := limit |}.

Definition character_stream (text : string) (limit : Z) : ValueStream :=
  let gte := "indexchar/" +:+ text in
  {| opt_gte := gte; opt_lt := gte +:+ uFFFF; opt_limit := limit |}.

Definition searchBeginning (prefix : string) (limit : Z) : Eff (list IndexTs.Word.t) :=
  ids ← drainStream (beginning_stream prefix limit);
  idsToWords ids.

Definition searchAnywhere (text : string) (limit : Z) : Eff (list IndexTs.Word.t) :=
  ids ← drainStream (anywhere_stream text limit);
  idsToWords ids.

Definition searchCharacter (text : string) (limit : Z)
  : Eff (list IndexTs.Character.t) :=
  ids ← drainStream (character_stream text limit);
  idsToChar ids.

(** The exported searches; [limit] defaults to [-1]. *)
Definition charBeginning (prefix : string) (limit : option Z)
  : Eff (list IndexTs.Word.t) :=
  searchBeginning prefix (default (-1)%Z limit).

Definition charAnywhere (text : string) (limit : option Z)
  : Eff (list IndexTs.Word.t) :=
  searchAnywhere text (default (-1)%Z limit).

Definition hanzi (character : string) (limit : option Z)
  : Eff (list IndexTs.Character.t) :=
  searchCharacter character (default (-1)%Z limit).

Definition getField (key : string) : Eff string :=
  ClassicLevel.get ("raw/" +:+ key).

End Search.

End IndexTsSearch.

(** ** Vocabulary for the revision *)

Section TsVocabulary.
Context `{IndexTs.JSON}.

(** What the loop over the words pushes, the put of the version first;
    and what the loop over the characters pushes. *)
Definition ts_word_phase (omitPartial : bool) (raw : IndexTs.Simplified)
  : list BatchOp :=
  Put ("raw/" +:+ "version") (IndexTs.version raw) ::
  (IndexTs.words raw ≫= IndexTs.word_ops omitPartial).

Definition ts_character_phase (raw : IndexTs.Simplified) : list BatchOp :=
  IndexTs.characters raw ≫= IndexTs.character_ops.

(** The machine [w] holds an open handle on a store that the revised
    load of [raw] has filled, starting from an empty one. *)
Definition ts_loaded (omitPartial : bool) (raw : IndexTs.Simplified)
    (w : World) : Prop :=
  db_open w = true ∧
  db_data w = apply_batch (ts_word_phase omitPartial raw ++ ts_character_phase raw) ∅.

(** Reading back what was serialized gives the record, for the records
    of the corpus. *)
Definition ts_round_trips `{IndexTsSearch.Parse} (raw : IndexTs.Simplified) : Prop :=
  (∀ wd, wd ∈ IndexTs.words raw →
     IndexTsSearch.JSON_parse_Word (IndexTs.JSON_stringify_Word wd) = Some wd) ∧
  (∀ c, c ∈ IndexTs.characters raw →
     IndexTsSearch.JSON_parse_Character (IndexTs.JSON_stringify_Character c) = Some c).

End TsVocabulary.

Definition plain_word_ids (raw : IndexTs.Simplified) : Prop :=
  NoDup (IndexTs.Word.id <$> IndexTs.words raw) ∧
  ∀ wd, wd ∈ IndexTs.words raw → no_hyphen (IndexTs.Word.id wd) = true.

Definition plain_character_ids (raw : IndexTs.Simplified) : Prop :=
  NoDup (IndexTs.Character.id <$> IndexTs.characters raw) ∧
  ∀ c, c ∈ IndexTs.characters raw → no_hyphen (IndexTs.Character.id c) = true.

(** ** More inputs used in the examples *)

(** The machine after a load of [corpus_abc] without substring
    indexing. *)
Definition loaded_abc_exact : World :=
  (setup files "test" "abc.json" false true fresh).2.

(** A word whose field goes on, after ["a"], with the four bytes
    F0 A0 AE B7 of a character outside the basic plane (U+20BB7), and
    the machine after a load of it. *)
Definition astral_word : Word :=
  mkWord "1" (String "a"%char (String "240"%char (String "160"%char
                (String "174"%char (String "183"%char EmptyString))))).

Definition corpus_astral : Simplified :=
  {| version := "1.0"; words := [astral_word] |}.

Definition loaded_astral : World :=
  (setup {[ "astral.json" := Codec.write corpus_astral ]}
         "test" "astral.json" false false fresh).2.

(** For the searches of the revision: a reader that knows the two
    documents the load of [TsExample.corpus] stores, and the machine
    after that load. *)
Module TsSearchExample.

#[global] Instance parse : IndexTsSearch.Parse := {|
  IndexTsSearch.JSON_parse_Word x :=
    if decide (x = "word 1") then Some TsExample.word else None;
  IndexTsSearch.JSON_parse_Character x :=
    if decide (x = "character 7") then Some TsExample.character else None
|}.

Definition loaded : World :=
  (IndexTs.setup TsExample.files "test" "cantodict.json" false false fresh).2.

End TsSearchExample.

(** * Properties *)

(** ** The substring enumerator *)

Section Enumerator.

Lemma elem_of_Set_add (ret : list string) (x y : string) :
  y ∈ JsString.Set_add ret x ↔ y ∈ ret ∨ y = x.
Proof.
  unfold JsString.Set_add. case_decide as Hx.
  - split; [auto | intros [?| ->]; assumption].
  - rewrite elem_of_app, list_elem_of_singleton. reflexivity.
Qed.

Lemma NoDup_Set_add (ret : list string) (x : string) :
  NoDup ret → NoDup (JsString.Set_add ret x).
Proof.
  intros Hnd. unfold JsString.Set_add. case_decide as Hx; [assumption|].
  apply NoDup_app. split; [assumption|]. split.
  - intros y Hy ->%list_elem_of_singleton. contradiction.
  - apply NoDup_singleton.
Qed.

(** Adding the images of a list of indices, one after the other. *)
Lemma elem_of_foldl_Set_add {I} (f : I → string) (l : list I) ret y :
  y ∈ foldl (λ ret i, JsString.Set_add ret (f i)) ret l
  ↔ y ∈ ret ∨ ∃ i, i ∈ l ∧ y = f i.
Proof.
  revert ret. induction l as [|i l IH]; intros ret; simpl.
  - split; [auto|]. intros [?|(i & Hi & _)]; [assumption|]. inversion Hi.
  - rewrite IH, elem_of_Set_add. split.
    + intros [[?| ->]|(j & Hj & ->)]; [auto| |].
      * right. exists i. split; [left|reflexivity].
      * right. exists j. split; [by right|reflexivity].
    + intros [?|(j & Hj & ->)]; [auto|].
      apply elem_of_cons in Hj as [->|Hj]; [auto|].
      right. exists j. auto.
Qed.

Lemma elem_of_allSubstrings_aux (s : string) (starts : list nat) ret y :
  y ∈ foldl (λ ret start,
              foldl (λ ret length, JsString.Set_add ret (JsString.substring s start length))
                    ret (seq 1 (String.length s - start)))
            ret starts
  ↔ y ∈ ret ∨ ∃ start len : nat, start ∈ starts ∧
        (1 ≤ len ≤ String.length s - start)%nat ∧ y = JsString.substring s start len.
Proof.
  revert ret. induction starts as [|a starts IH]; intros ret; simpl.
  - split; [auto|]. intros [?|(a & n & Ha & _)]; [assumption|]. inversion Ha.
  - rewrite IH, (elem_of_foldl_Set_add (λ n, JsString.substring s a n)). split.
    + intros [[?|(n & Hn & ->)]|(b & n & Hb & Hn & ->)]; [auto| |].
      * right. exists a, n. apply elem_of_seq in Hn.
        split; [left|]. split; [lia|reflexivity].
      * right. exists b, n. split; [by right|]. auto.
    + intros [?|(b & n & Hb & Hn & ->)]; [auto|].
      apply elem_of_cons in Hb as [->|Hb].
      * left. right. exists n. split; [|reflexivity]. apply elem_of_seq. lia.
      * right. exists b, n. auto.
Qed.

(** The enumerator yields exactly the values [s.substring(start, length)]
    of its two loops. *)
Lemma elem_of_allSubstrings (s y : string) :
  y ∈ allSubstrings s
  ↔ ∃ start len : nat, (start < String.length s)%nat ∧
      (1 ≤ len ≤ String.length s - start)%nat ∧ y = JsString.substring s start len.
Proof.
  unfold allSubstrings. rewrite elem_of_allSubstrings_aux. split.
  - intros [Hy|(a & n & Ha & Hn & ->)]; [inversion Hy|].
    exists a, n. apply elem_of_seq in Ha. split; [lia|]. auto.
  - intros (a & n & Ha & Hn & ->). right. exists a, n.
    split; [apply elem_of_seq; lia|]. auto.
Qed.

Lemma NoDup_allSubstrings (s : string) : NoDup (allSubstrings s).
Proof.
  unfold allSubstrings. generalize (seq 0 (String.length s)).
  generalize (NoDup_nil_2 (A:=string)). generalize (@nil string).
  intros ret Hret starts. revert ret Hret.
  induction starts as [|a starts IH]; intros ret Hret; simpl; [assumption|].
  apply IH. generalize (seq 1 (String.length s - a)). intros ns.
  revert ret Hret. induction ns as [|n ns IHn]; intros ret Hret; simpl; [assumption|].
  apply IHn, NoDup_Set_add, Hret.
Qed.

Lemma substring_same (s : string) (n : nat) : JsString.substring s n n = "".
Proof.
  unfold JsString.substring.
  rewrite Nat.min_id, Nat.max_id, Nat.sub_diag.
  generalize (Nat.min n (String.length s)). clear n.
  intros n. revert s. induction n as [|n IH]; intros [|c s]; simpl; auto.
Qed.

(** [start = 1], [length = 1] asks for [s.substring(1, 1)]. *)
Lemma allSubstrings_empty_string (s : string) :
  (2 ≤ String.length s)%nat → "" ∈ allSubstrings s.
Proof.
  intros Hlen. apply elem_of_allSubstrings. exists 1, 1.
  split; [lia|]. split; [lia|]. symmetry. apply substring_same.
Qed.

End Enumerator.

(** ** The order on keys *)

Section KeyOrder.

Lemma ascii_compare_refl (c : ascii) : Ascii.compare c c = Eq.
Proof. unfold Ascii.compare. apply N.compare_refl. Qed.

Lemma string_compare_refl (s : string) : String.compare s s = Eq.
Proof. induction s as [|c s IH]; simpl; [|rewrite ascii_compare_refl]; auto. Qed.

(** A common prefix does not take part in the comparison. *)
Lemma string_compare_app (p a b : string) :
  String.compare (p +:+ a) (p +:+ b) = String.compare a b.
Proof. induction p as [|c p IH]; simpl; [|rewrite ascii_compare_refl]; auto. Qed.

Lemma string_compare_app_l (p b : string) :
  String.compare p (p +:+ b) = String.compare "" b.
Proof. induction p as [|c p IH]; simpl; [|rewrite ascii_compare_refl]; auto. Qed.

Lemma string_compare_trans (c : comparison) (x y z : string) :
  String.compare x y = c → String.compare y z = c → String.compare x z = c.
Proof.
  revert y z. induction x as [|a x IH]; intros [|b y] [|d z]; simpl;
    try congruence.
  unfold Ascii.compare.
  destruct (N.compare_spec (N_of_ascii a) (N_of_ascii b)) as [Hab|Hab|Hab];
    destruct (N.compare_spec (N_of_ascii b) (N_of_ascii d)) as [Hbd|Hbd|Hbd];
    destruct (N.compare_spec (N_of_ascii a) (N_of_ascii d)) as [Had|Had|Had];
    try congruence; try lia; eauto.
Qed.

Lemma string_leb_refl (s : string) : String.leb s s = true.
Proof. unfold String.leb. by rewrite string_compare_refl. Qed.

Lemma string_ltb_leb (x y : string) : String.ltb x y = true → String.leb x y = true.
Proof. unfold String.ltb, String.leb. by destruct (String.compare x y). Qed.

Lemma string_ltb_irrefl (s : string) : String.ltb s s = false.
Proof. unfold String.ltb. by rewrite string_compare_refl. Qed.

Lemma string_ltb_trans (x y z : string) :
  String.ltb x y = true → String.ltb y z = true → String.ltb x z = true.
Proof.
  unfold String.ltb. intros Hxy Hyz.
  rewrite (string_compare_trans Lt x y z); [done| |].
  - by destruct (String.compare x y).
  - by destruct (String.compare y z).
Qed.

Lemma string_leb_ltb (x y : string) :
  String.leb x y = true → x = y ∨ String.ltb x y = true.
Proof.
  unfold String.leb, String.ltb.
  destruct (String.compare x y) eqn:Hc; try done; auto.
  left. by apply String.compare_eq_iff.
Qed.

Lemma string_leb_trans (x y z : string) :
  String.leb x y = true → String.leb y z = true → String.leb x z = true.
Proof.
  intros Hxy Hyz.
  destruct (string_leb_ltb _ _ Hxy) as [->|Hxy']; [assumption|].
  destruct (string_leb_ltb _ _ Hyz) as [<-|Hyz']; [assumption|].
  eauto using string_ltb_leb, string_ltb_trans.
Qed.

#[global] Instance key_le_total : Total key_le.
Proof. intros x y. apply String.leb_total. Qed.

#[global] Instance key_le_trans : Transitive key_le.
Proof. intros x y z. apply string_leb_trans. Qed.

(** Every key between [gte] and [gte + '\uFFFF'] extends [gte]. *)
Lemma in_range_prefix (gte k : string) :
  in_range gte (gte +:+ uFFFF) k = true → ∃ rest, k = gte +:+ rest.
Proof.
  unfold in_range, String.leb, String.ltb. revert k.
  induction gte as [|c gte IH]; intros k; [by exists k|].
  destruct k as [|d k]; simpl; [done|].
  rewrite (Ascii.compare_antisym d c).
  destruct (Ascii.compare c d) eqn:Hcd; simpl; [|done..].
  apply Ascii.compare_eq_iff in Hcd as ->.
  intros [rest ->]%IH. by exists rest.
Qed.

(** A key that extends [gte] with a unit below the first byte of the
    sentinel is in the range. *)
Lemma in_range_extend (gte : string) (c : ascii) (rest : string) :
  (N_of_ascii c < 239)%N →
  in_range gte (gte +:+ uFFFF) (gte +:+ String c rest) = true.
Proof.
  intros Hc. unfold in_range, String.leb, String.ltb.
  rewrite string_compare_app_l, string_compare_app.
  cbn [String.compare uFFFF andb].
  unfold Ascii.compare. change (N_of_ascii "239") with 239%N.
  by apply N.compare_lt_iff in Hc as ->.
Qed.

End KeyOrder.

(** ** Range scans *)

Section Scan.

Lemma elem_of_sorted_entries (m : gmap string string) (k v : string) :
  (k, v) ∈ sorted_entries m ↔ m !! k = Some v.
Proof.
  unfold sorted_entries. rewrite merge_sort_Permutation.
  apply elem_of_map_to_list.
Qed.

Lemma StronglySorted_sublist {A} (R : relation A) (l1 l2 : list A) :
  l1 `sublist_of` l2 → StronglySorted R l2 → StronglySorted R l1.
Proof.
  induction 1 as [|x l1 l2 Hsub IH|x l1 l2 Hsub IH]; intros Hs.
  - constructor.
  - apply StronglySorted_inv in Hs as [Hs Hall]. constructor; [auto|].
    apply Forall_forall. intros y Hy.
    apply (proj1 (Forall_forall _ _) Hall). eapply elem_of_sublist; eauto.
  - apply StronglySorted_inv in Hs as [Hs _]. auto.
Qed.

(** Keys are unique in the store, so the ascending order is strict. *)
Lemma sorted_entries_sorted (m : gmap string string) :
  StronglySorted key_lt (sorted_entries m).
Proof.
  assert (Hnd : NoDup (sorted_entries m).*1).
  { unfold sorted_entries. rewrite merge_sort_Permutation.
    apply NoDup_fst_map_to_list. }
  assert (Hs : StronglySorted key_le (sorted_entries m))
    by apply (StronglySorted_merge_sort key_le).
  induction Hs as [|x l Hs IH Hall]; [constructor|].
  rewrite fmap_cons in Hnd. apply NoDup_cons in Hnd as [Hx Hnd].
  constructor; [auto|].
  apply Forall_forall. intros y Hy.
  pose proof (proj1 (Forall_forall _ _) Hall y Hy) as Hle.
  destruct (string_leb_ltb _ _ Hle) as [Heq|Hlt]; [|exact Hlt].
  exfalso. apply Hx. rewrite Heq. apply list_elem_of_fmap. by exists y.
Qed.

Lemma take_limit_sublist {A} (limit : Z) (l : list A) :
  take_limit limit l `sublist_of` l.
Proof. unfold take_limit. case_decide; [apply sublist_take|reflexivity]. Qed.

Lemma range_entries_sublist m gte lt limit :
  range_entries m gte lt limit `sublist_of` sorted_entries m.
Proof.
  unfold range_entries. etransitivity; [apply take_limit_sublist|].
  apply sublist_filter.
Qed.

(** A scan yields entries in strictly ascending order of their keys. *)
Lemma range_entries_sorted m gte lt limit :
  StronglySorted key_lt (range_entries m gte lt limit).
Proof.
  eapply StronglySorted_sublist;
    [apply range_entries_sublist|apply sorted_entries_sorted].
Qed.

(** A scan yields entries of the store, with keys between its bounds. *)
Lemma elem_of_range_entries m gte lt limit k v :
  (k, v) ∈ range_entries m gte lt limit →
  m !! k = Some v ∧ in_range gte lt k = true.
Proof.
  unfold range_entries. intros Hin.
  eapply elem_of_sublist in Hin; [|apply take_limit_sublist].
  apply list_elem_of_filter in Hin as [Hr Hin].
  by apply elem_of_sorted_entries in Hin.
Qed.

(** Without a limit, it yields all of them. *)
Lemma elem_of_range_entries_unlimited m gte lt limit k v :
  (limit < 0)%Z →
  (k, v) ∈ range_entries m gte lt limit ↔
  m !! k = Some v ∧ in_range gte lt k = true.
Proof.
  intros Hlim. unfold range_entries, take_limit.
  case_decide; [lia|].
  rewrite list_elem_of_filter, elem_of_sorted_entries. simpl. tauto.
Qed.

Lemma range_entries_length m gte lt limit :
  (0 ≤ limit)%Z → (length (range_entries m gte lt limit) ≤ Z.to_nat limit)%nat.
Proof.
  intros Hlim. unfold range_entries, take_limit.
  case_decide; [|lia]. rewrite length_take. lia.
Qed.

Lemma range_entries_0 m gte lt : range_entries m gte lt 0 = [].
Proof. reflexivity. Qed.

(** A positive limit, or none, leaves the first entry of a non-empty
    range in place. *)
Lemma range_entries_nonempty m gte lt limit k v :
  limit ≠ 0%Z → m !! k = Some v → in_range gte lt k = true →
  range_entries m gte lt limit ≠ [].
Proof.
  intros Hlim Hk Hr. unfold range_entries, take_limit.
  assert (Hin : (k, v) ∈ filter (λ kv, in_range gte lt kv.1 = true) (sorted_entries m)).
  { apply list_elem_of_filter. split; [exact Hr|]. by apply elem_of_sorted_entries. }
  destruct (filter _ _) as [|x l]; [inversion Hin|].
  case_decide; [|done].
  destruct (Z.to_nat limit) as [|n] eqn:Hn; [lia|done].
Qed.

End Scan.

(** ** The paths through [setup] *)

Section Paths.
Context `{JSON}.

Ltac run := unfold setup, mbind, mret, Eff_bind, Eff_ret, try_catch, throw,
  process_exit, console_error, console_log, readFile, ClassicLevel.new,
  ClassicLevel.get, ClassicLevel.close, log; simpl.

(** The probe finds its key: [setup] returns at once. *)
Lemma setup_found fs dbpath filename verbose omitPartial w v :
  db_data w !! "version" = Some v →
  setup fs dbpath filename verbose omitPartial w =
  (Return v,
   {| db_data := db_data w; db_open := true; db_budget := db_budget w;
      trace := trace w ++ [EvOpen dbpath; EvGet "version"] |}).
Proof. intros Hv. run. rewrite Hv. by rewrite <- app_assoc. Qed.

(** No key and no file name. *)
Lemma setup_no_filename fs dbpath verbose omitPartial w :
  db_data w !! "version" = None →
  setup fs dbpath "" verbose omitPartial w =
  (Throw (JsError no_filename_message),
   {| db_data := db_data w; db_open := false; db_budget := db_budget w;
      trace := trace w ++ [EvOpen dbpath; EvGet "version"; EvClose] |}).
Proof. intros Hv. run. rewrite Hv. simpl. by rewrite <- !app_assoc. Qed.

(** No key, and a file that cannot be read. *)
Lemma setup_unreadable fs dbpath filename verbose omitPartial w :
  db_data w !! "version" = None → filename ≠ "" → fs !! filename = None →
  setup fs dbpath filename verbose omitPartial w =
  (Exit 1,
   {| db_data := db_data w; db_open := true; db_budget := db_budget w;
      trace := trace w ++ [EvOpen dbpath; EvGet "version"; EvReadFile filename;
                           EvConsoleError ("Unable to find " +:+ filename)] |}).
Proof.
  intros Hv Hname Hfile. run. rewrite Hv. simpl.
  case_decide; [done|]. rewrite Hfile. simpl. by rewrite <- !app_assoc.
Qed.

(** No key, and a file that is not a corpus document. *)
Lemma setup_unparsable fs dbpath filename verbose omitPartial w contents :
  db_data w !! "version" = None → filename ≠ "" →
  fs !! filename = Some contents → JSON_parse_Simplified contents = None →
  setup fs dbpath filename verbose omitPartial w =
  (Throw SyntaxError,
   {| db_data := db_data w; db_open := true; db_budget := db_budget w;
      trace := trace w ++ [EvOpen dbpath; EvGet "version"; EvReadFile filename] |}).
Proof.
  intros Hv Hname Hfile Hparse. run. rewrite Hv. simpl.
  case_decide; [done|]. rewrite Hfile, Hparse. simpl. by rewrite <- !app_assoc.
Qed.

(** No key, and a corpus document: the load runs, inside its [try]. *)
Lemma setup_parsed fs dbpath filename verbose omitPartial w contents raw :
  db_data w !! "version" = None → filename ≠ "" →
  fs !! filename = Some contents → JSON_parse_Simplified contents = Some raw →
  setup fs dbpath filename verbose omitPartial w =
  match load raw verbose omitPartial
          {| db_data := db_data w; db_open := true; db_budget := db_budget w;
             trace := trace w ++ [EvOpen dbpath; EvGet "version"; EvReadFile filename] |}
  with
  | (Return _, w') => (Return (version raw), w')
  | (Throw e, w') =>
      (Throw e, {| db_data := db_data w'; db_open := false;
                   db_budget := db_budget w'; trace := trace w' ++ [EvClose] |})
  | (Exit c, w') => (Exit c, w')
  end.
Proof.
  intros Hv Hname Hfile Hparse. run. rewrite Hv. simpl.
  case_decide; [done|]. rewrite Hfile, Hparse. simpl.
  rewrite <- !app_assoc. simpl.
  by destruct (load raw verbose omitPartial _) as [[?|?|?] ?].
Qed.

End Paths.

(** ** Batches *)

Section Batches.

Lemma apply_batch_app (a b : list BatchOp) (m : gmap string string) :
  apply_batch (a ++ b) m = apply_batch b (apply_batch a m).
Proof. apply foldl_app. Qed.

(** A batch of puts removes no key. *)
Lemma apply_batch_dom (ops : list BatchOp) (m : gmap string string) :
  Forall is_put ops → dom m ⊆ dom (apply_batch ops m).
Proof.
  intros Hops. revert m. induction Hops as [|op ops Hop _ IH]; intros m; [done|].
  simpl. etransitivity; [|apply IH].
  destruct op as [k v|k]; [|done]. simpl. rewrite dom_insert. set_solver.
Qed.

(** Whatever a batch of puts leaves under a key was there before or is
    the value of one of its puts. *)
Lemma apply_batch_lookup_inv (ops : list BatchOp) (m : gmap string string) k v :
  Forall is_put ops → apply_batch ops m !! k = Some v →
  m !! k = Some v ∨ Put k v ∈ ops.
Proof.
  intros Hops. revert m. induction Hops as [|op ops Hop _ IH]; intros m; [auto|].
  simpl. intros [Hm|Hin]%IH; [|right; by right].
  destruct op as [k' v'|k']; [|done]. simpl in Hm.
  destruct (decide (k' = k)) as [->|Hne].
  - rewrite lookup_insert_eq in Hm. injection Hm as ->. right. left.
  - rewrite lookup_insert_ne in Hm by done. auto.
Qed.

(** Every key a batch of puts writes is present afterwards. *)
Lemma apply_batch_lookup_put (ops : list BatchOp) (m : gmap string string) k v :
  Forall is_put ops → Put k v ∈ ops → is_Some (apply_batch ops m !! k).
Proof.
  intros Hops Hin. apply elem_of_dom.
  apply list_elem_of_split in Hin as (a & b & ->).
  apply Forall_app in Hops as [_ Hb]. apply Forall_cons in Hb as [_ Hb].
  rewrite apply_batch_app. simpl.
  apply (apply_batch_dom b _ Hb). rewrite dom_insert. set_solver.
Qed.

Lemma written_app (a b : list Event) : written (a ++ b) = written a ++ written b.
Proof. unfold written. apply bind_app. Qed.

Lemma written_batch (ops : list BatchOp) : written [EvBatch ops] = ops.
Proof. unfold written. simpl. apply app_nil_r. Qed.

Lemma elem_of_written (evs : list Event) (op : BatchOp) :
  op ∈ written evs ↔ ∃ ops, EvBatch ops ∈ evs ∧ op ∈ ops.
Proof.
  unfold written. rewrite list_elem_of_bind. split.
  - intros (ev & Hop & Hev). destruct ev; try by inversion Hop. eauto.
  - intros (ops & Hev & Hop). by exists (EvBatch ops).
Qed.

(** [db.batch] on any store: the call is traced; the data either takes
    the whole batch or stays as it is. *)
Lemma batch_cases (ops : list BatchOp) (w : World) :
  ∃ r w', ClassicLevel.batch ops w = (r, w') ∧
    trace w' = trace w ++ [EvBatch ops] ∧
    db_open w' = db_open w ∧
    (db_data w' = db_data w ∨ db_data w' = apply_batch ops (db_data w)).
Proof.
  unfold ClassicLevel.batch, log.
  destruct (db_open w) eqn:Hopen; [|eauto 10].
  destruct (db_budget w) as [[|n]|]; simpl; eauto 10.
Qed.

(** [db.batch] on an open handle of a store that accepts every batch. *)
Lemma batch_healthy (ops : list BatchOp) (w : World) :
  db_open w = true → db_budget w = None →
  ClassicLevel.batch ops w =
  (Return (),
   {| db_data := apply_batch ops (db_data w); db_open := true;
      db_budget := None; trace := trace w ++ [EvBatch ops] |}).
Proof. intros Hopen Hb. unfold ClassicLevel.batch. by rewrite Hopen, Hb. Qed.

End Batches.

(** ** The load *)

Section Load.
Context `{JSON}.

Lemma bind_unfold {A B} (m : Eff A) (k : A → Eff B) (w : World) :
  (m ≫= k) w =
  match m w with
  | (Return a, w') => k a w'
  | (Throw e, w') => (Throw e, w')
  | (Exit c, w') => (Exit c, w')
  end.
Proof. reflexivity. Qed.

Lemma only_puts_refl (w : World) : only_puts w w.
Proof. exists []. rewrite app_nil_r. split; [done|]. split; [constructor|done]. Qed.

Lemma only_puts_trans (w1 w2 w3 : World) :
  only_puts w1 w2 → only_puts w2 w3 → only_puts w1 w3.
Proof.
  intros (e1 & Ht1 & Hp1 & Hd1) (e2 & Ht2 & Hp2 & Hd2). exists (e1 ++ e2).
  rewrite Ht2, Ht1, app_assoc, written_app, Forall_app.
  split; [done|]. split; [done|]. by etransitivity.
Qed.

(** Events other than batches change neither the data nor what was
    written. *)
Lemma only_puts_quiet (w w' : World) (evs : list Event) :
  trace w' = trace w ++ evs → written evs = [] → db_data w' = db_data w →
  only_puts w w'.
Proof.
  intros Ht Hw Hd. exists evs. rewrite Hw, Hd. split; [done|].
  split; [constructor|done].
Qed.

Lemma batch_only_puts (ops : list BatchOp) (w : World) :
  Forall is_put ops → only_puts w (ClassicLevel.batch ops w).2.
Proof.
  intros Hops. destruct (batch_cases ops w) as (r & w' & -> & Ht & _ & Hd).
  simpl. exists [EvBatch ops]. rewrite written_batch.
  split; [done|]. split; [done|].
  destruct Hd as [->| ->]; [done|]. by apply apply_batch_dom.
Qed.

Lemma word_ops_puts (omitPartial : bool) (w : Word) :
  Forall is_put (word_ops omitPartial w).
Proof.
  unfold word_ops. apply Forall_app. split; [by repeat constructor|].
  destruct omitPartial; [constructor|]. by apply Forall_fmap, Forall_true.
Qed.

Lemma corpus_ops_puts (omitPartial : bool) (raw : Simplified) :
  Forall is_put (corpus_ops omitPartial raw).
Proof.
  unfold corpus_ops. constructor; [done|].
  apply Forall_forall. intros op (w & Hop & _)%list_elem_of_bind.
  exact (proj1 (Forall_forall _ _) (word_ops_puts omitPartial w) op Hop).
Qed.

Lemma flush_full_only_puts verbose n batch w :
  Forall is_put batch →
  only_puts w (flush_full verbose n batch w).2 ∧
  ∀ batch', (flush_full verbose n batch w).1 = Return batch' → Forall is_put batch'.
Proof.
  intros Hbatch. unfold flush_full. case_decide as Hfull.
  - rewrite bind_unfold.
    pose proof (batch_only_puts batch w Hbatch) as Hflush.
    destruct (ClassicLevel.batch batch w) as [[[]|e|c] w1]; simpl in *;
      [|by split..].
    destruct verbose; rewrite bind_unfold; simpl.
    + split; [|by intros ? [= <-]].
      eapply only_puts_trans; [exact Hflush|]. by eapply only_puts_quiet.
    + split; [exact Hflush|]. by intros ? [= <-].
  - simpl. split; [apply only_puts_refl|]. by intros ? [= <-].
Qed.

(** The loop, on any store: it buffers and issues puts only. *)
Lemma load_entries_only_puts {E} (entry_ops : E → list BatchOp) verbose n es batch w :
  (∀ e, Forall is_put (entry_ops e)) → Forall is_put batch →
  only_puts w (load_entries entry_ops verbose n es batch w).2 ∧
  ∀ batch', (load_entries entry_ops verbose n es batch w).1 = Return batch' →
            Forall is_put batch'.
Proof.
  intros Hops. revert n batch w.
  induction es as [|wd ws IH]; intros n batch w Hbatch.
  - simpl. split; [apply only_puts_refl|]. by intros ? [= <-].
  - cbn [load_entries]. rewrite bind_unfold.
    destruct (flush_full_only_puts verbose n batch w Hbatch) as [Hflush Hret].
    destruct (flush_full verbose n batch w) as [[b|e|c] w1]; simpl in *;
      [|by split..].
    destruct (IH (S n) (b ++ entry_ops wd) w1) as [Hrest Hret'].
    { apply Forall_app. split; [by apply Hret|apply Hops]. }
    split; [|exact Hret']. eauto using only_puts_trans.
Qed.

(** The whole load, on any store. *)
Lemma load_only_puts raw verbose omitPartial w :
  only_puts w (load raw verbose omitPartial w).2.
Proof.
  unfold load. rewrite bind_unfold.
  destruct (load_entries_only_puts (word_ops omitPartial) verbose 0 (words raw)
              [Put (metadata_key "version") (version raw)] w) as [Hloop Hret].
  { apply word_ops_puts. }
  { by repeat constructor. }
  destruct (load_entries _ _ _ _ _ w) as [[batch|e|c] w1]; simpl in *; [|done..].
  case_decide; [done|].
  eapply only_puts_trans; [exact Hloop|]. apply batch_only_puts. by apply Hret.
Qed.

End Load.

(** ** The load on a store that accepts every batch *)

Section HealthyLoad.
Context `{JSON}.

Lemma wrote_nothing (w : World) : healthy w → wrote w w [].
Proof. intros Hw. exists []. by rewrite app_nil_r. Qed.

Lemma wrote_trans (w1 w2 w3 : World) (a b : list BatchOp) :
  wrote w1 w2 a → wrote w2 w3 b → wrote w1 w3 (a ++ b).
Proof.
  intros (e1 & Ht1 & Hw1 & Hd1 & _) (e2 & Ht2 & Hw2 & Hd2 & Hh). exists (e1 ++ e2).
  rewrite Ht2, Ht1, app_assoc, written_app, Hw1, Hw2, Hd2, Hd1, apply_batch_app.
  done.
Qed.

Lemma batch_wrote (ops : list BatchOp) (w : World) :
  healthy w →
  ∃ w', ClassicLevel.batch ops w = (Return (), w') ∧ wrote w w' ops.
Proof.
  intros [Hopen Hb]. rewrite batch_healthy by done. eexists. split; [done|].
  exists [EvBatch ops]. by rewrite written_batch.
Qed.

Lemma flush_full_healthy verbose n batch w :
  healthy w →
  ∃ batch' w' ops, flush_full verbose n batch w = (Return batch', w') ∧
    wrote w w' ops ∧ ops ++ batch' = batch.
Proof.
  intros Hw. unfold flush_full. case_decide as Hfull.
  - rewrite bind_unfold.
    destruct (batch_wrote batch w Hw) as (w1 & -> & Hw1).
    exists [], (if verbose
                then log (EvConsoleLog (pretty n +:+ " entries written")) w1
                else w1), batch.
    rewrite app_nil_r. destruct verbose; rewrite bind_unfold; simpl.
    + split; [done|]. split; [|done].
      rewrite <- (app_nil_r batch). eapply wrote_trans; [exact Hw1|].
      destruct Hw1 as (_ & _ & _ & _ & Hh).
      by exists [EvConsoleLog (pretty n +:+ " entries written")].
    + done.
  - exists batch, w, []. split; [done|]. split; [by apply wrote_nothing|done].
Qed.

Lemma load_entries_healthy {E} (entry_ops : E → list BatchOp) verbose n es batch w :
  healthy w →
  ∃ batch' w' ops,
    load_entries entry_ops verbose n es batch w = (Return batch', w') ∧
    wrote w w' ops ∧ ops ++ batch' = batch ++ (es ≫= entry_ops).
Proof.
  revert n batch w. induction es as [|wd ws IH]; intros n batch w Hw.
  - exists batch, w, []. simpl. rewrite app_nil_r.
    split; [done|]. split; [by apply wrote_nothing|done].
  - cbn [load_entries]. rewrite bind_unfold.
    destruct (flush_full_healthy verbose n batch w Hw) as (b & w1 & o1 & -> & Hw1 & Hb).
    assert (Hh1 : healthy w1) by (by destruct Hw1 as (_ & _ & _ & _ & ?)).
    destruct (IH (S n) (b ++ entry_ops wd) w1 Hh1)
      as (b' & w2 & o2 & -> & Hw2 & Hb').
    exists b', w2, (o1 ++ o2). split; [done|].
    split; [by eapply wrote_trans|].
    rewrite <- app_assoc, Hb', bind_cons, <- Hb, <- !app_assoc. done.
Qed.

(** The load writes the operations of the corpus, all of them. *)
Lemma load_healthy raw verbose omitPartial w :
  healthy w →
  ∃ w', load raw verbose omitPartial w = (Return (), w') ∧
        wrote w w' (corpus_ops omitPartial raw).
Proof.
  intros Hw. unfold load. rewrite bind_unfold.
  destruct (load_entries_healthy (word_ops omitPartial) verbose 0 (words raw)
              [Put (metadata_key "version") (version raw)] w Hw)
    as (b & w1 & o1 & -> & Hw1 & Hb).
  change ([Put (metadata_key "version") (version raw)] ++
          (words raw ≫= word_ops omitPartial))
    with (corpus_ops omitPartial raw) in Hb.
  assert (Hh1 : healthy w1) by (by destruct Hw1 as (_ & _ & _ & _ & ?)).
  case_decide as Hlen.
  - apply nil_length_inv in Hlen as ->. rewrite app_nil_r in Hb. subst o1.
    by exists w1.
  - destruct (batch_wrote b w1 Hh1) as (w2 & -> & Hw2).
    exists w2. split; [done|]. rewrite <- Hb. by eapply wrote_trans.
Qed.

(** A first [setup] against a store without the probed key, with a
    readable corpus document. *)
Lemma setup_loads fs dbpath filename verbose omitPartial w contents raw :
  db_data w !! "version" = None → db_budget w = None → filename ≠ "" →
  fs !! filename = Some contents → JSON_parse_Simplified contents = Some raw →
  ∃ w' evs,
    setup fs dbpath filename verbose omitPartial w = (Return (version raw), w') ∧
    trace w' = trace w ++ [EvOpen dbpath; EvGet "version"; EvReadFile filename] ++ evs ∧
    written evs = corpus_ops omitPartial raw ∧
    db_data w' = apply_batch (corpus_ops omitPartial raw) (db_data w) ∧
    healthy w'.
Proof.
  intros Hv Hb Hname Hfile Hparse.
  rewrite (setup_parsed _ _ _ _ _ _ _ _ Hv Hname Hfile Hparse).
  edestruct (load_healthy raw verbose omitPartial) as (w' & -> & Hw'); [by split|].
  destruct Hw' as (evs & Ht & Hevs & Hd & Hh). simpl in *.
  exists w', evs. by rewrite Ht, <- app_assoc.
Qed.

End HealthyLoad.

(** ** Resolving identifiers, and the searches *)

Section Search.
Context `{JSON}.

Lemma resolves_fun m i wd1 wd2 : resolves m i wd1 → resolves m i wd2 → wd1 = wd2.
Proof. intros (x & Hx & Hp) (y & Hy & Hq). congruence. Qed.

(** [idsToWords] returns the records of its identifiers, one for one and
    in their order, when all of them resolve; it changes no data. *)
Lemma idsToWords_spec (idxs : list string) (w : World) :
  db_open w = true →
  db_data (idsToWords idxs w).2 = db_data w ∧
  db_open (idsToWords idxs w).2 = true ∧
  (∀ c, (idsToWords idxs w).1 ≠ Exit c) ∧
  ∀ ws, (idsToWords idxs w).1 = Return ws ↔ Forall2 (resolves (db_data w)) idxs ws.
Proof.
  revert w. induction idxs as [|i idxs IH]; intros w Hopen.
  - simpl. split; [done|]. split; [done|]. split; [done|]. intros ws. split.
    + intros [= <-]. constructor.
    + intros ->%Forall2_nil_inv_l. done.
  - unfold idsToWords. cbn [mapM]. fold (idsToWords idxs).
    rewrite !bind_unfold. unfold ClassicLevel.get. rewrite Hopen.
    destruct (db_data w !! record_key i) as [x|] eqn:Hx; simpl.
    2:{ split; [done|]. split; [done|]. split; [done|]. intros ws.
        split; [done|]. intros Hall.
        apply Forall2_cons_inv_l in Hall as (wd & ws' & (y & Hy & _) & _ & _).
        congruence. }
    destruct (JSON_parse_Word x) as [wd|] eqn:Hp; simpl.
    2:{ split; [done|]. split; [done|]. split; [done|]. intros ws.
        split; [done|]. intros Hall.
        apply Forall2_cons_inv_l in Hall as (wd & ws' & (y & Hy & Hq) & _ & _).
        congruence. }
    rewrite bind_unfold.
    destruct (IH (log (EvGet (record_key i)) w) Hopen) as (Hd & Ho & He & Hr).
    destruct (idsToWords idxs (log (EvGet (record_key i)) w)) as [[ws'|e|c] w']; simpl in *.
    + split; [done|]. split; [done|]. split; [done|]. intros ws. split.
      * intros [= <-]. constructor; [by exists x|]. by apply Hr.
      * intros Hall.
        apply Forall2_cons_inv_l in Hall as (wd' & ws'' & Hwd & Hall & ->).
        rewrite (resolves_fun _ _ wd' wd Hwd) by (by exists x).
        apply Hr in Hall. by injection Hall as ->.
    + split; [done|]. split; [done|]. split; [done|]. intros ws.
      split; [done|]. intros Hall.
      apply Forall2_cons_inv_l in Hall as (wd' & ws'' & _ & Hall & _).
      by apply Hr in Hall.
    + by destruct (He c).
Qed.

(** A search resolves the values of the entries it scans, in scan
    order. *)
Lemma search_spec (stream : ValueStream) (w : World) (ws : list Word) :
  db_open w = true →
  ((ids ← drainStream stream; idsToWords ids) w).1 = Return ws ↔
  Forall2 (λ kv wd, resolves (db_data w) kv.2 wd) (scanned stream w) ws.
Proof.
  intros Hopen. rewrite bind_unfold. unfold drainStream. rewrite Hopen.
  set (w1 := log _ w).
  destruct (idsToWords_spec (scanned stream w).*2 w1 Hopen) as (_ & _ & _ & Hr).
  rewrite Hr. change (db_data w1) with (db_data w).
  by rewrite Forall2_fmap_l.
Qed.

(** A search on a closed handle fails. *)
Lemma search_closed (stream : ValueStream) (w : World) :
  db_open w = false →
  ((ids ← drainStream stream; idsToWords ids) w).1 = Throw NotOpen.
Proof. intros Hopen. rewrite bind_unfold. unfold drainStream. by rewrite Hopen. Qed.

(** A search returns when every scanned value resolves. *)
Lemma search_returns (stream : ValueStream) (w : World) :
  db_open w = true →
  (∀ k v, (k, v) ∈ scanned stream w → ∃ wd, resolves (db_data w) v wd) →
  ∃ ws, ((ids ← drainStream stream; idsToWords ids) w).1 = Return ws.
Proof.
  intros Hopen Hall.
  assert (∃ ws, Forall2 (λ kv wd, resolves (db_data w) kv.2 wd) (scanned stream w) ws)
    as [ws Hws].
  { induction (scanned stream w) as [|[k v] l IH]; [by exists []|].
    destruct IH as [ws Hws]. { intros k' v' Hin. apply (Hall k' v'). by right. }
    destruct (Hall k v) as [wd Hwd]; [left|].
    exists (wd :: ws). by constructor. }
  exists ws. by apply search_spec.
Qed.

End Search.

(** ** The store after a load *)

(** Expose the literal units at the head of the keys. *)
Ltac keys :=
  unfold metadata_key, record_key, exact_key, partial_key in *;
  repeat match goal with
  | |- context [String ?c ?s +:+ ?t] =>
      change (String c s +:+ t) with (String c (s +:+ t))
  | H : context [String ?c ?s +:+ ?t] |- _ =>
      change (String c s +:+ t) with (String c (s +:+ t)) in H
  | |- context [EmptyString +:+ ?t] => change (EmptyString +:+ t) with t
  | H : context [EmptyString +:+ ?t] |- _ =>
      change (EmptyString +:+ t) with t in H
  end.

Section Loaded.
Context {json : JSON}.

Lemma elem_of_word_ops (omitPartial : bool) (wd : Word) (op : BatchOp) :
  op ∈ word_ops omitPartial wd ↔
  op = Put (record_key (id wd)) (JSON_stringify wd) ∨
  op = Put (exact_key wd) (id wd) ∨
  (omitPartial = false ∧
   ∃ substr, substr ∈ allSubstrings (traditional wd) ∧
             op = Put (partial_key substr wd) (id wd)).
Proof.
  unfold word_ops. rewrite elem_of_app, !elem_of_cons, elem_of_nil.
  destruct omitPartial.
  - rewrite elem_of_nil. split; [tauto|].
    intros [?|[?|[[=] _]]]; tauto.
  - rewrite list_elem_of_fmap. split.
    + intros [[?|[?|[]]]|(substr & -> & Hs)].
      * by left.
      * right. by left.
      * right. right. split; [done|]. by exists substr.
    + intros [?|[?|(_ & substr & Hs & ->)]].
      * left. by left.
      * left. right. by left.
      * right. by exists substr.
Qed.

Lemma elem_of_corpus_ops (omitPartial : bool) (raw : Simplified) (op : BatchOp) :
  op ∈ corpus_ops omitPartial raw ↔
  op = Put (metadata_key "version") (version raw) ∨
  ∃ wd, wd ∈ words raw ∧ op ∈ word_ops omitPartial wd.
Proof.
  unfold corpus_ops. rewrite elem_of_cons, list_elem_of_bind.
  split; (intros [?|(wd & ? & ?)]; [by left|right; by exists wd]).
Qed.

Lemma record_key_inj i j : record_key i = record_key j → i = j.
Proof. apply (inj (String.append "raw/words/")). Qed.

(** Under an index key the corpus writes the identifier of one of its
    words. *)
Lemma corpus_ops_index_value omitPartial raw rest v :
  Put ("indexes/" +:+ rest) v ∈ corpus_ops omitPartial raw →
  ∃ wd, wd ∈ words raw ∧ v = id wd.
Proof.
  intros [Hop|(wd & Hwd & Hop)]%elem_of_corpus_ops; [keys; congruence|].
  apply elem_of_word_ops in Hop as [Hop|[Hop|(_ & substr & _ & Hop)]].
  - keys. congruence.
  - injection Hop as _ ->. eauto.
  - injection Hop as _ ->. eauto.
Qed.

(** Under a record key it writes the serialized word. *)
Lemma corpus_ops_record_value omitPartial raw i x :
  Put (record_key i) x ∈ corpus_ops omitPartial raw →
  ∃ wd, wd ∈ words raw ∧ id wd = i ∧ x = JSON_stringify wd.
Proof.
  intros [Hop|(wd & Hwd & Hop)]%elem_of_corpus_ops; [keys; congruence|].
  apply elem_of_word_ops in Hop as [Hop|[Hop|(_ & substr & _ & Hop)]];
    [|keys; congruence..].
  assert (Hi : record_key i = record_key (id wd)) by congruence.
  apply record_key_inj in Hi as ->. injection Hop as ->. eauto.
Qed.

(** After a load into an empty store, every identifier found in the
    index resolves. *)
Lemma loaded_index_resolves omitPartial raw rest v :
  apply_batch (corpus_ops omitPartial raw) ∅ !! ("indexes/" +:+ rest) = Some v →
  ∃ wd, resolves (apply_batch (corpus_ops omitPartial raw) ∅) v wd.
Proof.
  intros Hv.
  apply apply_batch_lookup_inv in Hv as [Hv|Hv]; [done| |apply corpus_ops_puts].
  apply corpus_ops_index_value in Hv as (wd & Hwd & ->).
  destruct (apply_batch_lookup_put (corpus_ops omitPartial raw) ∅
              (record_key (id wd)) (JSON_stringify wd)) as [x Hx].
  { apply corpus_ops_puts. }
  { apply elem_of_corpus_ops. right. exists wd. split; [done|].
    apply elem_of_word_ops. by left. }
  pose proof Hx as Hx'.
  apply apply_batch_lookup_inv in Hx' as [Hx'|Hx']; [done| |apply corpus_ops_puts].
  apply corpus_ops_record_value in Hx' as (wd' & _ & _ & ->).
  exists wd', (JSON_stringify wd'). split; [done|]. apply JSON_parse_stringify.
Qed.

End Loaded.

(** ** [setup]: what it writes and what it raises *)

Section SetupClaims.
Context {json : JSON}.

(** The five ways through [setup], by what it finds. *)
Lemma setup_cases fs dbpath filename verbose omitPartial w
    (P : Outcome string * World → Prop) :
  (∀ v, db_data w !! "version" = Some v → P (setup fs dbpath filename verbose omitPartial w)) →
  (db_data w !! "version" = None → filename = "" →
     P (setup fs dbpath filename verbose omitPartial w)) →
  (db_data w !! "version" = None → filename ≠ "" → fs !! filename = None →
     P (setup fs dbpath filename verbose omitPartial w)) →
  (∀ contents, db_data w !! "version" = None → filename ≠ "" →
     fs !! filename = Some contents → JSON_parse_Simplified contents = None →
     P (setup fs dbpath filename verbose omitPartial w)) →
  (∀ contents raw, db_data w !! "version" = None → filename ≠ "" →
     fs !! filename = Some contents → JSON_parse_Simplified contents = Some raw →
     P (setup fs dbpath filename verbose omitPartial w)) →
  P (setup fs dbpath filename verbose omitPartial w).
Proof.
  intros Hfound Hnone Hunread Hunparsed Hparsed.
  destruct (db_data w !! "version") as [v|] eqn:Hv; [by eapply Hfound|].
  destruct (decide (filename = "")) as [Hname|Hname]; [by apply Hnone|].
  destruct (fs !! filename) as [contents|] eqn:Hfile; [|by apply Hunread].
  destruct (JSON_parse_Simplified contents) as [raw|] eqn:Hparse;
    [by eapply Hparsed|by eapply Hunparsed].
Qed.

Lemma setup_only_puts fs dbpath filename verbose omitPartial w :
  only_puts w (setup fs dbpath filename verbose omitPartial w).2.
Proof.
  apply setup_cases.
  - intros v Hv. erewrite setup_found by done. by eapply only_puts_quiet.
  - intros Hv ->. rewrite setup_no_filename by done. by eapply only_puts_quiet.
  - intros Hv Hname Hfile. rewrite setup_unreadable by done.
    by eapply only_puts_quiet.
  - intros contents Hv Hname Hfile Hparse.
    erewrite setup_unparsable by done. by eapply only_puts_quiet.
  - intros contents raw Hv Hname Hfile Hparse.
    erewrite setup_parsed by done.
    set (w1 := {| db_data := db_data w; db_open := true;
                  db_budget := db_budget w;
                  trace := trace w ++ [EvOpen dbpath; EvGet "version"; EvReadFile filename] |}).
    assert (H1 : only_puts w w1) by (by eapply only_puts_quiet).
    pose proof (load_only_puts raw verbose omitPartial w1) as H2.
    destruct (load raw verbose omitPartial w1) as [[[]|e|c] w2]; simpl in *;
      [by eapply only_puts_trans| |by eapply only_puts_trans].
    eapply only_puts_trans; [exact H1|]. eapply only_puts_trans; [exact H2|].
    by eapply (only_puts_quiet _ _ [EvClose]).
Qed.

(** C10: every operation of every batch [setup] issues is a put, never a
    delete; no key of the store is lost over the call, nor over any of
    the batches it flushes. *)
Theorem C10_setup_issues_puts_only fs dbpath filename verbose omitPartial w :
  ∃ evs,
    trace (setup fs dbpath filename verbose omitPartial w).2 = trace w ++ evs ∧
    (∀ ops op, EvBatch ops ∈ evs → op ∈ ops → ∃ k v, op = Put k v) ∧
    (∀ ops op, EvBatch ops ∈ evs → op ∈ ops → ∀ k, op ≠ Del k) ∧
    dom (db_data w) ⊆ dom (db_data (setup fs dbpath filename verbose omitPartial w).2) ∧
    (∀ ops w0, EvBatch ops ∈ evs →
       dom (db_data w0) ⊆ dom (db_data (ClassicLevel.batch ops w0).2)).
Proof.
  destruct (setup_only_puts fs dbpath filename verbose omitPartial w)
    as (evs & Ht & Hputs & Hdom).
  assert (Hops : ∀ ops, EvBatch ops ∈ evs → Forall is_put ops).
  { intros ops Hev. apply Forall_forall. intros op Hop.
    apply (proj1 (Forall_forall _ _) Hputs). apply elem_of_written. eauto. }
  exists evs. split; [done|]. split; [|split; [|split; [done|]]].
  - intros ops op Hev Hop.
    pose proof (proj1 (Forall_forall _ _) (Hops ops Hev) op Hop) as Hput.
    destruct op as [k v|k]; [eauto|done].
  - intros ops op Hev Hop k ->.
    exact (proj1 (Forall_forall _ _) (Hops ops Hev) _ Hop).
  - intros ops w0 Hev.
    destruct (batch_only_puts ops w0 (Hops ops Hev)) as (_ & _ & _ & Hd). done.
Qed.

(** C5 (amended): whenever [setup] raises anything but the parser's
    error the handle has been closed first, and closing is the last thing
    it did; without a file name it raises; with a file that cannot be
    read it raises nothing: it reports the file and ends the process with
    status 1, the handle still open. *)
Theorem C5_setup_closes_before_raising fs dbpath filename verbose omitPartial w :
  (∀ e, (setup fs dbpath filename verbose omitPartial w).1 = Throw e →
        e ≠ SyntaxError →
        db_open (setup fs dbpath filename verbose omitPartial w).2 = false ∧
        last (trace (setup fs dbpath filename verbose omitPartial w).2) = Some EvClose) ∧
  (db_data w !! "version" = None → filename = "" →
     (setup fs dbpath filename verbose omitPartial w).1
     = Throw (JsError no_filename_message)) ∧
  (db_data w !! "version" = None → filename ≠ "" → fs !! filename = None →
     (setup fs dbpath filename verbose omitPartial w).1 = Exit 1 ∧
     db_open (setup fs dbpath filename verbose omitPartial w).2 = true ∧
     last (trace (setup fs dbpath filename verbose omitPartial w).2)
     = Some (EvConsoleError ("Unable to find " +:+ filename))).
Proof.
  split; [|split].
  - apply setup_cases.
    + intros v Hv. by erewrite setup_found.
    + intros Hv ->. rewrite setup_no_filename by done. simpl.
      intros e _ _. split; [done|]. by rewrite last_app.
    + intros Hv Hname Hfile. by rewrite setup_unreadable.
    + intros contents Hv Hname Hfile Hparse.
      erewrite setup_unparsable by done. simpl. congruence.
    + intros contents raw Hv Hname Hfile Hparse.
      erewrite setup_parsed by done.
      destruct (load raw verbose omitPartial _) as [[[]|e'|c] w2]; simpl; [done| |done].
      intros e _ _. split; [done|]. apply last_snoc.
  - intros Hv ->. by rewrite setup_no_filename.
  - intros Hv Hname Hfile. rewrite setup_unreadable by done. simpl.
    split; [done|]. split; [done|]. by rewrite last_app.
Qed.

(** C6 (amended): with no probed key and a file name, a file that cannot
    be read makes [setup] report it and end the process with status 1,
    after a single read attempt, so that no error reaches the caller; a
    file that is not a corpus document makes it raise the parser's error
    to the caller, after a single read, writing nothing. *)
Theorem C6_setup_source_failures fs dbpath filename verbose omitPartial w :
  db_data w !! "version" = None → filename ≠ "" →
  (fs !! filename = None →
     (setup fs dbpath filename verbose omitPartial w).1 = Exit 1 ∧
     db_data (setup fs dbpath filename verbose omitPartial w).2 = db_data w ∧
     trace (setup fs dbpath filename verbose omitPartial w).2
     = trace w ++ [EvOpen dbpath; EvGet "version"; EvReadFile filename;
                   EvConsoleError ("Unable to find " +:+ filename)]) ∧
  (∀ contents, fs !! filename = Some contents →
     JSON_parse_Simplified contents = None →
     (setup fs dbpath filename verbose omitPartial w).1 = Throw SyntaxError ∧
     db_data (setup fs dbpath filename verbose omitPartial w).2 = db_data w ∧
     trace (setup fs dbpath filename verbose omitPartial w).2
     = trace w ++ [EvOpen dbpath; EvGet "version"; EvReadFile filename]).
Proof.
  intros Hv Hname. split.
  - intros Hfile. by rewrite setup_unreadable.
  - intros contents Hfile Hparse. by erewrite setup_unparsable.
Qed.

End SetupClaims.

(** ** What the searches return *)

Section SearchClaims.
Context {json : JSON}.

Lemma scanned_beginning q limit w :
  scanned (beginning_stream q limit) w
  = take_limit limit (matching (db_data w) ("indexes/" +:+ q)).
Proof. reflexivity. Qed.

Lemma scanned_anywhere q limit w :
  scanned (anywhere_stream q limit) w
  = take_limit limit (matching (db_data w) ("indexes/partial/" +:+ q)).
Proof. reflexivity. Qed.

Lemma take_limit_length {A} (limit : Z) (l : list A) :
  (0 ≤ limit)%Z → (length (take_limit limit l) ≤ Z.to_nat limit)%nat.
Proof. intros Hl. unfold take_limit. case_decide; [|lia]. rewrite length_take. lia. Qed.

Lemma take_limit_unlimited {A} (limit : Z) (l : list A) :
  (limit < 0)%Z → take_limit limit l = l.
Proof. intros Hl. unfold take_limit. case_decide; [lia|done]. Qed.

(** The keys a search scans extend the lower bound of its stream. *)
Lemma scanned_beginning_key q limit w k v :
  (k, v) ∈ scanned (beginning_stream q limit) w →
  db_data w !! k = Some v ∧ ∃ rest, k = "indexes/" +:+ q +:+ rest.
Proof.
  intros [Hk Hr]%elem_of_range_entries. split; [done|].
  apply in_range_prefix in Hr as [rest ->]. exists rest. simpl. by keys.
Qed.

Lemma scanned_anywhere_key q limit w k v :
  (k, v) ∈ scanned (anywhere_stream q limit) w →
  db_data w !! k = Some v ∧ ∃ rest, k = "indexes/partial/" +:+ q +:+ rest.
Proof.
  intros [Hk Hr]%elem_of_range_entries. split; [done|].
  apply in_range_prefix in Hr as [rest ->]. exists rest. simpl. by keys.
Qed.

(** On the store a load has filled, starting from an empty one, both
    searches return. *)
Lemma searchBeginning_loaded omitPartial raw q limit w :
  db_open w = true → db_data w = apply_batch (corpus_ops omitPartial raw) ∅ →
  ∃ ws, (searchBeginning q limit w).1 = Return ws.
Proof.
  intros Hopen Hdata. apply search_returns; [done|].
  intros k v [Hk [rest ->]]%scanned_beginning_key.
  rewrite Hdata in *. by eapply loaded_index_resolves.
Qed.

Lemma searchAnywhere_loaded omitPartial raw q limit w :
  db_open w = true → db_data w = apply_batch (corpus_ops omitPartial raw) ∅ →
  ∃ ws, (searchAnywhere q limit w).1 = Return ws.
Proof.
  intros Hopen Hdata. apply search_returns; [done|].
  intros k v [Hk [rest ->]]%scanned_anywhere_key.
  rewrite Hdata in *.
  apply (loaded_index_resolves omitPartial raw ("partial/" +:+ q +:+ rest)).
  by keys.
Qed.

(** C7: a search with a limit of at least 0 returns at most that many
    records, and none for 0; with a negative limit, the default [-1]
    included, it returns one record for every entry of the index in its
    range; on a store filled by a load it does return. *)
Theorem C7_limit_bounds_the_result (w : World) (q : string) (limit : Z) :
  db_open w = true →
  (∀ ws, (0 ≤ limit)%Z →
     ((searchBeginning q limit w).1 = Return ws → (length ws ≤ Z.to_nat limit)%nat) ∧
     ((searchAnywhere q limit w).1 = Return ws → (length ws ≤ Z.to_nat limit)%nat)) ∧
  ((searchBeginning q 0 w).1 = Return [] ∧ (searchAnywhere q 0 w).1 = Return []) ∧
  (∀ ws, (limit < 0)%Z →
     ((searchBeginning q limit w).1 = Return ws ↔
      Forall2 (λ kv wd, resolves (db_data w) kv.2 wd)
              (matching (db_data w) ("indexes/" +:+ q)) ws) ∧
     ((searchAnywhere q limit w).1 = Return ws ↔
      Forall2 (λ kv wd, resolves (db_data w) kv.2 wd)
              (matching (db_data w) ("indexes/partial/" +:+ q)) ws)) ∧
  (charBeginning q None = searchBeginning q (-1) ∧
   charAnywhere q None = searchAnywhere q (-1)) ∧
  (∀ omitPartial raw, db_data w = apply_batch (corpus_ops omitPartial raw) ∅ →
     (∃ ws, (searchBeginning q limit w).1 = Return ws) ∧
     (∃ ws, (searchAnywhere q limit w).1 = Return ws)).
Proof.
  intros Hopen. split; [|split; [|split; [|split]]].
  - intros ws Hlim.
    split; intros Hret; apply search_spec in Hret; try done;
      apply Forall2_length in Hret; rewrite <- Hret;
      by apply range_entries_length.
  - split; by apply search_spec.
  - intros ws Hlim. unfold searchBeginning, searchAnywhere.
    rewrite !search_spec by done.
    rewrite scanned_beginning, scanned_anywhere, !take_limit_unlimited by done.
    done.
  - done.
  - intros omitPartial raw Hdata.
    eauto using searchBeginning_loaded, searchAnywhere_loaded.
Qed.

(** C8 (amended): a search scans the entries of its range in strictly
    ascending order of the whole key, compared unit by unit, and returns
    the record of each scanned entry at the position of that entry;
    [idsToWords] returns the record of its i-th identifier at position
    i. *)
Theorem C8_results_follow_key_order (w : World) (q : string) (limit : Z)
    (ws : list Word) :
  db_open w = true →
  (StronglySorted key_lt (scanned (beginning_stream q limit) w) ∧
   ((searchBeginning q limit w).1 = Return ws →
    Forall2 (λ kv wd, resolves (db_data w) kv.2 wd)
            (scanned (beginning_stream q limit) w) ws)) ∧
  (StronglySorted key_lt (scanned (anywhere_stream q limit) w) ∧
   ((searchAnywhere q limit w).1 = Return ws →
    Forall2 (λ kv wd, resolves (db_data w) kv.2 wd)
            (scanned (anywhere_stream q limit) w) ws)) ∧
  (∀ idxs, (idsToWords idxs w).1 = Return ws →
     length ws = length idxs ∧
     ∀ n i, idxs !! n = Some i → ∃ wd, ws !! n = Some wd ∧ resolves (db_data w) i wd).
Proof.
  intros Hopen. split; [|split].
  - split; [apply range_entries_sorted|]. by intros ?%search_spec.
  - split; [apply range_entries_sorted|]. by intros ?%search_spec.
  - intros idxs Hret.
    destruct (idsToWords_spec idxs w Hopen) as (_ & _ & _ & Hr).
    apply Hr in Hret. split; [symmetry; by eapply Forall2_length|].
    intros n i Hi.
    destruct (Forall2_lookup_l _ _ _ _ _ Hret Hi) as (wd & Hwd & Hres). eauto.
Qed.

End SearchClaims.

(** ** The empty substring *)

Section EmptySubstring.
Context {json : JSON}.

(** C9 (amended): the enumerator yields the empty string for every
    string of at least two units; so a load with substring indexing
    enabled ([omitPartial] false) writes, for every word whose field has
    at least two units, an entry under [indexes/partial/-{id}], and a
    substring search for the empty string, with a limit other than 0,
    returns a non-empty list of records. *)
Theorem C9_empty_substring_is_indexed fs dbpath filename verbose w contents raw
    wd limit :
  db_data w = ∅ → db_budget w = None → filename ≠ "" →
  fs !! filename = Some contents → JSON_parse_Simplified contents = Some raw →
  wd ∈ words raw → (2 ≤ String.length (traditional wd))%nat → limit ≠ 0%Z →
  (∀ s, (2 ≤ String.length s)%nat → "" ∈ allSubstrings s) ∧
  (setup fs dbpath filename verbose false w).1 = Return (version raw) ∧
  (∃ ops, EvBatch ops ∈ trace (setup fs dbpath filename verbose false w).2 ∧
          Put ("indexes/partial/" +:+ "-" +:+ id wd) (id wd) ∈ ops) ∧
  is_Some (db_data (setup fs dbpath filename verbose false w).2
             !! ("indexes/partial/" +:+ "-" +:+ id wd)) ∧
  ∃ ws, (searchAnywhere "" limit (setup fs dbpath filename verbose false w).2).1
        = Return ws ∧ ws ≠ [].
Proof.
  intros Hempty Hb Hname Hfile Hparse Hwd Hlen Hlim.
  split; [exact allSubstrings_empty_string|].
  destruct (setup_loads fs dbpath filename verbose false w contents raw)
    as (w' & evs & -> & Ht & Hevs & Hd & Hopen & _); [by rewrite Hempty|done..|].
  simpl. rewrite Hempty in Hd.
  assert (Hop : Put (partial_key "" wd) (id wd) ∈ corpus_ops false raw).
  { apply elem_of_corpus_ops. right. exists wd. split; [done|].
    apply elem_of_word_ops. right. right. split; [done|]. exists "".
    split; [by apply allSubstrings_empty_string|done]. }
  change ("indexes/partial/" +:+ "-" +:+ id wd) with (partial_key "" wd).
  assert (Hkey : is_Some (db_data w' !! partial_key "" wd)).
  { rewrite Hd. eapply apply_batch_lookup_put; [apply corpus_ops_puts|exact Hop]. }
  split; [done|]. split; [|split; [done|]].
  - rewrite <- Hevs in Hop. apply elem_of_written in Hop as (ops & Hev & Hop).
    exists ops. split; [|done]. rewrite Ht, !elem_of_app. auto.
  - destruct (searchAnywhere_loaded false raw "" limit w' Hopen Hd) as [ws Hws].
    exists ws. split; [done|]. intros ->.
    apply search_spec in Hws; [|done]. apply Forall2_nil_inv_r in Hws.
    destruct Hkey as [v Hv]. revert Hws.
    apply (range_entries_nonempty _ _ _ _ (partial_key "" wd) v); [done..|].
    apply (in_range_extend ("indexes/partial/" +:+ "") "-" (id wd)). done.
Qed.

End EmptySubstring.

(** ** Namespaces *)

Section Namespaces.
Context {json : JSON}.

Lemma common_extension (a b r1 r2 : string) :
  a +:+ r1 = b +:+ r2 → prefix_related a b.
Proof.
  revert b. induction a as [|c a IH]; intros b Heq.
  - left. by exists b.
  - destruct b as [|d b]; [right; by exists (String c a)|].
    keys. injection Heq as -> Heq.
    destruct (IH b Heq) as [[rest ->]|[rest ->]].
    + left. by exists rest.
    + right. by exists rest.
Qed.

(** An exact-index key lies under [indexes/partial/] only for a field
    that starts with [partial/]. *)
Lemma exact_key_under_partial (wd : Word) (rest : string) :
  exact_key wd = "indexes/partial/" +:+ rest →
  ∃ r, traditional wd = "partial/" +:+ r.
Proof.
  unfold exact_key. intros Heq.
  apply (inj (String.append "indexes/") _ ("partial/" +:+ rest)) in Heq.
  destruct (traditional wd) as [|c1 t]; keys; [discriminate|].
  injection Heq as -> Heq.
  destruct t as [|c2 t]; keys; [discriminate|]. injection Heq as -> Heq.
  destruct t as [|c3 t]; keys; [discriminate|]. injection Heq as -> Heq.
  destruct t as [|c4 t]; keys; [discriminate|]. injection Heq as -> Heq.
  destruct t as [|c5 t]; keys; [discriminate|]. injection Heq as -> Heq.
  destruct t as [|c6 t]; keys; [discriminate|]. injection Heq as -> Heq.
  destruct t as [|c7 t]; keys; [discriminate|]. injection Heq as -> Heq.
  destruct t as [|c8 t]; keys; [discriminate|]. injection Heq as -> Heq.
  by exists t.
Qed.

(** Two namespaces share a key only if they are the two indexes. *)
Lemma namespaces_share (raw : Simplified) (ns1 ns2 : Namespace) (k : string) :
  written_for raw ns1 k → written_for raw ns2 k → ns1 ≠ ns2 →
  (ns1 = ExactIndex ∧ ns2 = SubstringIndex) ∨
  (ns1 = SubstringIndex ∧ ns2 = ExactIndex).
Proof.
  destruct ns1, ns2; simpl; intros H1 H2 Hne; try done; auto;
    exfalso; clear Hne;
    repeat match goal with
    | H : ∃ _, _ |- _ => destruct H as [? H]
    | H : _ ∧ _ |- _ => destruct H as [? H]
    end; subst k; keys; discriminate.
Qed.

(** After a load into an empty store, every key was written for some
    namespace. *)
Lemma loaded_key_namespace omitPartial raw k v :
  apply_batch (corpus_ops omitPartial raw) ∅ !! k = Some v →
  ∃ ns, written_for raw ns k.
Proof.
  intros Hv.
  apply apply_batch_lookup_inv in Hv as [Hv|Hv]; [done| |apply corpus_ops_puts].
  apply elem_of_corpus_ops in Hv as [[= -> _]|(wd & Hwd & Hop)]; [by exists Metadata|].
  apply elem_of_word_ops in Hop
    as [[= -> _]|[[= -> _]|(_ & substr & Hs & [= -> _])]].
  - exists Records. simpl. eauto.
  - exists ExactIndex. simpl. eauto.
  - exists SubstringIndex. simpl. eauto.
Qed.

End Namespaces.

Section NamespaceClaim.
Context {json : JSON}.

Lemma index_key_not_raw (raw : Simplified) (rest : string) :
  ¬ written_for raw Metadata ("indexes/" +:+ rest) ∧
  ¬ written_for raw Records ("indexes/" +:+ rest).
Proof.
  split; simpl.
  - keys. discriminate.
  - intros (wd & _ & Hk). keys. discriminate.
Qed.

Lemma substring_key_related (raw : Simplified) (q rest : string) :
  written_for raw SubstringIndex ("indexes/" +:+ q +:+ rest) →
  prefix_related q "partial/".
Proof.
  intros (wd & substr & _ & _ & Hk). unfold partial_key in Hk.
  apply (inj (String.append "indexes/") _ ("partial/" +:+ substr +:+ "-" +:+ id wd)) in Hk.
  by eapply common_extension.
Qed.

(** What does hold of the key layout: the metadata key, the record keys
    and the index keys are pairwise distinct, and only the two indexes
    can share a key; a scan yields only keys that extend its lower
    bound, so neither search ever yields a metadata or record key.  But
    [indexes/partial/] lies inside [indexes/]: a prefix search is free
    of substring-index keys when its query and [partial/] do not start
    one with the other, which leaves out the empty query and ["p"]; and
    a substring search yields an exact-index key only for a field that
    starts with [partial/]. *)
Lemma scans_stay_under_their_bound (raw : Simplified) (omitPartial : bool)
    (w : World) (q : string) (limit : Z) (k v : string) :
  (∀ ns1 ns2, written_for raw ns1 k → written_for raw ns2 k → ns1 ≠ ns2 →
     (ns1 = ExactIndex ∧ ns2 = SubstringIndex) ∨
     (ns1 = SubstringIndex ∧ ns2 = ExactIndex)) ∧
  ((k, v) ∈ scanned (beginning_stream q limit) w →
     (∃ rest, k = "indexes/" +:+ q +:+ rest) ∧
     ¬ written_for raw Metadata k ∧ ¬ written_for raw Records k ∧
     (¬ prefix_related q "partial/" →
        ¬ written_for raw SubstringIndex k ∧
        (db_data w = apply_batch (corpus_ops omitPartial raw) ∅ →
           written_for raw ExactIndex k))) ∧
  ((k, v) ∈ scanned (anywhere_stream q limit) w →
     (∃ rest, k = "indexes/partial/" +:+ q +:+ rest) ∧
     ¬ written_for raw Metadata k ∧ ¬ written_for raw Records k ∧
     (∀ wd, wd ∈ words raw → k = exact_key wd →
        ∃ r, traditional wd = "partial/" +:+ r) ∧
     ((∀ wd r, wd ∈ words raw → traditional wd ≠ "partial/" +:+ r) →
        ¬ written_for raw ExactIndex k ∧
        (db_data w = apply_batch (corpus_ops omitPartial raw) ∅ →
           written_for raw SubstringIndex k))).
Proof.
  split; [intros ns1 ns2; apply namespaces_share|]. split.
  - intros [Hk [rest ->]]%scanned_beginning_key.
    destruct (index_key_not_raw raw (q +:+ rest)) as [Hm Hr].
    split; [by exists rest|]. split; [done|]. split; [done|].
    intros Hq.
    assert (Hs : ¬ written_for raw SubstringIndex ("indexes/" +:+ q +:+ rest)).
    { intros Hs. by apply Hq, (substring_key_related raw q rest). }
    split; [done|]. intros Hdata. rewrite Hdata in Hk.
    apply loaded_key_namespace in Hk as [[] Hns]; done.
  - intros [Hk [rest ->]]%scanned_anywhere_key.
    destruct (index_key_not_raw raw ("partial/" +:+ q +:+ rest)) as [Hm Hr].
    split; [by exists rest|]. split; [done|]. split; [done|].
    assert (He : ∀ wd, wd ∈ words raw →
                   "indexes/partial/" +:+ q +:+ rest = exact_key wd →
                   ∃ r, traditional wd = "partial/" +:+ r).
    { intros wd _ Heq. by apply (exact_key_under_partial wd (q +:+ rest)). }
    split; [done|]. intros Hfields.
    assert (Hx : ¬ written_for raw ExactIndex ("indexes/partial/" +:+ q +:+ rest)).
    { intros (wd & Hwd & Heq). destruct (He wd Hwd Heq) as [r Hr'].
      by apply (Hfields wd r). }
    split; [done|]. intros Hdata. rewrite Hdata in Hk.
    apply loaded_key_namespace in Hk as [[] Hns]; done.
Qed.

End NamespaceClaim.

(** ** Calling [setup] again *)

Section SetupAgain.
Context {json : JSON}.

(** No operation of a load writes the key that [setup] probes. *)
Lemma corpus_ops_skip_probe omitPartial raw v :
  Put "version" v ∉ corpus_ops omitPartial raw.
Proof.
  intros [Hop|(wd & _ & Hop)]%elem_of_corpus_ops; [keys; discriminate|].
  apply elem_of_word_ops in Hop as [Hop|[Hop|(_ & substr & _ & Hop)]];
    keys; discriminate.
Qed.

(** C1: [setup] probes the key [version], and a load writes the version
    under [raw/version].  After a first [setup] has loaded the corpus the
    probed key is still absent, and a second [setup] against the same
    store, with the same file, reads the file again and writes every
    operation of the corpus again. *)
Theorem C1_second_setup_loads_again fs dbpath filename verbose omitPartial w
    contents raw :
  db_data w !! "version" = None → db_budget w = None → filename ≠ "" →
  fs !! filename = Some contents → JSON_parse_Simplified contents = Some raw →
  (setup fs dbpath filename verbose omitPartial w).1 = Return (version raw) ∧
  db_data (setup fs dbpath filename verbose omitPartial w).2 !! "version" = None ∧
  (setup fs dbpath filename verbose omitPartial
     (setup fs dbpath filename verbose omitPartial w).2).1 = Return (version raw) ∧
  ∃ evs,
    trace (setup fs dbpath filename verbose omitPartial
             (setup fs dbpath filename verbose omitPartial w).2).2
    = trace (setup fs dbpath filename verbose omitPartial w).2
      ++ [EvOpen dbpath; EvGet "version"; EvReadFile filename] ++ evs ∧
    written evs = corpus_ops omitPartial raw.
Proof.
  intros Hv Hb Hname Hfile Hparse.
  destruct (setup_loads fs dbpath filename verbose omitPartial w contents raw)
    as (w1 & evs1 & -> & Ht1 & Hevs1 & Hd1 & Hopen1 & Hb1); [done..|].
  simpl.
  assert (Hv1 : db_data w1 !! "version" = None).
  { rewrite Hd1. destruct (apply_batch _ _ !! "version") as [v|] eqn:Hlook; [|done].
    apply apply_batch_lookup_inv in Hlook as [Hlook|Hlook];
      [congruence| |apply corpus_ops_puts].
    by apply corpus_ops_skip_probe in Hlook. }
  destruct (setup_loads fs dbpath filename verbose omitPartial w1 contents raw)
    as (w2 & evs2 & -> & Ht2 & Hevs2 & _); [done..|].
  simpl. split; [done|]. split; [done|]. split; [done|]. by exists evs2.
Qed.

End SetupAgain.

(** ** The TypeScript revision *)

Section TsLoader.
Context {json : IndexTs.JSON}.

Ltac run_ts := unfold IndexTs.setup, mbind, mret, Eff_bind, Eff_ret, try_catch,
  throw, process_exit, console_error, console_log, readFile, ClassicLevel.new,
  ClassicLevel.get, ClassicLevel.close, log; simpl.

Lemma ts_setup_found fs dbpath filename verbose omitPartial w v :
  db_data w !! "version" = Some v →
  IndexTs.setup fs dbpath filename verbose omitPartial w =
  (Return v,
   {| db_data := db_data w; db_open := true; db_budget := db_budget w;
      trace := trace w ++ [EvOpen dbpath; EvGet "version"] |}).
Proof. intros Hv. run_ts. rewrite Hv. by rewrite <- app_assoc. Qed.

Lemma ts_setup_no_filename fs dbpath verbose omitPartial w :
  db_data w !! "version" = None →
  IndexTs.setup fs dbpath "" verbose omitPartial w =
  (Throw (JsError no_filename_message),
   {| db_data := db_data w; db_open := false; db_budget := db_budget w;
      trace := trace w ++ [EvOpen dbpath; EvGet "version"; EvClose] |}).
Proof. intros Hv. run_ts. rewrite Hv. simpl. by rewrite <- !app_assoc. Qed.

Lemma ts_setup_unreadable fs dbpath filename verbose omitPartial w :
  db_data w !! "version" = None → filename ≠ "" → fs !! filename = None →
  IndexTs.setup fs dbpath filename verbose omitPartial w =
  (Exit 1,
   {| db_data := db_data w; db_open := true; db_budget := db_budget w;
      trace := trace w ++ [EvOpen dbpath; EvGet "version"; EvReadFile filename;
                           EvConsoleError ("Unable to find " +:+ filename)] |}).
Proof.
  intros Hv Hname Hfile. run_ts. rewrite Hv. simpl.
  case_decide; [done|]. rewrite Hfile. simpl. by rewrite <- !app_assoc.
Qed.

Lemma ts_setup_unparsable fs dbpath filename verbose omitPartial w contents :
  db_data w !! "version" = None → filename ≠ "" →
  fs !! filename = Some contents → IndexTs.JSON_parse contents = None →
  IndexTs.setup fs dbpath filename verbose omitPartial w =
  (Throw SyntaxError,
   {| db_data := db_data w; db_open := true; db_budget := db_budget w;
      trace := trace w ++ [EvOpen dbpath; EvGet "version"; EvReadFile filename] |}).
Proof.
  intros Hv Hname Hfile Hparse. run_ts. rewrite Hv. simpl.
  case_decide; [done|]. rewrite Hfile, Hparse. simpl. by rewrite <- !app_assoc.
Qed.

Lemma ts_setup_parsed fs dbpath filename verbose omitPartial w contents raw :
  db_data w !! "version" = None → filename ≠ "" →
  fs !! filename = Some contents → IndexTs.JSON_parse contents = Some raw →
  IndexTs.setup fs dbpath filename verbose omitPartial w =
  match IndexTs.load raw verbose omitPartial
          {| db_data := db_data w; db_open := true; db_budget := db_budget w;
             trace := trace w ++ [EvOpen dbpath; EvGet "version"; EvReadFile filename] |}
  with
  | (Return _, w') => (Return (IndexTs.version raw), w')
  | (Throw e, w') =>
      (Throw e, {| db_data := db_data w'; db_open := false;
                   db_budget := db_budget w'; trace := trace w' ++ [EvClose] |})
  | (Exit c, w') => (Exit c, w')
  end.
Proof.
  intros Hv Hname Hfile Hparse. run_ts. rewrite Hv. simpl.
  case_decide; [done|]. rewrite Hfile, Hparse. simpl.
  rewrite <- !app_assoc. simpl.
  by destruct (IndexTs.load raw verbose omitPartial _) as [[?|?|?] ?].
Qed.

Lemma skips_probe_put (op : BatchOp) : skips_probe op → is_put op.
Proof. by destruct op. Qed.

Lemma ts_word_ops_skip omitPartial w :
  Forall skips_probe (IndexTs.word_ops omitPartial w).
Proof.
  unfold IndexTs.word_ops. apply Forall_app. split.
  - repeat constructor; simpl; keys; discriminate.
  - destruct omitPartial; [constructor|].
    apply Forall_app. split; apply Forall_fmap, Forall_true;
      intros substr; simpl; keys; discriminate.
Qed.

Lemma ts_character_ops_skip w : Forall skips_probe (IndexTs.character_ops w).
Proof. repeat constructor; simpl; keys; discriminate. Qed.

(** The revised load, on any store: puts only. *)
Lemma ts_load_only_puts raw verbose omitPartial w :
  only_puts w (IndexTs.load raw verbose omitPartial w).2.
Proof.
  assert (Hw : ∀ e, Forall is_put (IndexTs.word_ops omitPartial e)).
  { intros e. eapply Forall_impl; [apply ts_word_ops_skip|apply skips_probe_put]. }
  assert (Hc : ∀ e, Forall is_put (IndexTs.character_ops e)).
  { intros e. eapply Forall_impl; [apply ts_character_ops_skip|apply skips_probe_put]. }
  unfold IndexTs.load. rewrite bind_unfold.
  destruct (load_entries_only_puts (IndexTs.word_ops omitPartial) verbose 0
              (IndexTs.words raw)
              [Put ("raw/" +:+ "version") (IndexTs.version raw)] w Hw)
    as [H1 Hb1]; [by repeat constructor|].
  destruct (load_entries _ _ _ _ _ w) as [[b1|e|c] w1]; simpl in *; [|done..].
  specialize (Hb1 b1 eq_refl). rewrite bind_unfold.
  assert (∃ r w2,
    (if decide (length b1 = 0) then mret () else ClassicLevel.batch b1) w1 = (r, w2) ∧
    only_puts w1 w2) as (r & w2 & -> & H2).
  { case_decide.
    - exists (Return ()), w1. split; [done|apply only_puts_refl].
    - pose proof (batch_only_puts b1 w1 Hb1) as Hp.
      destruct (ClassicLevel.batch b1 w1) as [r w2]. by exists r, w2. }
  destruct r as [[]|e|c]; simpl; [|by eapply only_puts_trans..].
  rewrite bind_unfold.
  destruct (load_entries_only_puts IndexTs.character_ops verbose 0
              (IndexTs.characters raw) b1 w2 Hc Hb1) as [H3 Hb2].
  destruct (load_entries _ _ _ _ _ w2) as [[b2|e|c] w3]; simpl in *;
    [|eauto using only_puts_trans..].
  specialize (Hb2 b2 eq_refl).
  case_decide; [eauto using only_puts_trans|].
  pose proof (batch_only_puts b2 w3 Hb2). eauto using only_puts_trans.
Qed.

(** The analogue of C10 and of C5 for the revision: puts only, no key
    lost; and every error but the parser's is raised with the handle
    closed. *)
Lemma ts_setup_only_puts_and_closes fs dbpath filename verbose omitPartial w :
  only_puts w (IndexTs.setup fs dbpath filename verbose omitPartial w).2 ∧
  ∀ e, (IndexTs.setup fs dbpath filename verbose omitPartial w).1 = Throw e →
       e ≠ SyntaxError →
       db_open (IndexTs.setup fs dbpath filename verbose omitPartial w).2 = false.
Proof.
  destruct (db_data w !! "version") as [v|] eqn:Hv.
  { erewrite ts_setup_found by done. split; [by eapply only_puts_quiet|done]. }
  destruct (decide (filename = "")) as [->|Hname].
  { rewrite ts_setup_no_filename by done. split; [by eapply only_puts_quiet|done]. }
  destruct (fs !! filename) as [contents|] eqn:Hfile.
  2:{ rewrite ts_setup_unreadable by done. split; [by eapply only_puts_quiet|done]. }
  destruct (IndexTs.JSON_parse contents) as [raw|] eqn:Hparse.
  2:{ erewrite ts_setup_unparsable by done.
      split; [by eapply only_puts_quiet|]. simpl. congruence. }
  erewrite ts_setup_parsed by done.
  set (w1 := {| db_data := db_data w; db_open := true;
                db_budget := db_budget w;
                trace := trace w ++ [EvOpen dbpath; EvGet "version"; EvReadFile filename] |}).
  assert (H1 : only_puts w w1) by (by eapply only_puts_quiet).
  pose proof (ts_load_only_puts raw verbose omitPartial w1) as H2.
  destruct (IndexTs.load raw verbose omitPartial w1) as [[[]|e|c] w2]; simpl in *.
  - split; [by eapply only_puts_trans|done].
  - split; [|done]. eapply only_puts_trans; [exact H1|].
    eapply only_puts_trans; [exact H2|]. by eapply (only_puts_quiet _ _ [EvClose]).
  - split; [by eapply only_puts_trans|done].
Qed.

Lemma wrote_healthy w w' ops : wrote w w' ops → healthy w'.
Proof. by intros (_ & _ & _ & _ & ?). Qed.

(** The revised load on a store that accepts every batch. *)
Lemma ts_load_healthy raw verbose omitPartial w :
  healthy w →
  ∃ w' ops, IndexTs.load raw verbose omitPartial w = (Return (), w') ∧
            wrote w w' ops ∧ Forall skips_probe ops ∧
            Put ("raw/" +:+ "version") (IndexTs.version raw) ∈ ops.
Proof.
  intros Hw. unfold IndexTs.load. rewrite bind_unfold.
  destruct (load_entries_healthy (IndexTs.word_ops omitPartial) verbose 0
              (IndexTs.words raw)
              [Put ("raw/" +:+ "version") (IndexTs.version raw)] w Hw)
    as (b1 & w1 & o1 & -> & Hw1 & Hb1).
  assert (Hall1 : Forall skips_probe (o1 ++ b1)).
  { rewrite Hb1. apply Forall_app. split.
    - repeat constructor. simpl. keys. discriminate.
    - apply Forall_forall. intros op (e & Hop & _)%list_elem_of_bind.
      exact (proj1 (Forall_forall _ _) (ts_word_ops_skip omitPartial e) op Hop). }
  apply Forall_app in Hall1 as [Ho1 Hsb1].
  assert (Hin1 : Put ("raw/" +:+ "version") (IndexTs.version raw) ∈ o1 ++ b1).
  { rewrite Hb1. left. }
  pose proof (wrote_healthy _ _ _ Hw1) as Hh1.
  rewrite bind_unfold.
  assert (∃ w2 o2,
    (if decide (length b1 = 0) then mret () else ClassicLevel.batch b1) w1
    = (Return (), w2) ∧ wrote w1 w2 o2 ∧ Forall skips_probe o2 ∧
    Put ("raw/" +:+ "version") (IndexTs.version raw) ∈ o1 ++ o2)
    as (w2 & o2 & -> & Hw2 & Ho2 & Hin2).
  { case_decide as Hlen.
    - apply nil_length_inv in Hlen as ->.
      exists w1, []. split; [done|]. split; [by apply wrote_nothing|]. by split.
    - destruct (batch_wrote b1 w1 Hh1) as (w2 & -> & Hw2). by exists w2, b1. }
  pose proof (wrote_healthy _ _ _ Hw2) as Hh2.
  rewrite bind_unfold.
  destruct (load_entries_healthy IndexTs.character_ops verbose 0
              (IndexTs.characters raw) b1 w2 Hh2)
    as (b2 & w3 & o3 & -> & Hw3 & Hb2).
  assert (Hall3 : Forall skips_probe (o3 ++ b2)).
  { rewrite Hb2. apply Forall_app. split; [done|].
    apply Forall_forall. intros op (e & Hop & _)%list_elem_of_bind.
    exact (proj1 (Forall_forall _ _) (ts_character_ops_skip e) op Hop). }
  apply Forall_app in Hall3 as [Ho3 Hsb2].
  pose proof (wrote_healthy _ _ _ Hw3) as Hh3.
  assert (∃ w4 o4,
    (if decide (length b2 = 0) then mret () else ClassicLevel.batch b2) w3
    = (Return (), w4) ∧ wrote w3 w4 o4 ∧ Forall skips_probe o4)
    as (w4 & o4 & -> & Hw4 & Ho4).
  { case_decide as Hlen.
    - exists w3, []. split; [done|]. split; [by apply wrote_nothing|constructor].
    - destruct (batch_wrote b2 w3 Hh3) as (w4 & -> & Hw4). by exists w4, b2. }
  exists w4, (((o1 ++ o2) ++ o3) ++ o4). split; [done|].
  split; [eauto using wrote_trans|]. split.
  - rewrite !Forall_app. done.
  - apply elem_of_app in Hin2. rewrite !elem_of_app. tauto.
Qed.

(** The analogue of C1 for the revision: the probed key is never
    written, so a second [setup] reads the file and writes again. *)
Lemma ts_second_setup_loads_again fs dbpath filename verbose omitPartial w
    contents raw :
  db_data w !! "version" = None → db_budget w = None → filename ≠ "" →
  fs !! filename = Some contents → IndexTs.JSON_parse contents = Some raw →
  ∃ w1 w2 evs,
    IndexTs.setup fs dbpath filename verbose omitPartial w
    = (Return (IndexTs.version raw), w1) ∧
    db_data w1 !! "version" = None ∧
    IndexTs.setup fs dbpath filename verbose omitPartial w1
    = (Return (IndexTs.version raw), w2) ∧
    trace w2 = trace w1 ++ [EvOpen dbpath; EvGet "version"; EvReadFile filename] ++ evs ∧
    Put ("raw/" +:+ "version") (IndexTs.version raw) ∈ written evs.
Proof.
  intros Hv Hb Hname Hfile Hparse.
  assert (Hstep : ∀ w0, db_data w0 !! "version" = None → db_budget w0 = None →
    ∃ w' evs,
      IndexTs.setup fs dbpath filename verbose omitPartial w0
      = (Return (IndexTs.version raw), w') ∧
      trace w' = trace w0 ++ [EvOpen dbpath; EvGet "version"; EvReadFile filename] ++ evs ∧
      Put ("raw/" +:+ "version") (IndexTs.version raw) ∈ written evs ∧
      db_data w' !! "version" = None ∧ db_budget w' = None).
  { intros w0 Hv0 Hb0.
    rewrite (ts_setup_parsed _ _ _ _ _ _ _ _ Hv0 Hname Hfile Hparse).
    edestruct (ts_load_healthy raw verbose omitPartial)
      as (w' & ops & -> & Hw' & Hskip & Hin); [by split|].
    destruct Hw' as (evs & Ht & Hevs & Hd & _ & Hb'). simpl in *.
    exists w', evs. split; [done|]. split; [by rewrite Ht, <- app_assoc|].
    split; [by rewrite Hevs|]. split; [|done].
    rewrite Hd. destruct (apply_batch _ _ !! "version") as [x|] eqn:Hlook; [|done].
    apply apply_batch_lookup_inv in Hlook as [Hlook|Hlook]; [congruence| |].
    - exfalso. exact (proj1 (Forall_forall _ _) Hskip _ Hlook eq_refl).
    - eapply Forall_impl; [exact Hskip|apply skips_probe_put]. }
  destruct (Hstep w Hv Hb) as (w1 & evs1 & H1 & _ & _ & Hv1 & Hb1).
  destruct (Hstep w1 Hv1 Hb1) as (w2 & evs2 & H2 & Ht2 & Hin2 & _).
  by exists w1, w2, evs2.
Qed.

End TsLoader.

(** * The program on concrete inputs *)

Ltac by_decide := refine (bool_decide_unpack _ _); vm_compute; exact I.

Lemma corpus_abc_parses :
  JSON_parse_Simplified (Codec.write corpus_abc) = Some corpus_abc.
Proof. vm_compute. reflexivity. Qed.

(** C2: on ["abc"] the enumerator yields the three prefixes, the empty
    string and ["b"], and neither ["c"] nor ["bc"], which are substrings
    of ["abc"]. *)
Theorem C2_allSubstrings_misses_substrings :
  allSubstrings "abc" = ["a"; "ab"; "abc"; ""; "b"] ∧
  contiguous_substring "c" "abc" ∧ ("c" ∉ allSubstrings "abc") ∧
  contiguous_substring "bc" "abc" ∧ ("bc" ∉ allSubstrings "abc") ∧
  ("" ∈ allSubstrings "abc").
Proof.
  assert (Heq : allSubstrings "abc" = ["a"; "ab"; "abc"; ""; "b"])
    by (vm_compute; reflexivity).
  rewrite Heq. split; [done|]. split; [by exists "ab", ""|].
  split; [by_decide|]. split; [by exists "a", ""|].
  split; by_decide.
Qed.

(** C3: after loading the word ["abc"] with substring indexing enabled,
    the substring search for ["c"] returns no record, while the one for
    ["b"] returns the word. *)
Theorem C3_substring_search_misses_the_record :
  (setup files "test" "abc.json" false false fresh).1 = Return "1.0" ∧
  mkWord "1" "abc" ∈ words corpus_abc ∧
  contiguous_substring "c" (traditional (mkWord "1" "abc")) ∧
  (charAnywhere "c" None (setup files "test" "abc.json" false false fresh).2).1
  = Return [] ∧
  (charAnywhere "b" None (setup files "test" "abc.json" false false fresh).2).1
  = Return [mkWord "1" "abc"].
Proof.
  split; [vm_compute; reflexivity|]. split; [left|].
  split; [by exists "ab", ""|]. split; vm_compute; reflexivity.
Qed.

(** C1 on the corpus of the word ["abc"]: a second [setup] reads the file
    and writes the corpus again. *)
Lemma C1_second_setup_on_abc :
  fresh.(db_data) !! "version" = None ∧
  (setup files "test" "abc.json" false false fresh).1 = Return "1.0" ∧
  (setup files "test" "abc.json" false false
     (setup files "test" "abc.json" false false fresh).2).1 = Return "1.0" ∧
  ∃ evs,
    trace (setup files "test" "abc.json" false false
             (setup files "test" "abc.json" false false fresh).2).2
    = trace (setup files "test" "abc.json" false false fresh).2
      ++ [EvOpen "test"; EvGet "version"; EvReadFile "abc.json"] ++ evs ∧
    written evs = corpus_ops false corpus_abc.
Proof.
  split; [reflexivity|].
  destruct (C1_second_setup_loads_again files "test" "abc.json" false false fresh
              (Codec.write corpus_abc) corpus_abc)
    as (H1 & _ & H2 & H3);
    [reflexivity|reflexivity|discriminate|vm_compute; reflexivity
    |exact corpus_abc_parses|].
  exact (conj H1 (conj H2 H3)).
Defined.

(** C4: the substring index is stored under [indexes/partial/], inside
    the range [indexes/] that a prefix search scans.  After loading the
    word ["abc"], the prefix search for ["p"] scans five keys, each
    written for the substring index and none for the exact index, and
    returns the word, which does not start with ["p"], five times; the
    prefix search for the empty query scans the exact-index key and the
    same five keys, and returns the word six times. *)
Theorem C4_prefix_search_reads_the_substring_index :
  scanned (beginning_stream "p" (-1)) loaded_abc
  = [("indexes/partial/-1", "1"); ("indexes/partial/a-1", "1");
     ("indexes/partial/ab-1", "1"); ("indexes/partial/abc-1", "1");
     ("indexes/partial/b-1", "1")] ∧
  (∀ k v, (k, v) ∈ scanned (beginning_stream "p" (-1)) loaded_abc →
     written_for corpus_abc SubstringIndex k ∧
     ¬ written_for corpus_abc ExactIndex k) ∧
  (charBeginning "p" None loaded_abc).1 = Return (replicate 5 (mkWord "1" "abc")) ∧
  (∀ rest, traditional (mkWord "1" "abc") ≠ "p" +:+ rest) ∧
  scanned (beginning_stream "" (-1)) loaded_abc
  = [("indexes/abc-1", "1");
     ("indexes/partial/-1", "1"); ("indexes/partial/a-1", "1");
     ("indexes/partial/ab-1", "1"); ("indexes/partial/abc-1", "1");
     ("indexes/partial/b-1", "1")] ∧
  (charBeginning "" None loaded_abc).1 = Return (replicate 6 (mkWord "1" "abc")).
Proof.
  assert (Heq : scanned (beginning_stream "p" (-1)) loaded_abc
                = [("indexes/partial/-1", "1"); ("indexes/partial/a-1", "1");
                   ("indexes/partial/ab-1", "1"); ("indexes/partial/abc-1", "1");
                   ("indexes/partial/b-1", "1")]) by (vm_compute; reflexivity).
  assert (Hsub : ∀ substr, substr ∈ ["a"; "ab"; "abc"; ""; "b"] →
            written_for corpus_abc SubstringIndex
              ("indexes/partial/" +:+ substr +:+ "-1") ∧
            ¬ written_for corpus_abc ExactIndex
                ("indexes/partial/" +:+ substr +:+ "-1")).
  { intros substr Hs. split.
    - exists (mkWord "1" "abc"), substr. split; [left|]. split; [|reflexivity].
      assert (Hall : allSubstrings (traditional (mkWord "1" "abc"))
                     = ["a"; "ab"; "abc"; ""; "b"]) by (vm_compute; reflexivity).
      by rewrite Hall.
    - intros (wd & Hwd & Hk). apply list_elem_of_singleton in Hwd as ->.
      discriminate. }
  split; [exact Heq|]. split.
  { intros k v Hin. rewrite Heq in Hin.
    rewrite !elem_of_cons, elem_of_nil in Hin.
    destruct Hin as [Hin|[Hin|[Hin|[Hin|[Hin|[]]]]]]; injection Hin as -> _.
    - apply (Hsub ""). by_decide.
    - apply (Hsub "a"). by_decide.
    - apply (Hsub "ab"). by_decide.
    - apply (Hsub "abc"). by_decide.
    - apply (Hsub "b"). by_decide. }
  split; [vm_compute; reflexivity|]. split; [discriminate|].
  split; vm_compute; reflexivity.
Qed.

(** C5 does not hold as stated: with a source file that cannot be read,
    no error is raised and the handle stays open; the process ends. *)
Lemma C5_unreadable_source_leaves_handle_open :
  files !! "missing.json" = None ∧
  (setup files "test" "missing.json" false false fresh).1 = Exit 1 ∧
  db_open (setup files "test" "missing.json" false false fresh).2 = true ∧
  ¬ ∃ e, (setup files "test" "missing.json" false false fresh).1 = Throw e ∧
         db_open (setup files "test" "missing.json" false false fresh).2 = false.
Proof.
  split; [reflexivity|]. split; [reflexivity|]. split; [reflexivity|].
  intros (e & He & _). discriminate.
Qed.

(** C6 does not hold as stated: with a source file that cannot be read,
    no error reaches the caller; the process ends with status 1. *)
Lemma C6_unreadable_source_raises_nothing :
  (∅ : gmap string string) !! "cccanto-webdist.json" = None ∧
  (setup ∅ "test" "cccanto-webdist.json" true false fresh).1 = Exit 1 ∧
  ¬ ∃ e, (setup ∅ "test" "cccanto-webdist.json" true false fresh).1 = Throw e.
Proof.
  split; [reflexivity|]. split; [reflexivity|]. intros (e & He). discriminate.
Qed.

(** C8 does not hold as stated: the words ["a"] (id 2) and ["a!"] (id 1)
    are returned in the order of their keys, against the order of
    (value, id). *)
Lemma C8_results_not_in_value_id_order :
  (charBeginning "a" None (setup files "test" "order.json" false false fresh).2).1
  = Return [mkWord "1" "a!"; mkWord "2" "a"] ∧
  ¬ Sorted value_id_le [mkWord "1" "a!"; mkWord "2" "a"] ∧
  Sorted value_id_le [mkWord "2" "a"; mkWord "1" "a!"].
Proof.
  split; [vm_compute; reflexivity|]. split.
  - intros Hs. apply Sorted_inv in Hs as [_ Hhd]. apply HdRel_inv in Hhd.
    destruct Hhd as [Hlt|[Heq _]]; discriminate.
  - repeat constructor.
Qed.

(** C9 does not hold as stated: a load with substring indexing turned off
    writes no entry for the empty substring, and the search for the empty
    string returns nothing. *)
Lemma C9_no_entry_without_substring_indexing :
  mkWord "1" "ab" ∈ words corpus_ab ∧
  (2 ≤ String.length (traditional (mkWord "1" "ab")))%nat ∧
  (setup files "test" "ab.json" false true fresh).1 = Return "1.0" ∧
  db_data (setup files "test" "ab.json" false true fresh).2
    !! ("indexes/partial/" +:+ "-" +:+ "1") = None ∧
  (∀ ops, EvBatch ops ∈ trace (setup files "test" "ab.json" false true fresh).2 →
          Put ("indexes/partial/" +:+ "-" +:+ "1") "1" ∉ ops) ∧
  (charAnywhere "" None (setup files "test" "ab.json" false true fresh).2).1
  = Return [].
Proof.
  split; [left|]. split; [simpl; lia|]. split; [vm_compute; reflexivity|].
  split; [vm_compute; reflexivity|]. split; [|vm_compute; reflexivity].
  assert (Ht : ∃ x,
    trace (setup files "test" "ab.json" false true fresh).2
    = [EvOpen "test"; EvGet "version"; EvReadFile "ab.json";
       EvBatch [Put "raw/version" "1.0"; Put "raw/words/1" x;
                Put "indexes/ab-1" "1"]]).
  { eexists. vm_compute. reflexivity. }
  destruct Ht as [x ->]. intros ops Hev.
  repeat (apply elem_of_cons in Hev as [Hev|Hev]; [try discriminate|]).
  - injection Hev as ->. intros Hin.
    repeat (apply elem_of_cons in Hin as [Hin|Hin]; [discriminate|]).
    inversion Hin.
  - inversion Hev.
Qed.

(** ** The statements above on concrete inputs *)

(** The layout lemma on the word ["abc"] and the prefix query ["a"],
    which [partial/] does not start with. *)
Lemma scans_on_abc :
  (("indexes/abc-1", "1") ∈ scanned (beginning_stream "a" (-1)) loaded_abc ∧
   ¬ prefix_related "a" "partial/" ∧
   db_data loaded_abc = apply_batch (corpus_ops false corpus_abc) ∅) ∧
  (¬ written_for corpus_abc Metadata "indexes/abc-1" ∧
   ¬ written_for corpus_abc Records "indexes/abc-1" ∧
   ¬ written_for corpus_abc SubstringIndex "indexes/abc-1" ∧
   written_for corpus_abc ExactIndex "indexes/abc-1").
Proof.
  assert (Hin : ("indexes/abc-1", "1") ∈ scanned (beginning_stream "a" (-1)) loaded_abc).
  { assert (Heq : scanned (beginning_stream "a" (-1)) loaded_abc
                  = [("indexes/abc-1", "1")]) by (vm_compute; reflexivity).
    rewrite Heq. left. }
  assert (Hq : ¬ prefix_related "a" "partial/").
  { intros [[rest Hr]|[rest Hr]]; discriminate. }
  assert (Hd : db_data loaded_abc = apply_batch (corpus_ops false corpus_abc) ∅)
    by (vm_compute; reflexivity).
  split; [exact (conj Hin (conj Hq Hd))|].
  destruct (scans_stay_under_their_bound corpus_abc false loaded_abc "a" (-1)
              "indexes/abc-1" "1") as (_ & Hscan & _).
  destruct (Hscan Hin) as (_ & Hm & Hr & Hrest).
  destruct (Hrest Hq) as [Hs Hx].
  exact (conj Hm (conj Hr (conj Hs (Hx Hd)))).
Qed.

(** C5 (amended) on a store that rejects the batch, on a call without
    file name, and on a missing file. *)
Lemma C5_failures_on_examples :
  (setup files "test" "abc.json" false false failing).1 = Throw WriteFailed ∧
  db_open (setup files "test" "abc.json" false false failing).2 = false ∧
  last (trace (setup files "test" "abc.json" false false failing).2) = Some EvClose ∧
  (setup files "test" "" false false fresh).1 = Throw (JsError no_filename_message) ∧
  db_open (setup files "test" "" false false fresh).2 = false ∧
  (setup files "test" "missing.json" false false fresh).1 = Exit 1.
Proof.
  assert (Hw : (setup files "test" "abc.json" false false failing).1 = Throw WriteFailed)
    by (vm_compute; reflexivity).
  destruct (C5_setup_closes_before_raising files "test" "abc.json" false false failing)
    as (Hclose & _ & _).
  destruct (Hclose WriteFailed Hw) as [Hc Hl]; [discriminate|].
  destruct (C5_setup_closes_before_raising files "test" "" false false fresh)
    as (Hclose' & Hno & _).
  pose proof (Hno eq_refl eq_refl) as Hn.
  destruct (Hclose' _ Hn) as [Hc' _]; [discriminate|].
  destruct (C5_setup_closes_before_raising files "test" "missing.json" false false fresh)
    as (_ & _ & Hmiss).
  destruct Hmiss as (He & _); [reflexivity|discriminate|reflexivity|].
  auto 10.
Defined.

(** C6 (amended) on a missing file and on a file that is not a corpus
    document. *)
Lemma C6_failures_on_examples :
  (fresh.(db_data) !! "version" = None ∧ "broken.json" ≠ "" ∧
   files !! "missing.json" = None ∧ files !! "broken.json" = Some "{" ∧
   JSON_parse_Simplified "{" = None) ∧
  (setup files "test" "missing.json" false false fresh).1 = Exit 1 ∧
  (setup files "test" "broken.json" false false fresh).1 = Throw SyntaxError.
Proof.
  split; [by repeat split|].
  destruct (C6_setup_source_failures files "test" "missing.json" false false fresh)
    as [Hmiss _]; [reflexivity|discriminate|].
  destruct (C6_setup_source_failures files "test" "broken.json" false false fresh)
    as [_ Hbroken]; [reflexivity|discriminate|].
  destruct Hmiss as (He & _); [reflexivity|].
  destruct (Hbroken "{") as (Ht & _); [reflexivity|reflexivity|].
  exact (conj He Ht).
Defined.

(** C7 on the word ["abc"], with the limits 2 and 0. *)
Lemma C7_limits_on_abc :
  db_open loaded_abc = true ∧
  (∀ ws, (searchBeginning "p" 2 loaded_abc).1 = Return ws → (length ws ≤ 2)%nat) ∧
  (searchAnywhere "a" 0 loaded_abc).1 = Return [] ∧
  (∃ ws, (searchBeginning "p" 2 loaded_abc).1 = Return ws).
Proof.
  assert (Hopen : db_open loaded_abc = true) by reflexivity.
  assert (Hd : db_data loaded_abc = apply_batch (corpus_ops false corpus_abc) ∅)
    by (vm_compute; reflexivity).
  split; [done|].
  destruct (C7_limit_bounds_the_result loaded_abc "p" 2 Hopen)
    as (Hbound & _ & _ & _ & Hret).
  destruct (C7_limit_bounds_the_result loaded_abc "a" 2 Hopen)
    as (_ & [_ Hzero] & _).
  split; [|split; [done|]].
  - intros ws Hws. destruct (Hbound ws) as [Hb _]; [done|]. by apply Hb.
  - exact (proj1 (Hret false corpus_abc Hd)).
Defined.

(** C8 (amended) on the words ["a"] and ["a!"]. *)
Lemma C8_order_on_example :
  db_open loaded_order = true ∧
  StronglySorted key_lt (scanned (beginning_stream "a" (-1)) loaded_order) ∧
  Forall2 (λ kv wd, resolves (db_data loaded_order) kv.2 wd)
          (scanned (beginning_stream "a" (-1)) loaded_order)
          [mkWord "1" "a!"; mkWord "2" "a"].
Proof.
  assert (Hopen : db_open loaded_order = true) by reflexivity.
  split; [done|].
  destruct (C8_results_follow_key_order loaded_order "a" (-1)
              [mkWord "1" "a!"; mkWord "2" "a"] Hopen) as ([Hs Hr] & _).
  split; [done|]. apply Hr. vm_compute. reflexivity.
Defined.

(** C9 (amended) on the word ["ab"]. *)
Lemma C9_empty_substring_on_ab :
  (fresh.(db_data) = ∅ ∧ mkWord "1" "ab" ∈ words corpus_ab ∧
   (2 ≤ String.length (traditional (mkWord "1" "ab")))%nat) ∧
  is_Some (db_data (setup files "test" "ab.json" false false fresh).2
             !! ("indexes/partial/" +:+ "-" +:+ "1")) ∧
  ∃ ws, (searchAnywhere "" (-1)
           (setup files "test" "ab.json" false false fresh).2).1 = Return ws ∧
        ws ≠ [].
Proof.
  assert (Hwd : mkWord "1" "ab" ∈ words corpus_ab) by left.
  assert (Hlen : (2 ≤ String.length (traditional (mkWord "1" "ab")))%nat)
    by (simpl; lia).
  split; [done|].
  destruct (C9_empty_substring_is_indexed files "test" "ab.json" false fresh
              (Codec.write corpus_ab) corpus_ab (mkWord "1" "ab") (-1))
    as (_ & _ & _ & Hkey & Hsearch);
    [reflexivity|reflexivity|discriminate|vm_compute; reflexivity
    |vm_compute; reflexivity|exact Hwd|exact Hlen|discriminate|].
  split; [exact Hkey|exact Hsearch].
Defined.

(** The revision on its example: the events of a first [setup], and a
    second [setup] that reads and writes again. *)
Lemma ts_second_setup_on_example :
  trace (IndexTs.setup TsExample.files "test" "cantodict.json" false false fresh).2
  = [EvOpen "test"; EvGet "version"; EvReadFile "cantodict.json";
     EvBatch [Put "raw/version" "2.0"; Put "raw/words/1" "word 1";
              Put "indexes/abc-1" "1"; Put "indexes/ab-1" "1";
              Put "indexes/partial/a-1" "1"; Put "indexes/partial/ab-1" "1";
              Put "indexes/partial/abc-1" "1"; Put "indexes/partial/-1" "1";
              Put "indexes/partial/b-1" "1";
              Put "indexes/partial/a-1" "1"; Put "indexes/partial/ab-1" "1";
              Put "indexes/partial/-1" "1"];
     EvBatch [Put "raw/version" "2.0"; Put "raw/words/1" "word 1";
              Put "indexes/abc-1" "1"; Put "indexes/ab-1" "1";
              Put "indexes/partial/a-1" "1"; Put "indexes/partial/ab-1" "1";
              Put "indexes/partial/abc-1" "1"; Put "indexes/partial/-1" "1";
              Put "indexes/partial/b-1" "1";
              Put "indexes/partial/a-1" "1"; Put "indexes/partial/ab-1" "1";
              Put "indexes/partial/-1" "1";
              Put "raw/char/7" "character 7"; Put "indexchar/a-7" "7"]] ∧
  ∃ w1 w2 evs,
    IndexTs.setup TsExample.files "test" "cantodict.json" false false fresh
    = (Return "2.0", w1) ∧
    IndexTs.setup TsExample.files "test" "cantodict.json" false false w1
    = (Return "2.0", w2) ∧
    trace w2 = trace w1 ++ [EvOpen "test"; EvGet "version";
                            EvReadFile "cantodict.json"] ++ evs ∧
    Put "raw/version" "2.0" ∈ written evs.
Proof.
  split; [vm_compute; reflexivity|].
  destruct (ts_second_setup_loads_again TsExample.files "test" "cantodict.json"
              false false fresh "cantodict" TsExample.corpus)
    as (w1 & w2 & evs & H1 & _ & H2 & Ht & Hin);
    [reflexivity|reflexivity|discriminate|reflexivity|reflexivity|].
  by exists w1, w2, evs.
Qed.

(** * Further properties *)

(** ** What the enumerator yields *)

Lemma substring_0_prefix (m : nat) (s : string) :
  ∃ post, s = String.substring 0 m s +:+ post.
Proof.
  revert m. induction s as [|c s IH]; intros m.
  - exists "". by destruct m.
  - destruct m as [|m]; [by exists (String c s)|].
    destruct (IH m) as [post Heq]. exists post. simpl. keys. by rewrite <- Heq.
Qed.

Lemma substring_contiguous (n m : nat) (s : string) :
  contiguous_substring (String.substring n m s) s.
Proof.
  revert n m. induction s as [|c s IH]; intros n m.
  - exists "", "". by destruct n, m.
  - destruct n as [|n].
    + destruct (substring_0_prefix m (String c s)) as [post Heq].
      by exists "", post.
    + destruct (IH n m) as (pre & post & Heq). simpl.
      exists (String c pre), post. keys. by rewrite <- Heq.
Qed.

Lemma substring_0_app (p rest : string) :
  String.substring 0 (String.length p) (p +:+ rest) = p.
Proof.
  induction p as [|c p IH]; [by destruct rest|]. simpl. keys. by rewrite IH.
Qed.

(** [s.substring(start, length)] on indices within the string is a
    slice, from the smaller index to the larger. *)
Lemma JsString_substring_slice (s : string) (a b : nat) :
  (a ≤ String.length s)%nat → (b ≤ String.length s)%nat →
  JsString.substring s a b = slice s (Nat.min a b) (Nat.max a b).
Proof.
  intros Ha Hb. unfold JsString.substring, slice.
  by rewrite (Nat.min_l a), (Nat.min_l b) by done.
Qed.

(** X1: the enumerator yields exactly the slices of [s] that start at
    index 0 and are not empty, and the slices from [a] to [b] with
    [1 ≤ a ≤ b] and [a + b ≤ s.length]. *)
Theorem X1_allSubstrings_slices (s y : string) :
  y ∈ allSubstrings s ↔
  ∃ a b : nat, y = slice s a b ∧
    ((a = 0 ∧ 1 ≤ b ≤ String.length s)%nat ∨
     (1 ≤ a ≤ b ∧ a + b ≤ String.length s)%nat).
Proof.
  rewrite elem_of_allSubstrings. split.
  - intros (start & len & Hstart & Hlen & ->).
    rewrite JsString_substring_slice by lia.
    exists (Nat.min start len), (Nat.max start len). split; [done|].
    destruct start as [|start]; [left|right]; lia.
  - intros (a & b & -> & [[-> Hb]|[Ha Hab]]).
    + exists 0%nat, b. split; [lia|]. split; [lia|].
      rewrite JsString_substring_slice by lia.
      by rewrite Nat.min_l, Nat.max_r by lia.
    + exists a, b. split; [lia|]. split; [lia|].
      rewrite JsString_substring_slice by lia.
      by rewrite Nat.min_l, Nat.max_r by lia.
Qed.

(** X2: every string the enumerator yields occurs in [s] as a run of
    consecutive units, and it is yielded once. *)
Theorem X2_allSubstrings_sound (s : string) :
  (∀ y, y ∈ allSubstrings s → contiguous_substring y s) ∧
  NoDup (allSubstrings s).
Proof.
  split; [|apply NoDup_allSubstrings].
  intros y (start & len & Hstart & Hlen & ->)%elem_of_allSubstrings.
  rewrite JsString_substring_slice by lia. apply substring_contiguous.
Qed.

(** X3: every non-empty prefix of a string is yielded, the string itself
    included. *)
Theorem X3_allSubstrings_prefixes (p rest : string) :
  p ≠ "" → p ∈ allSubstrings (p +:+ rest).
Proof.
  intros Hp. apply elem_of_allSubstrings.
  assert (Hlen : String.length (p +:+ rest) = (String.length p + String.length rest)%nat).
  { clear. induction p as [|c p IH]; [done|]. simpl. keys. simpl. by rewrite IH. }
  exists 0%nat, (String.length p).
  assert (0 < String.length p)%nat by (destruct p; [done|simpl; lia]).
  split; [lia|]. split; [lia|].
  rewrite JsString_substring_slice by lia. unfold slice.
  by rewrite Nat.min_l, Nat.max_r, Nat.sub_0_r, substring_0_app by lia.
Qed.

(** ** Batches, key by key *)

Section LastWrite.

Lemma apply_batch_lookup (ops : list BatchOp) (m : gmap string string) (k : string) :
  Forall is_put ops →
  apply_batch ops m !! k
  = match put_value k ops with Some v => Some v | None => m !! k end.
Proof.
  intros Hops. revert m. induction Hops as [|op ops Hop _ IH]; intros m; [done|].
  cbn [apply_batch foldl put_value]. fold (apply_batch ops (apply_op m op)).
  rewrite IH. destruct (put_value k ops) as [v|]; [done|].
  destruct op as [k' v'|k']; [|done]. simpl.
  case_decide as Hk; [subst; by rewrite lookup_insert_eq|by rewrite lookup_insert_ne].
Qed.

Lemma put_value_elem_of (k v : string) (ops : list BatchOp) :
  put_value k ops = Some v → Put k v ∈ ops.
Proof.
  induction ops as [|op ops IH]; [done|]. simpl.
  destruct (put_value k ops) as [v'|].
  - intros [= ->]. right. by apply IH.
  - destruct op as [k' v'|k']; [|done]. case_decide; [|done].
    intros [= ->]. subst. left.
Qed.

Lemma put_value_None (k : string) (ops : list BatchOp) :
  put_value k ops = None → ∀ v, Put k v ∉ ops.
Proof.
  induction ops as [|op ops IH]; [intros _ v Hin; inversion Hin|]. simpl.
  destruct (put_value k ops) as [v'|]; [done|].
  intros Hop v [<-|Hin]%elem_of_cons; [|by eapply IH].
  by rewrite decide_True in Hop.
Qed.

(** A key that every put of the batch writes with the same value holds
    that value afterwards, whatever was there before. *)
Lemma apply_batch_lookup_agree (ops : list BatchOp) (m : gmap string string) k v :
  Forall is_put ops → Put k v ∈ ops → (∀ v', Put k v' ∈ ops → v' = v) →
  apply_batch ops m !! k = Some v.
Proof.
  intros Hops Hin Hall. rewrite apply_batch_lookup by done.
  destruct (put_value k ops) as [v'|] eqn:Hv.
  - f_equal. by apply Hall, put_value_elem_of.
  - by destruct (put_value_None k ops Hv v).
Qed.

(** A key that no put of the batch writes keeps what it had. *)
Lemma apply_batch_lookup_other (ops : list BatchOp) (m : gmap string string) k :
  Forall is_put ops → (∀ v, Put k v ∉ ops) → apply_batch ops m !! k = m !! k.
Proof.
  intros Hops Hall. rewrite apply_batch_lookup by done.
  destruct (put_value k ops) as [v|] eqn:Hv; [|done].
  destruct (Hall v). by apply put_value_elem_of.
Qed.

(** Writing the same puts a second time changes nothing. *)
Lemma apply_batch_idem (ops : list BatchOp) (m : gmap string string) :
  Forall is_put ops → apply_batch ops (apply_batch ops m) = apply_batch ops m.
Proof.
  intros Hops. apply map_eq. intros k. rewrite !apply_batch_lookup by done.
  by destruct (put_value k ops).
Qed.

Lemma no_hyphen_app (a b : string) : no_hyphen (a +:+ String "-" b) = false.
Proof.
  induction a as [|c a IH]; [done|]. keys. simpl. by case_decide.
Qed.

(** An identifier without ['-'] is what follows the last ['-'] of its
    key. *)
Lemma hyphen_split (t1 i1 t2 i2 : string) :
  t1 +:+ "-" +:+ i1 = t2 +:+ "-" +:+ i2 →
  no_hyphen i1 = true → no_hyphen i2 = true → t1 = t2 ∧ i1 = i2.
Proof.
  revert t2. induction t1 as [|c t1 IH]; intros [|d t2] Heq H1 H2; keys.
  - by injection Heq as ->.
  - injection Heq as <- ->. by rewrite no_hyphen_app in H1.
  - injection Heq as -> <-. by rewrite no_hyphen_app in H2.
  - injection Heq as -> Heq. destruct (IH t2 Heq H1 H2) as [-> ->]. done.
Qed.

Lemma NoDup_fmap_eq {A B} (f : A → B) (l : list A) (x y : A) :
  NoDup (f <$> l) → x ∈ l → y ∈ l → f x = f y → x = y.
Proof.
  induction l as [|a l IH]; [intros _ Hx; inversion Hx|].
  rewrite fmap_cons, NoDup_cons, !elem_of_cons.
  intros [Ha Hnd] [->|Hx] [->|Hy] Heq; [done| | |by apply IH].
  - destruct Ha. rewrite Heq. apply list_elem_of_fmap. by exists y.
  - destruct Ha. rewrite <- Heq. apply list_elem_of_fmap. by exists x.
Qed.

End LastWrite.
(** ** The entries of a loaded store *)

Section AfterLoad.
Context {json : JSON}.

Lemma string_app_assoc (a b c : string) : (a +:+ b) +:+ c = a +:+ b +:+ c.
Proof. induction a as [|x a IH]; [done|]. keys. by rewrite IH. Qed.

(** A first [setup] on an empty store that accepts every batch leaves a
    loaded store. *)
Lemma setup_loaded fs dbpath filename verbose omitPartial w contents raw :
  db_data w = ∅ → db_budget w = None → filename ≠ "" →
  fs !! filename = Some contents → JSON_parse_Simplified contents = Some raw →
  (setup fs dbpath filename verbose omitPartial w).1 = Return (version raw) ∧
  loaded omitPartial raw (setup fs dbpath filename verbose omitPartial w).2.
Proof.
  intros Hempty Hb Hname Hfile Hparse.
  destruct (setup_loads fs dbpath filename verbose omitPartial w contents raw)
    as (w' & evs & -> & _ & _ & Hd & Hopen & _); [by rewrite Hempty|done..|].
  simpl. rewrite Hempty in Hd. done.
Qed.

(** With distinct identifiers, the record key of a word holds the word,
    serialized, whatever the store held before. *)
Lemma loaded_record omitPartial raw (m : gmap string string) (wd : Word) :
  NoDup (id <$> words raw) → wd ∈ words raw →
  apply_batch (corpus_ops omitPartial raw) m !! record_key (id wd)
  = Some (JSON_stringify wd).
Proof.
  intros Hnd Hwd. apply apply_batch_lookup_agree; [apply corpus_ops_puts| |].
  - apply elem_of_corpus_ops. right. exists wd. split; [done|].
    apply elem_of_word_ops. by left.
  - intros x (wd' & Hwd' & Hid & ->)%corpus_ops_record_value.
    by rewrite (NoDup_fmap_eq id (words raw) wd' wd).
Qed.

Lemma loaded_resolves omitPartial raw (m : gmap string string) (wd : Word) :
  NoDup (id <$> words raw) → wd ∈ words raw →
  resolves (apply_batch (corpus_ops omitPartial raw) m) (id wd) wd.
Proof.
  intros Hnd Hwd. exists (JSON_stringify wd).
  split; [by apply loaded_record|apply JSON_parse_stringify].
Qed.

(** With plain identifiers, whatever the load writes under an index key
    that ends in ["-" + id] of a word is the identifier of that word. *)
Lemma index_put_value omitPartial raw (wd : Word) (x v : string) :
  plain_ids raw → wd ∈ words raw →
  Put ("indexes/" +:+ x +:+ "-" +:+ id wd) v ∈ corpus_ops omitPartial raw →
  v = id wd.
Proof.
  intros [Hnd Hplain] Hwd [Hop|(wd' & Hwd' & Hop)]%elem_of_corpus_ops;
    [keys; discriminate|].
  apply elem_of_word_ops in Hop as [Hop|[Hop|(_ & substr & _ & Hop)]].
  - keys. discriminate.
  - assert (Hk : "indexes/" +:+ x +:+ "-" +:+ id wd = exact_key wd') by congruence.
    assert (Hv : v = id wd') by congruence. subst v.
    apply (inj (String.append "indexes/")) in Hk.
    by destruct (hyphen_split _ _ _ _ Hk) as [_ ->]; auto.
  - assert (Hk : "indexes/" +:+ x +:+ "-" +:+ id wd = partial_key substr wd')
      by congruence.
    assert (Hv : v = id wd') by congruence. subst v.
    apply (inj (String.append "indexes/") _ ("partial/" +:+ substr +:+ "-" +:+ id wd')) in Hk.
    rewrite <- (string_app_assoc "partial/" substr) in Hk.
    by destruct (hyphen_split _ _ _ _ Hk) as [_ ->]; auto.
Qed.

Lemma loaded_exact_entry omitPartial raw (m : gmap string string) (wd : Word) :
  plain_ids raw → wd ∈ words raw →
  apply_batch (corpus_ops omitPartial raw) m !! exact_key wd = Some (id wd).
Proof.
  intros Hids Hwd. apply apply_batch_lookup_agree; [apply corpus_ops_puts| |].
  - apply elem_of_corpus_ops. right. exists wd. split; [done|].
    apply elem_of_word_ops. right. by left.
  - intros v Hv. by eapply (index_put_value omitPartial raw wd (traditional wd)).
Qed.

Lemma loaded_partial_entry raw (m : gmap string string) (wd : Word) (substr : string) :
  plain_ids raw → wd ∈ words raw → substr ∈ allSubstrings (traditional wd) →
  apply_batch (corpus_ops false raw) m !! partial_key substr wd = Some (id wd).
Proof.
  intros Hids Hwd Hs. apply apply_batch_lookup_agree; [apply corpus_ops_puts| |].
  - apply elem_of_corpus_ops. right. exists wd. split; [done|].
    apply elem_of_word_ops. right. right. split; [done|]. by exists substr.
  - intros v Hv.
    apply (index_put_value false raw wd ("partial/" +:+ substr)); [done..|].
    by rewrite string_app_assoc.
Qed.

(** An entry of the range, on an unlimited scan, puts its record in the
    result. *)
Lemma search_includes (stream : ValueStream) (w : World) (ws : list Word)
    (k v : string) (wd : Word) :
  db_open w = true → (opt_limit stream < 0)%Z →
  db_data w !! k = Some v → in_range (opt_gte stream) (opt_lt stream) k = true →
  resolves (db_data w) v wd →
  ((ids ← drainStream stream; idsToWords ids) w).1 = Return ws →
  wd ∈ ws.
Proof.
  intros Hopen Hlim Hk Hr Hres Hws. apply search_spec in Hws; [|done].
  assert (Hin : (k, v) ∈ scanned stream w).
  { unfold scanned. by apply elem_of_range_entries_unlimited. }
  apply list_elem_of_lookup in Hin as [i Hi].
  destruct (Forall2_lookup_l _ _ _ _ _ Hws Hi) as (wd' & Hwd' & Hres').
  rewrite (resolves_fun _ _ wd wd' Hres Hres').
  by eapply list_elem_of_lookup_2.
Qed.

Lemma in_range_below (gte rest : string) :
  below_sentinel rest → in_range gte (gte +:+ uFFFF) (gte +:+ rest) = true.
Proof.
  destruct rest as [|c rest]; intros Hc; [|by apply in_range_extend].
  unfold in_range, String.leb, String.ltb.
  rewrite string_compare_app_l, string_compare_app. done.
Qed.

Lemma below_sentinel_app (rest tail : string) :
  below_sentinel rest → below_sentinel tail → below_sentinel (rest +:+ tail).
Proof. by destruct rest. Qed.

(** X4: after a load into an empty store, with plain identifiers, a
    prefix search without limit for the field value of a word, or for a
    prefix of it that a unit below the sentinel follows, returns a list
    that holds the word. *)
Theorem X4_prefix_search_finds_the_word omitPartial raw (w : World) (wd : Word)
    (p rest : string) (limit : Z) :
  loaded omitPartial raw w → plain_ids raw → wd ∈ words raw →
  traditional wd = p +:+ rest → below_sentinel rest → (limit < 0)%Z →
  ∃ ws, (searchBeginning p limit w).1 = Return ws ∧ wd ∈ ws.
Proof.
  intros [Hopen Hdata] Hids Hwd Hfield Hrest Hlim.
  destruct (searchBeginning_loaded omitPartial raw p limit w Hopen Hdata) as [ws Hws].
  exists ws. split; [done|].
  apply (search_includes (beginning_stream p limit) w ws (exact_key wd) (id wd));
    try done.
  - rewrite Hdata. by apply loaded_exact_entry.
  - assert (Hkey : exact_key wd = ("indexes/" +:+ p) +:+ rest +:+ "-" +:+ id wd).
    { unfold exact_key. by rewrite Hfield, !string_app_assoc. }
    change (in_range ("indexes/" +:+ p) (("indexes/" +:+ p) +:+ uFFFF)
              (exact_key wd) = true).
    rewrite Hkey. apply in_range_below. by apply below_sentinel_app.
  - rewrite Hdata. apply loaded_resolves; [apply Hids|done].
Qed.

(** X5: after a load with substring indexing into an empty store, with
    plain identifiers, a substring search without limit for a string the
    enumerator yields for the field of a word (every non-empty prefix of
    the field is one), or for a prefix of such a string, returns a list
    that holds the word. *)
Theorem X5_substring_search_finds_enumerated raw (w : World) (wd : Word)
    (q rest : string) (limit : Z) :
  loaded false raw w → plain_ids raw → wd ∈ words raw →
  q +:+ rest ∈ allSubstrings (traditional wd) → below_sentinel rest →
  (limit < 0)%Z →
  ∃ ws, (searchAnywhere q limit w).1 = Return ws ∧ wd ∈ ws.
Proof.
  intros [Hopen Hdata] Hids Hwd Hsub Hrest Hlim.
  destruct (searchAnywhere_loaded false raw q limit w Hopen Hdata) as [ws Hws].
  exists ws. split; [done|].
  apply (search_includes (anywhere_stream q limit) w ws
           (partial_key (q +:+ rest) wd) (id wd)); try done.
  - rewrite Hdata. by apply loaded_partial_entry.
  - assert (Hkey : partial_key (q +:+ rest) wd
                   = ("indexes/partial/" +:+ q) +:+ rest +:+ "-" +:+ id wd).
    { unfold partial_key. by rewrite !string_app_assoc. }
    change (in_range ("indexes/partial/" +:+ q) (("indexes/partial/" +:+ q) +:+ uFFFF)
              (partial_key (q +:+ rest) wd) = true).
    rewrite Hkey. apply in_range_below. by apply below_sentinel_app.
  - rewrite Hdata. apply loaded_resolves; [apply Hids|done].
Qed.

(** The substring index lies inside the range of the prefix search, for
    every corpus: after a load with substring indexing, a prefix search
    without limit whose query starts the text [partial/{substr}-{id}]
    of a substring-index key (the empty query and ["p"] always do) scans
    that key and returns its word, whatever the field of the word starts
    with. *)
Lemma prefix_search_reaches_the_substring_index raw (w : World) (wd : Word)
    (substr q rest : string) (limit : Z) :
  loaded false raw w → plain_ids raw → wd ∈ words raw →
  substr ∈ allSubstrings (traditional wd) →
  "partial/" +:+ substr +:+ "-" +:+ id wd = q +:+ rest →
  below_sentinel rest → (limit < 0)%Z →
  (partial_key substr wd, id wd) ∈ scanned (beginning_stream q limit) w ∧
  ∃ ws, (searchBeginning q limit w).1 = Return ws ∧ wd ∈ ws.
Proof.
  intros [Hopen Hdata] Hids Hwd Hsub Hkey Hrest Hlim.
  assert (Hk : db_data w !! partial_key substr wd = Some (id wd)).
  { rewrite Hdata. by apply loaded_partial_entry. }
  assert (Hr : in_range ("indexes/" +:+ q) (("indexes/" +:+ q) +:+ uFFFF)
                 (partial_key substr wd) = true).
  { assert (Hpk : partial_key substr wd = ("indexes/" +:+ q) +:+ rest).
    { rewrite string_app_assoc, <- Hkey. reflexivity. }
    rewrite Hpk. by apply in_range_below. }
  split.
  { unfold scanned. by apply elem_of_range_entries_unlimited. }
  destruct (searchBeginning_loaded false raw q limit w Hopen Hdata) as [ws Hws].
  exists ws. split; [done|].
  apply (search_includes (beginning_stream q limit) w ws
           (partial_key substr wd) (id wd)); try done.
  rewrite Hdata. apply loaded_resolves; [apply Hids|done].
Qed.

(** Every record a search returns from a loaded store is a word of the
    corpus, found through an index entry that some word of the corpus
    with the same identifier has written. *)
Lemma search_result_origin omitPartial raw (stream : ValueStream) (w : World)
    (ws : list Word) (wd : Word) :
  loaded omitPartial raw w →
  ((ids ← drainStream stream; idsToWords ids) w).1 = Return ws → wd ∈ ws →
  ∃ k, (k, id wd) ∈ scanned stream w ∧ wd ∈ words raw.
Proof.
  intros [Hopen Hdata] Hws Hwd. apply search_spec in Hws; [|done].
  apply list_elem_of_lookup in Hwd as [i Hi].
  destruct (Forall2_lookup_r _ _ _ _ _ Hws Hi) as ([k v] & Hkv & x & Hx & Hparse).
  cbn [snd] in Hx. rewrite Hdata in Hx.
  apply apply_batch_lookup_inv in Hx as [Hx|Hx]; [done| |apply corpus_ops_puts].
  apply corpus_ops_record_value in Hx as (wd' & Hwd' & <- & ->).
  rewrite JSON_parse_stringify in Hparse. injection Hparse as <-.
  exists k. split; [|done]. by eapply list_elem_of_lookup_2.
Qed.

(** X6: from a loaded store both searches return words of the corpus
    only; and when the query and [partial/] do not start one with the
    other, every word a prefix search returns shares its identifier with
    a word of the corpus whose field value, followed by ["-"] and the
    identifier, starts with the query. *)
Theorem X6_search_results_come_from_the_corpus omitPartial raw (w : World)
    (q : string) (limit : Z) (ws : list Word) :
  loaded omitPartial raw w →
  (searchBeginning q limit w).1 = Return ws ∨
  (searchAnywhere q limit w).1 = Return ws →
  (∀ wd, wd ∈ ws → wd ∈ words raw) ∧
  ((searchBeginning q limit w).1 = Return ws → ¬ prefix_related q "partial/" →
   ∀ wd, wd ∈ ws →
     ∃ wd' rest, wd' ∈ words raw ∧ id wd' = id wd ∧
                 traditional wd' +:+ "-" +:+ id wd' = q +:+ rest).
Proof.
  intros Hl Hws. split.
  - intros wd Hwd. destruct Hws as [Hws|Hws];
      by destruct (search_result_origin omitPartial raw _ w ws wd Hl Hws Hwd) as (k & _ & ?).
  - clear Hws. intros Hws Hq wd Hwd.
    destruct (search_result_origin omitPartial raw _ w ws wd Hl Hws Hwd)
      as (k & [Hk [rest ->]]%scanned_beginning_key & _).
    destruct Hl as [_ Hdata]. rewrite Hdata in Hk.
    apply apply_batch_lookup_inv in Hk as [Hk|Hk]; [done| |apply corpus_ops_puts].
    apply elem_of_corpus_ops in Hk as [Hk|(wd' & Hwd' & Hk)]; [keys; discriminate|].
    apply elem_of_word_ops in Hk as [Hk|[Hk|(_ & substr & Hs & Hk)]].
    + keys. discriminate.
    + assert (Hkey : "indexes/" +:+ q +:+ rest = exact_key wd') by congruence.
      assert (Hid : id wd = id wd') by congruence.
      apply (inj (String.append "indexes/")) in Hkey.
      by exists wd', rest.
    + destruct Hq. apply (substring_key_related raw q rest).
      exists wd', substr. split; [done|]. split; [done|]. congruence.
Qed.

(** X7: from a store loaded with substring indexing turned off, when no
    field starts with [partial/], a substring search returns the empty
    list for every query and every limit. *)
Theorem X7_substring_search_off raw (w : World) (q : string) (limit : Z) :
  loaded true raw w →
  (∀ wd r, wd ∈ words raw → traditional wd ≠ "partial/" +:+ r) →
  (searchAnywhere q limit w).1 = Return [].
Proof.
  intros [Hopen Hdata] Hfields. apply search_spec; [done|].
  assert (Hnone : scanned (anywhere_stream q limit) w = []).
  { destruct (scanned _ w) as [|[k v] l] eqn:Hs; [done|]. exfalso.
    assert (Hin : (k, v) ∈ scanned (anywhere_stream q limit) w) by (rewrite Hs; left).
    apply scanned_anywhere_key in Hin as [Hk [rest ->]].
    rewrite Hdata in Hk.
    apply apply_batch_lookup_inv in Hk as [Hk|Hk]; [done| |apply corpus_ops_puts].
    apply elem_of_corpus_ops in Hk as [Hk|(wd' & Hwd' & Hk)]; [keys; discriminate|].
    apply elem_of_word_ops in Hk as [Hk|[Hk|(Ho & _)]]; [| |done].
    - keys. discriminate.
    - assert (Hkey : exact_key wd' = "indexes/partial/" +:+ q +:+ rest) by congruence.
      destruct (exact_key_under_partial wd' (q +:+ rest) Hkey) as [r Hr].
      by apply (Hfields wd' r). }
  rewrite Hnone. constructor.
Qed.

(** X8: after a load, [getField] of [version] returns the version of the
    corpus, whatever the store held before; after a load into an empty
    store, with distinct identifiers, [getField] of ["words/" + id]
    returns the serialized word, and [getField] of any other key fails
    with [NotFound]. *)
Theorem X8_getField_after_load omitPartial raw (m : gmap string string) (w : World) :
  db_open w = true → db_data w = apply_batch (corpus_ops omitPartial raw) m →
  (getField "version" w).1 = Return (version raw) ∧
  (m = ∅ → NoDup (id <$> words raw) →
   (∀ wd, wd ∈ words raw →
      (getField ("words/" +:+ id wd) w).1 = Return (JSON_stringify wd)) ∧
   (∀ key, key ≠ "version" → (∀ wd, wd ∈ words raw → key ≠ "words/" +:+ id wd) →
      (getField key w).1 = Throw (NotFound ("raw/" +:+ key)))).
Proof.
  intros Hopen Hdata. unfold getField, ClassicLevel.get. rewrite Hopen, Hdata.
  split; [|intros -> Hnd; split].
  - rewrite (apply_batch_lookup_agree _ _ _ (version raw)); [done| | |].
    + apply corpus_ops_puts.
    + left.
    + intros v [Hv|(wd & _ & Hv)]%elem_of_corpus_ops; [congruence|].
      apply elem_of_word_ops in Hv as [Hv|[Hv|(_ & s & _ & Hv)]]; keys; discriminate.
  - intros wd Hwd.
    change (metadata_key ("words/" +:+ id wd)) with (record_key (id wd)).
    by rewrite loaded_record.
  - intros key Hkey Hwords.
    destruct (apply_batch _ _ !! metadata_key key) as [x|] eqn:Hx; [exfalso|done].
    apply apply_batch_lookup_inv in Hx as [Hx|Hx]; [done| |apply corpus_ops_puts].
    apply elem_of_corpus_ops in Hx as [Hx|(wd & Hwd & Hx)].
    + apply Hkey. assert (Hk : metadata_key key = metadata_key "version") by congruence.
      by apply (inj (String.append "raw/")) in Hk.
    + apply elem_of_word_ops in Hx as [Hx|[Hx|(_ & s & _ & Hx)]];
        [|keys; discriminate..].
      apply (Hwords wd Hwd).
      assert (Hk : metadata_key key = record_key (id wd)) by congruence.
      change (record_key (id wd)) with (metadata_key ("words/" +:+ id wd)) in Hk.
      by apply (inj (String.append "raw/")) in Hk.
Qed.

(** X9: after a load, with distinct identifiers, [idsToWords] gives back
    any list of words of the corpus from the list of their identifiers;
    after a load into an empty store it fails as soon as one identifier
    is that of no word of the corpus. *)
Theorem X9_idsToWords_after_load omitPartial raw (m : gmap string string) (w : World) :
  db_open w = true → db_data w = apply_batch (corpus_ops omitPartial raw) m →
  (NoDup (id <$> words raw) →
   ∀ ws, Forall (λ wd, wd ∈ words raw) ws →
         (idsToWords (id <$> ws) w).1 = Return ws) ∧
  (m = ∅ → ∀ idxs i, i ∈ idxs → (∀ wd, wd ∈ words raw → id wd ≠ i) →
           ∃ e, (idsToWords idxs w).1 = Throw e).
Proof.
  intros Hopen Hdata. split.
  - intros Hnd ws Hws.
    destruct (idsToWords_spec (id <$> ws) w Hopen) as (_ & _ & _ & Hr).
    apply Hr. apply Forall2_fmap_l, Forall_Forall2_diag.
    eapply Forall_impl; [exact Hws|]. intros wd Hwd. simpl.
    rewrite Hdata. by apply loaded_resolves.
  - intros -> idxs i Hi Hnone.
    destruct (idsToWords_spec idxs w Hopen) as (_ & _ & Hexit & Hr).
    destruct (idsToWords idxs w).1 as [ws|e|c] eqn:Hres; [exfalso|by exists e|by destruct (Hexit c)].
    pose proof (proj1 (Hr ws) eq_refl) as Hall.
    apply list_elem_of_lookup in Hi as [n Hn].
    destruct (Forall2_lookup_l _ _ _ _ _ Hall Hn) as (wd & _ & x & Hx & _).
    rewrite Hdata in Hx.
    apply apply_batch_lookup_inv in Hx as [Hx|Hx]; [done| |apply corpus_ops_puts].
    apply corpus_ops_record_value in Hx as (wd' & Hwd' & Hid & _).
    by apply (Hnone wd').
Qed.

(** X10: a limit of at least 0 cuts the result of the search without
    limit after that many records, and changes nothing else. *)
Theorem X10_limit_takes_a_prefix (w : World) (q : string) (unlimited limit : Z)
    (all : list Word) :
  db_open w = true → (unlimited < 0)%Z → (0 ≤ limit)%Z →
  ((searchBeginning q unlimited w).1 = Return all →
   (searchBeginning q limit w).1 = Return (take (Z.to_nat limit) all)) ∧
  ((searchAnywhere q unlimited w).1 = Return all →
   (searchAnywhere q limit w).1 = Return (take (Z.to_nat limit) all)).
Proof.
  intros Hopen Hun Hlim. unfold searchBeginning, searchAnywhere.
  rewrite !search_spec by done.
  rewrite !scanned_beginning, !scanned_anywhere.
  rewrite !(take_limit_unlimited unlimited) by done.
  unfold take_limit. rewrite !decide_True by done.
  split; apply Forall2_take.
Qed.

Lemma in_range_above (gte : string) (c : ascii) (rest : string) :
  (239 < N_of_ascii c)%N →
  in_range gte (gte +:+ uFFFF) (gte +:+ String c rest) = false.
Proof.
  intros Hc. unfold in_range, String.leb, String.ltb.
  rewrite string_compare_app_l, string_compare_app.
  cbn [String.compare uFFFF andb].
  unfold Ascii.compare. change (N_of_ascii "239") with 239%N.
  by apply N.compare_gt_iff in Hc as ->.
Qed.

(** X24: the upper bound of a scan is the query followed by the three
    bytes EF BF BF.  After a load into an empty store, with plain
    identifiers, a prefix search does not return a word whose field goes
    on after the query with a byte above EF (the first byte of a
    character outside the basic plane), whatever the limit; the query
    is one that [partial/] and it do not start one with the other. *)
Theorem X24_prefix_search_misses_above_the_sentinel omitPartial raw (w : World)
    (wd : Word) (p : string) (c : ascii) (rest : string) (limit : Z)
    (ws : list Word) :
  loaded omitPartial raw w → plain_ids raw → wd ∈ words raw →
  traditional wd = p +:+ String c rest → (239 < N_of_ascii c)%N →
  ¬ prefix_related p "partial/" →
  (searchBeginning p limit w).1 = Return ws → wd ∉ ws.
Proof.
  intros Hl [Hnd Hplain] Hwd Hfield Hc Hq Hws Hin.
  destruct (search_result_origin omitPartial raw _ w ws wd Hl Hws Hin) as (k & Hk & _).
  pose proof Hk as [Hdata Hr]%elem_of_range_entries.
  apply scanned_beginning_key in Hk as [_ [rest' ->]].
  destruct Hl as [_ Hd]. rewrite Hd in Hdata.
  apply apply_batch_lookup_inv in Hdata as [Hop|Hop]; [done| |apply corpus_ops_puts].
  apply elem_of_corpus_ops in Hop as [Hop|(wd' & Hwd' & Hop)]; [keys; discriminate|].
  apply elem_of_word_ops in Hop as [Hop|[Hop|(_ & substr & Hs & Hop)]].
  - keys. discriminate.
  - assert (Hkey : "indexes/" +:+ p +:+ rest' = exact_key wd') by congruence.
    assert (Hid : id wd' = id wd) by congruence.
    assert (wd' = wd) as -> by exact (NoDup_fmap_eq id _ wd' wd Hnd Hwd' Hwd Hid).
    assert (Hkey' : exact_key wd
                    = ("indexes/" +:+ p) +:+ String c (rest +:+ "-" +:+ id wd)).
    { unfold exact_key. by rewrite Hfield, !string_app_assoc. }
    rewrite Hkey, Hkey' in Hr.
    change (in_range ("indexes/" +:+ p) (("indexes/" +:+ p) +:+ uFFFF)
              (("indexes/" +:+ p) +:+ String c (rest +:+ "-" +:+ id wd)) = true) in Hr.
    by rewrite in_range_above in Hr.
  - destruct Hq. apply (substring_key_related raw p rest').
    exists wd', substr. split; [done|]. split; [done|]. congruence.
Qed.

End AfterLoad.
(** ** Searches only read *)

Section ReadOnly.
Context {json : JSON}.

Lemma only_reads_refl (w : World) : only_reads w w.
Proof. repeat split. exists []. by rewrite app_nil_r. Qed.

Lemma only_reads_trans (w1 w2 w3 : World) :
  only_reads w1 w2 → only_reads w2 w3 → only_reads w1 w3.
Proof.
  intros (Hd1 & Ho1 & Hb1 & e1 & Ht1 & He1) (Hd2 & Ho2 & Hb2 & e2 & Ht2 & He2).
  split; [congruence|]. split; [congruence|]. split; [congruence|].
  exists (e1 ++ e2). rewrite Ht2, Ht1, app_assoc, Forall_app. done.
Qed.

Lemma get_only_reads (key : string) (w : World) :
  only_reads w (ClassicLevel.get key w).2.
Proof.
  unfold ClassicLevel.get.
  assert (Hlog : only_reads w (log (EvGet key) w)).
  { repeat split. exists [EvGet key]. split; [done|]. by repeat constructor. }
  destruct (db_open w); [destruct (db_data w !! key)|]; exact Hlog.
Qed.

Lemma idsToWords_only_reads (idxs : list string) (w : World) :
  only_reads w (idsToWords idxs w).2.
Proof.
  revert w. induction idxs as [|i idxs IH]; intros w; [apply only_reads_refl|].
  unfold idsToWords. cbn [mapM]. fold (idsToWords idxs).
  rewrite !bind_unfold.
  pose proof (get_only_reads (record_key i) w) as Hget.
  destruct (ClassicLevel.get (record_key i) w) as [[x|e|c] w1]; simpl in *;
    [|done..].
  destruct (JSON_parse_Word x) as [wd|]; simpl; [|done].
  rewrite bind_unfold. pose proof (IH w1) as Hrest.
  destruct (idsToWords idxs w1) as [[ws|e|c] w2]; simpl in *;
    by eapply only_reads_trans.
Qed.

(** X11: a search writes nothing: whatever it returns, the data of the
    store, the handle and the budget are as before, and the events it
    adds are one scan and gets. *)
Theorem X11_searches_only_read (w : World) (q : string) (limit : Z) :
  only_reads w (searchBeginning q limit w).2 ∧
  only_reads w (searchAnywhere q limit w).2 ∧
  (∀ idxs, only_reads w (idsToWords idxs w).2) ∧
  (∀ key, only_reads w (getField key w).2).
Proof.
  assert (Hsearch : ∀ stream,
    only_reads w ((ids ← drainStream stream; idsToWords ids) w).2).
  { intros stream. rewrite bind_unfold. unfold drainStream.
    set (w1 := log _ w).
    assert (H1 : only_reads w w1).
    { repeat split. eexists [_]. split; [done|]. by repeat constructor. }
    destruct (db_open w); [|done].
    pose proof (idsToWords_only_reads (scanned stream w).*2 w1) as H2.
    by eapply only_reads_trans. }
  split; [apply Hsearch|]. split; [apply Hsearch|].
  split; [intros idxs; apply idsToWords_only_reads|].
  intros key. apply get_only_reads.
Qed.

End ReadOnly.

(** ** Loading again, small loads, and what [verbose] changes *)

Section Reload.
Context {json : JSON}.

(** X12: a first [setup] issues batches that hold, put end to end, the
    operations of the corpus: the put of the version, then for each word,
    in the order of the corpus, the put of its record, the put of its
    exact-index entry and, unless [omitPartial], one put for each string
    the enumerator yields; the store ends up as the store before with
    these puts applied in this order. *)
Theorem X12_setup_writes_the_corpus_in_order fs dbpath filename verbose omitPartial
    w contents raw :
  db_data w !! "version" = None → db_budget w = None → filename ≠ "" →
  fs !! filename = Some contents → JSON_parse_Simplified contents = Some raw →
  ∃ evs,
    trace (setup fs dbpath filename verbose omitPartial w).2
    = trace w ++ [EvOpen dbpath; EvGet "version"; EvReadFile filename] ++ evs ∧
    concat (batches evs)
    = Put "raw/version" (version raw) ::
      (words raw ≫= λ wd,
         [Put ("raw/words/" +:+ id wd) (JSON_stringify wd);
          Put ("indexes/" +:+ traditional wd +:+ "-" +:+ id wd) (id wd)] ++
         (if omitPartial then []
          else (λ substr, Put ("indexes/partial/" +:+ substr +:+ "-" +:+ id wd) (id wd))
                 <$> allSubstrings (traditional wd))) ∧
    db_data (setup fs dbpath filename verbose omitPartial w).2
    = foldl apply_op (db_data w) (concat (batches evs)) ∧
    db_open (setup fs dbpath filename verbose omitPartial w).2 = true.
Proof.
  intros Hv Hb Hname Hfile Hparse.
  destruct (setup_loads fs dbpath filename verbose omitPartial w contents raw)
    as (w' & evs & -> & Ht & Hevs & Hd & Hopen & _); [done..|].
  simpl. exists evs.
  assert (Hcat : concat (batches evs) = written evs).
  { clear. induction evs as [|ev evs IH]; [done|].
    unfold batches, written in *. rewrite !bind_cons, concat_app, IH.
    destruct ev; simpl; by rewrite ?app_nil_r. }
  rewrite Hcat, Hevs. done.
Qed.

(** X13: loading the same corpus a second time leaves the data of the
    store as the first load left it. *)
Theorem X13_second_load_changes_no_data fs dbpath filename verbose omitPartial
    w contents raw :
  db_data w !! "version" = None → db_budget w = None → filename ≠ "" →
  fs !! filename = Some contents → JSON_parse_Simplified contents = Some raw →
  db_data (setup fs dbpath filename verbose omitPartial
             (setup fs dbpath filename verbose omitPartial w).2).2
  = db_data (setup fs dbpath filename verbose omitPartial w).2.
Proof.
  intros Hv Hb Hname Hfile Hparse.
  destruct (setup_loads fs dbpath filename verbose omitPartial w contents raw)
    as (w1 & evs1 & -> & _ & _ & Hd1 & _ & Hb1); [done..|].
  simpl.
  assert (Hv1 : db_data w1 !! "version" = None).
  { rewrite Hd1, apply_batch_lookup_other; [done|apply corpus_ops_puts|].
    intros v. apply corpus_ops_skip_probe. }
  destruct (setup_loads fs dbpath filename verbose omitPartial w1 contents raw)
    as (w2 & evs2 & -> & _ & _ & Hd2 & _); [done..|].
  simpl. rewrite Hd2, Hd1. apply apply_batch_idem, corpus_ops_puts.
Qed.

(** A load that fits the buffer never flushes inside the loop. *)
Lemma load_entries_small {E} (entry_ops : E → list BatchOp) verbose n es batch w :
  (Z.of_nat (length (batch ++ (es ≫= entry_ops))) ≤ maxBatches)%Z →
  load_entries entry_ops verbose n es batch w
  = (Return (batch ++ (es ≫= entry_ops)), w).
Proof.
  revert n batch. induction es as [|e es IH]; intros n batch Hlen.
  - simpl. by rewrite app_nil_r.
  - cbn [load_entries]. rewrite bind_unfold. unfold flush_full.
    rewrite bind_cons, !length_app in Hlen.
    rewrite decide_False by lia. simpl.
    rewrite IH by (rewrite !length_app; lia).
    by rewrite <- app_assoc.
Qed.

(** X14: a corpus of at most [maxBatches] operations is written by one
    batch, so the load is all or nothing: either the store takes every
    put and [setup] returns the version, or the store rejects the batch,
    no data changes, the handle is closed and the error is raised. *)
Theorem X14_small_corpus_is_one_batch fs dbpath filename verbose omitPartial
    w contents raw :
  db_data w !! "version" = None → filename ≠ "" →
  fs !! filename = Some contents → JSON_parse_Simplified contents = Some raw →
  (Z.of_nat (length (corpus_ops omitPartial raw)) ≤ maxBatches)%Z →
  let before := trace w ++ [EvOpen dbpath; EvGet "version"; EvReadFile filename;
                            EvBatch (corpus_ops omitPartial raw)] in
  setup fs dbpath filename verbose omitPartial w
  = match db_budget w with
    | Some 0 =>
        (Throw WriteFailed,
         {| db_data := db_data w; db_open := false; db_budget := Some 0;
            trace := before ++ [EvClose] |})
    | b =>
        (Return (version raw),
         {| db_data := apply_batch (corpus_ops omitPartial raw) (db_data w);
            db_open := true; db_budget := pred <$> b; trace := before |})
    end.
Proof.
  intros Hv Hname Hfile Hparse Hlen before. subst before.
  rewrite (setup_parsed _ _ _ _ _ _ _ _ Hv Hname Hfile Hparse).
  unfold load. rewrite bind_unfold.
  change ([Put (metadata_key "version") (version raw)])
    with ([Put (metadata_key "version") (version raw)] ++ []) at 1.
  rewrite load_entries_small; rewrite app_nil_r;
    change ([Put (metadata_key "version") (version raw)] ++
            (words raw ≫= word_ops omitPartial))
      with (corpus_ops omitPartial raw); [|done].
  rewrite decide_False by done.
  unfold ClassicLevel.batch, log. simpl.
  destruct (db_budget w) as [[|b]|]; simpl; by rewrite <- !app_assoc.
Qed.

(** The loop on a store that may reject a batch: what the store has
    taken is a prefix of the operations buffered and pushed so far. *)
Lemma load_entries_faulty {E} (entry_ops : E → list BatchOp) verbose n es batch w :
  db_open w = true →
  ∃ r w' taken,
    load_entries entry_ops verbose n es batch w = (r, w') ∧
    db_open w' = true ∧ db_data w' = apply_batch taken (db_data w) ∧
    match r with
    | Return batch' => taken ++ batch' = batch ++ (es ≫= entry_ops)
    | Throw e =>
        e = WriteFailed ∧
        ∃ rest, rest ≠ [] ∧ taken ++ rest = batch ++ (es ≫= entry_ops)
    | Exit _ => False
    end.
Proof.
  revert n batch w. induction es as [|e es IH]; intros n batch w Hopen.
  - exists (Return batch), w, []. simpl. by rewrite app_nil_r.
  - cbn [load_entries]. rewrite bind_unfold. unfold flush_full.
    case_decide as Hfull.
    + rewrite bind_unfold. unfold ClassicLevel.batch. rewrite Hopen.
      destruct (decide (db_budget w = Some 0)) as [Hb|Hb].
      * rewrite Hb. exists (Throw WriteFailed), (log (EvBatch batch) w), [].
        split; [done|]. split; [done|]. split; [done|]. split; [done|].
        exists (batch ++ (e :: es) ≫= entry_ops). split; [|done].
        destruct batch; [simpl in Hfull; unfold maxBatches in Hfull; lia|done].
      * set (w1 := {| db_data := apply_batch batch (db_data w); db_open := true;
                      db_budget := pred <$> db_budget w;
                      trace := trace (log (EvBatch batch) w) |}).
        set (w2 := if verbose
                   then log (EvConsoleLog (pretty n +:+ " entries written")) w1
                   else w1).
        destruct (IH (S n) ([] ++ entry_ops e) w2) as (r & w' & taken & Hrun & Ho & Hd & Hr).
        { unfold w2. by destruct verbose. }
        exists r, w', (batch ++ taken).
        split.
        { rewrite <- Hrun. unfold w2, w1.
          destruct (db_budget w) as [[|b]|]; [done|..]; by destruct verbose. }
        split; [done|]. split.
        { rewrite Hd, apply_batch_app. unfold w2. by destruct verbose. }
        rewrite bind_cons. destruct r as [b'|err|c]; [..|done].
        -- by rewrite <- app_assoc, Hr.
        -- destruct Hr as (-> & rest & Hrest & Heq). split; [done|].
           exists rest. split; [done|]. by rewrite <- app_assoc, Heq.
    + destruct (IH (S n) (batch ++ entry_ops e) w Hopen)
        as (r & w' & taken & Hrun & Ho & Hd & Hr).
      exists r, w', taken. rewrite bind_cons, app_assoc. done.
Qed.

(** X15: on a store that may reject batches the load is not atomic, but
    what the store holds after [setup] is the store before with a prefix
    of the corpus operations applied: the whole sequence when [setup]
    returns, a strictly shorter one, with the handle closed and the
    store's error raised, when it does not. *)
Theorem X15_failed_load_leaves_a_prefix fs dbpath filename verbose omitPartial
    w contents raw :
  db_data w !! "version" = None → filename ≠ "" →
  fs !! filename = Some contents → JSON_parse_Simplified contents = Some raw →
  ∃ taken rest,
    corpus_ops omitPartial raw = taken ++ rest ∧
    db_data (setup fs dbpath filename verbose omitPartial w).2
    = apply_batch taken (db_data w) ∧
    ((setup fs dbpath filename verbose omitPartial w).1 = Return (version raw) ∧
     rest = [] ∧
     db_open (setup fs dbpath filename verbose omitPartial w).2 = true
     ∨
     (setup fs dbpath filename verbose omitPartial w).1 = Throw WriteFailed ∧
     rest ≠ [] ∧
     db_open (setup fs dbpath filename verbose omitPartial w).2 = false).
Proof.
  intros Hv Hname Hfile Hparse.
  rewrite (setup_parsed _ _ _ _ _ _ _ _ Hv Hname Hfile Hparse).
  set (w0 := {| db_data := db_data w; db_open := true; db_budget := db_budget w;
                trace := trace w ++ [EvOpen dbpath; EvGet "version"; EvReadFile filename] |}).
  unfold load. rewrite bind_unfold.
  destruct (load_entries_faulty (word_ops omitPartial) verbose 0 (words raw)
              [Put (metadata_key "version") (version raw)] w0 eq_refl)
    as (r & w1 & taken & -> & Ho & Hd & Hr).
  change ([Put (metadata_key "version") (version raw)] ++
          (words raw ≫= word_ops omitPartial))
    with (corpus_ops omitPartial raw) in Hr.
  destruct r as [b|e|c]; [| |done].
  - case_decide as Hlen.
    + apply nil_length_inv in Hlen as ->. rewrite app_nil_r in Hr. subst taken.
      exists (corpus_ops omitPartial raw), []. rewrite app_nil_r. simpl.
      split; [done|]. split; [done|]. by left.
    + unfold ClassicLevel.batch. rewrite Ho.
      destruct (decide (db_budget w1 = Some 0)) as [Hb|Hb].
      * rewrite Hb. simpl. exists taken, b. split; [done|]. split; [done|].
        right. split; [done|]. split; [|done]. by intros ->.
      * exists (taken ++ b), []. rewrite app_nil_r. split; [done|].
        destruct (db_budget w1) as [[|?]|]; [done|..]; simpl;
          rewrite Hd, apply_batch_app; (split; [done|]); by left.
  - destruct Hr as (-> & rest & Hrest & Heq). simpl.
    exists taken, rest. split; [done|]. split; [done|]. by right.
Qed.

Lemma same_store_log (ev : Event) (w1 w2 : World) :
  same_store w1 w2 → same_store (log ev w1) (log ev w2).
Proof.
  intros (Hd & Ho & Hb & Ht). repeat split; [done..|]. simpl.
  unfold silent in *. by rewrite !filter_app, Ht.
Qed.

Lemma same_store_print (msg : string) (w1 w2 : World) :
  same_store w1 w2 → same_store (log (EvConsoleLog msg) w1) w2.
Proof.
  intros (Hd & Ho & Hb & Ht). repeat split; [done..|]. simpl.
  unfold silent in *. rewrite filter_app, Ht. apply app_nil_r.
Qed.

Lemma batch_same_store (ops : list BatchOp) (w1 w2 : World) :
  same_store w1 w2 →
  (ClassicLevel.batch ops w1).1 = (ClassicLevel.batch ops w2).1 ∧
  same_store (ClassicLevel.batch ops w1).2 (ClassicLevel.batch ops w2).2.
Proof.
  intros Hs. pose proof (same_store_log (EvBatch ops) _ _ Hs) as Hl.
  destruct Hs as (Hd & Ho & Hb & Ht).
  unfold ClassicLevel.batch. rewrite Ho, Hb, Hd.
  destruct (db_open w2); [|by split].
  destruct (db_budget w2) as [[|b]|]; [by split|..];
    (split; [done|]); destruct Hl as (_ & _ & _ & Hl); by repeat split.
Qed.

Lemma load_entries_verbose {E} (entry_ops : E → list BatchOp) n es batch w1 w2 :
  same_store w1 w2 →
  (load_entries entry_ops true n es batch w1).1
  = (load_entries entry_ops false n es batch w2).1 ∧
  same_store (load_entries entry_ops true n es batch w1).2
             (load_entries entry_ops false n es batch w2).2.
Proof.
  revert n batch w1 w2. induction es as [|e es IH]; intros n batch w1 w2 Hs; [done|].
  cbn [load_entries]. rewrite !bind_unfold. unfold flush_full.
  case_decide as Hfull; [|by apply IH].
  rewrite !bind_unfold.
  destruct (batch_same_store batch w1 w2 Hs) as [Hr Hs'].
  destruct (ClassicLevel.batch batch w1) as [r1 v1],
           (ClassicLevel.batch batch w2) as [r2 v2]. simpl in *. subst r2.
  destruct r1 as [[]|err|c]; [|done..].
  rewrite !bind_unfold. simpl. apply IH. by apply same_store_print.
Qed.

(** X16: [verbose] changes only what is printed: with it and without it
    [setup] has the same outcome and leaves the same data, the same
    handle state and the same events apart from the lines printed. *)
Theorem X16_verbose_only_prints fs dbpath filename omitPartial w :
  (setup fs dbpath filename true omitPartial w).1
  = (setup fs dbpath filename false omitPartial w).1 ∧
  same_store (setup fs dbpath filename true omitPartial w).2
             (setup fs dbpath filename false omitPartial w).2.
Proof.
  destruct (db_data w !! "version") as [v|] eqn:Hv.
  { erewrite !setup_found by done. by repeat split. }
  destruct (decide (filename = "")) as [->|Hname].
  { rewrite !setup_no_filename by done. by repeat split. }
  destruct (fs !! filename) as [contents|] eqn:Hfile.
  2:{ rewrite !setup_unreadable by done. by repeat split. }
  destruct (JSON_parse_Simplified contents) as [raw|] eqn:Hparse.
  2:{ erewrite !setup_unparsable by done. by repeat split. }
  rewrite !(setup_parsed _ _ _ _ _ _ _ _ Hv Hname Hfile Hparse).
  set (w0 := {| db_data := db_data w; db_open := true; db_budget := db_budget w;
                trace := trace w ++ [EvOpen dbpath; EvGet "version"; EvReadFile filename] |}).
  assert (Hload : (load raw true omitPartial w0).1 = (load raw false omitPartial w0).1 ∧
                  same_store (load raw true omitPartial w0).2
                             (load raw false omitPartial w0).2).
  { unfold load. rewrite !bind_unfold.
    destruct (load_entries_verbose (word_ops omitPartial) 0 (words raw)
                [Put (metadata_key "version") (version raw)] w0 w0) as [Hr Hs];
      [by repeat split|].
    destruct (load_entries _ true _ _ _ w0) as [r1 v1],
             (load_entries _ false _ _ _ w0) as [r2 v2]. simpl in *. subst r2.
    destruct r1 as [b|err|c]; [|done..].
    case_decide; [done|]. by apply batch_same_store. }
  destruct (load raw true omitPartial w0) as [r1 v1],
           (load raw false omitPartial w0) as [r2 v2]. simpl in *.
  destruct Hload as [-> Hs]. destruct r2 as [[]|err|c]; [done| |done].
  split; [done|]. simpl. destruct Hs as (Hd & Ho & Hb & Ht).
  repeat split; [done..|]. simpl. unfold silent in *. by rewrite !filter_app, Ht.
Qed.

Lemma batches_app (e1 e2 : list Event) : batches (e1 ++ e2) = batches e1 ++ batches e2.
Proof. unfold batches. apply bind_app. Qed.

(** The loop issues only batches of more than [maxBatches] operations;
    when an entry pushes at most [K] operations, no batch and no buffer
    holds more than [maxBatches + K]. *)
Lemma load_entries_batches {E} (entry_ops : E → list BatchOp) (K : nat)
    verbose n es batch w :
  (∀ e, e ∈ es → (length (entry_ops e) ≤ K)%nat) →
  (Z.of_nat (length batch) ≤ maxBatches + Z.of_nat K)%Z →
  ∃ evs, trace (load_entries entry_ops verbose n es batch w).2 = trace w ++ evs ∧
    Forall (λ ops, maxBatches < Z.of_nat (length ops) ≤ maxBatches + Z.of_nat K)%Z
           (batches evs) ∧
    ((∀ b, (load_entries entry_ops verbose n es batch w).1 ≠ Return b) ∨
     ∃ b, (load_entries entry_ops verbose n es batch w).1 = Return b ∧
          (Z.of_nat (length b) ≤ maxBatches + Z.of_nat K)%Z).
Proof.
  revert n batch w. induction es as [|e es IH]; intros n batch w HK Hlen.
  - exists []. simpl. rewrite app_nil_r. split; [done|]. split; [constructor|].
    right. by exists batch.
  - assert (He : (length (entry_ops e) ≤ K)%nat) by (apply HK; left).
    assert (HK' : ∀ e', e' ∈ es → (length (entry_ops e') ≤ K)%nat)
      by (intros e' He'; apply HK; by right).
    cbn [load_entries]. rewrite bind_unfold. unfold flush_full.
    case_decide as Hfull.
    + rewrite bind_unfold.
      destruct (batch_cases batch w) as (r & w1 & -> & Ht1 & _ & _).
      destruct r as [[]|err|c];
        [|exists [EvBatch batch]; simpl; split; [done|]; split;
          [by repeat constructor|left; by intros ?]..].
      set (w2 := if verbose
                 then log (EvConsoleLog (pretty n +:+ " entries written")) w1
                 else w1).
      assert (Ht2 : ∃ pr, trace w2 = trace w ++ [EvBatch batch] ++ pr ∧ batches pr = []).
      { unfold w2. destruct verbose; simpl.
        - eexists [_]. by rewrite Ht1, <- app_assoc.
        - exists []. by rewrite Ht1. }
      destruct Ht2 as (pr & Ht2 & Hpr).
      assert (Hrun : ((if verbose
                       then console_log (pretty n +:+ " entries written")
                       else mret ()) ≫= λ _, mret ([] : list BatchOp)) w1
                     = (Return [], w2)).
      { unfold w2. by destruct verbose. }
      rewrite Hrun.
      destruct (IH (S n) ([] ++ entry_ops e) w2 HK') as (evs & Ht & Hall & Hret).
      { simpl. unfold maxBatches. lia. }
      exists ([EvBatch batch] ++ pr ++ evs). split.
      { rewrite Ht, Ht2, <- !app_assoc. done. }
      split; [|done].
      rewrite !batches_app, Hpr. simpl. constructor; [lia|done].
    + simpl. destruct (IH (S n) (batch ++ entry_ops e) w HK') as (evs & Ht & Hall & Hret).
      { rewrite length_app. lia. }
      by exists evs.
Qed.

(** X17: [maxBatches] is a threshold, not a cap.  Every batch [setup]
    issues but the last holds more than [maxBatches] operations; no batch
    is empty, and when no word pushes more than [K] operations no batch
    holds more than [maxBatches + K]. *)
Theorem X17_batch_sizes fs dbpath filename verbose omitPartial w contents raw
    (K : nat) :
  db_data w !! "version" = None → filename ≠ "" →
  fs !! filename = Some contents → JSON_parse_Simplified contents = Some raw →
  (∀ wd, wd ∈ words raw → (length (word_ops omitPartial wd) ≤ K)%nat) →
  ∃ evs early,
    trace (setup fs dbpath filename verbose omitPartial w).2
    = trace w ++ [EvOpen dbpath; EvGet "version"; EvReadFile filename] ++ evs ∧
    (batches evs = early ∨ ∃ final, batches evs = early ++ [final]) ∧
    Forall (λ ops, maxBatches < Z.of_nat (length ops))%Z early ∧
    Forall (λ ops, 0 < Z.of_nat (length ops) ≤ maxBatches + Z.of_nat K)%Z
           (batches evs).
Proof.
  intros Hv Hname Hfile Hparse HK.
  rewrite (setup_parsed _ _ _ _ _ _ _ _ Hv Hname Hfile Hparse).
  set (w0 := {| db_data := db_data w; db_open := true; db_budget := db_budget w;
                trace := trace w ++ [EvOpen dbpath; EvGet "version"; EvReadFile filename] |}).
  assert (Hload : ∃ evs early,
    trace (load raw verbose omitPartial w0).2 = trace w0 ++ evs ∧
    (batches evs = early ∨ ∃ final, batches evs = early ++ [final]) ∧
    Forall (λ ops, maxBatches < Z.of_nat (length ops))%Z early ∧
    Forall (λ ops, 0 < Z.of_nat (length ops) ≤ maxBatches + Z.of_nat K)%Z
           (batches evs)).
  { unfold load. rewrite bind_unfold.
    destruct (load_entries_batches (word_ops omitPartial) K verbose 0 (words raw)
                [Put (metadata_key "version") (version raw)] w0 HK)
      as (evs & Ht & Hall & Hret).
    { simpl. unfold maxBatches. lia. }
    assert (Hweak : Forall (λ ops, 0 < Z.of_nat (length ops) ≤ maxBatches + Z.of_nat K)%Z
                           (batches evs)).
    { eapply Forall_impl; [exact Hall|]. unfold maxBatches. simpl. lia. }
    assert (Hearly : Forall (λ ops, maxBatches < Z.of_nat (length ops))%Z (batches evs)).
    { eapply Forall_impl; [exact Hall|]. simpl. lia. }
    destruct (load_entries _ _ _ _ _ w0) as [[b|err|c] w1]; simpl in *;
      [|by exists evs, (batches evs); eauto..].
    destruct Hret as [Hret|(b' & [= <-] & Hb)]; [by destruct (Hret b)|].
    case_decide as Hlen; [by exists evs, (batches evs); eauto|].
    destruct (batch_cases b w1) as (r & w2 & -> & Ht2 & _). simpl.
    exists (evs ++ [EvBatch b]), (batches evs).
    rewrite Ht2, Ht, <- app_assoc, batches_app. split; [done|].
    split; [right; by exists b|]. split; [done|].
    apply Forall_app. split; [done|]. repeat constructor; lia. }
  destruct Hload as (evs & early & Ht & Hsplit & Hearly & Hall).
  destruct (load raw verbose omitPartial w0) as [[[]|err|c] w1]; simpl in *.
  - exists evs, early. by rewrite Ht, <- app_assoc.
  - exists (evs ++ [EvClose]), early. rewrite Ht, <- !app_assoc, batches_app.
    simpl. rewrite app_nil_r. done.
  - exists evs, early. by rewrite Ht, <- app_assoc.
Qed.

End Reload.

(** ** The revision: what the load writes *)

Section TsWrites.
Context {json : IndexTs.JSON}.

(** The buffer the loop hands back is not empty when it did not start
    empty and every entry pushes something. *)
Lemma load_entries_buffer {E} (entry_ops : E → list BatchOp) verbose n es batch w b w' :
  (∀ e, entry_ops e ≠ []) → batch ≠ [] →
  load_entries entry_ops verbose n es batch w = (Return b, w') → b ≠ [].
Proof.
  intros Hops. revert n batch w. induction es as [|e es IH]; intros n batch w Hb.
  - by intros [= <- _].
  - cbn [load_entries]. rewrite bind_unfold.
    destruct (flush_full verbose n batch w) as [[b1|err|c] w1]; [|done..].
    apply IH. intros [_ He]%app_eq_nil. by apply (Hops e).
Qed.

Lemma ts_word_phase_puts omitPartial raw : Forall is_put (ts_word_phase omitPartial raw).
Proof.
  constructor; [done|]. apply Forall_forall.
  intros op (e & Hop & _)%list_elem_of_bind.
  apply skips_probe_put.
  exact (proj1 (Forall_forall _ _) (ts_word_ops_skip omitPartial e) op Hop).
Qed.

Lemma ts_character_phase_puts raw : Forall is_put (ts_character_phase raw).
Proof.
  apply Forall_forall. intros op (e & Hop & _)%list_elem_of_bind.
  apply skips_probe_put.
  exact (proj1 (Forall_forall _ _) (ts_character_ops_skip e) op Hop).
Qed.

(** The revised load on a store that accepts every batch: the buffer
    left by the loop over the words is written out and kept, so its
    operations are written a second time. *)
Lemma ts_load_wrote raw verbose omitPartial w :
  healthy w →
  ∃ w' again,
    IndexTs.load raw verbose omitPartial w = (Return (), w') ∧
    again ≠ [] ∧ again `suffix_of` ts_word_phase omitPartial raw ∧
    wrote w w' (ts_word_phase omitPartial raw ++ again ++ ts_character_phase raw).
Proof.
  intros Hw. unfold IndexTs.load. rewrite bind_unfold.
  destruct (load_entries_healthy (IndexTs.word_ops omitPartial) verbose 0
              (IndexTs.words raw)
              [Put ("raw/" +:+ "version") (IndexTs.version raw)] w Hw)
    as (b1 & w1 & o1 & Hrun & Hw1 & Hb1).
  assert (Hne : b1 ≠ []).
  { refine (load_entries_buffer _ _ _ _ _ _ _ _ _ _ Hrun); [|done].
    intros e He. unfold IndexTs.word_ops in He. simpl in He. discriminate. }
  rewrite Hrun. clear Hrun.
  change ([Put ("raw/" +:+ "version") (IndexTs.version raw)] ++
          (IndexTs.words raw ≫= IndexTs.word_ops omitPartial))
    with (ts_word_phase omitPartial raw) in Hb1.
  pose proof (wrote_healthy _ _ _ Hw1) as Hh1.
  rewrite bind_unfold. rewrite decide_False by (by destruct b1).
  destruct (batch_wrote b1 w1 Hh1) as (w2 & -> & Hw2).
  pose proof (wrote_healthy _ _ _ Hw2) as Hh2.
  rewrite bind_unfold.
  destruct (load_entries_healthy IndexTs.character_ops verbose 0
              (IndexTs.characters raw) b1 w2 Hh2)
    as (b2 & w3 & o3 & -> & Hw3 & Hb2).
  fold (ts_character_phase raw) in Hb2.
  pose proof (wrote_healthy _ _ _ Hw3) as Hh3.
  assert (∃ w4, (if decide (length b2 = 0) then mret () else ClassicLevel.batch b2) w3
                = (Return (), w4) ∧ wrote w3 w4 b2) as (w4 & -> & Hw4).
  { case_decide as Hlen.
    - apply nil_length_inv in Hlen as ->. exists w3. split; [done|].
      by apply wrote_nothing.
    - by apply batch_wrote. }
  exists w4, b1. split; [done|]. split; [done|]. split; [by exists o1|].
  pose proof (wrote_trans _ _ _ _ _ (wrote_trans _ _ _ _ _
                (wrote_trans _ _ _ _ _ Hw1 Hw2) Hw3) Hw4) as Hall.
  by rewrite <- !app_assoc, Hb2, app_assoc, Hb1 in Hall.
Qed.

(** X18: in the revision the buffer is not emptied after the write that
    follows the loop over the words.  A first [setup] therefore writes
    the last batch of the word phase twice: what it writes is the word
    phase, then a non-empty tail of the word phase again, then the
    character phase.  The data are those of writing each phase once. *)
Theorem X18_ts_last_word_batch_written_twice fs dbpath filename verbose omitPartial
    w contents raw :
  db_data w !! "version" = None → db_budget w = None → filename ≠ "" →
  fs !! filename = Some contents → IndexTs.JSON_parse contents = Some raw →
  ∃ evs again,
    trace (IndexTs.setup fs dbpath filename verbose omitPartial w).2
    = trace w ++ [EvOpen dbpath; EvGet "version"; EvReadFile filename] ++ evs ∧
    again ≠ [] ∧ again `suffix_of` ts_word_phase omitPartial raw ∧
    written evs = ts_word_phase omitPartial raw ++ again ++ ts_character_phase raw ∧
    db_data (IndexTs.setup fs dbpath filename verbose omitPartial w).2
    = apply_batch (ts_word_phase omitPartial raw ++ ts_character_phase raw) (db_data w).
Proof.
  intros Hv Hb Hname Hfile Hparse.
  rewrite (ts_setup_parsed _ _ _ _ _ _ _ _ Hv Hname Hfile Hparse).
  edestruct (ts_load_wrote raw verbose omitPartial)
    as (w' & again & -> & Hne & Hsuf & evs & Ht & Hevs & Hd & _); [by split|].
  cbn [fst snd trace] in *. exists evs, again.
  split; [by rewrite Ht, <- app_assoc|]. split; [done|]. split; [done|]. split; [done|].
  rewrite Hd. cbn [db_data]. destruct Hsuf as [pre Hpre].
  rewrite !apply_batch_app. f_equal. rewrite Hpre, apply_batch_app.
  apply apply_batch_idem.
  pose proof (ts_word_phase_puts omitPartial raw) as Hputs.
  rewrite Hpre in Hputs. by apply Forall_app in Hputs as [_ ?].
Qed.

End TsWrites.

(** ** The revision: resolving identifiers and searching *)

Section Fetch.
Context {A : Type} (key : string → string) (rd : string → option A).

Lemma fetches_fun m i (a b : A) : fetches key rd m i a → fetches key rd m i b → a = b.
Proof. intros (x & Hx & Hp) (y & Hy & Hq). congruence. Qed.

(** [Promise.all(idxs.map(i => db.get(key i).then(JSON.parse)))]
    returns the documents of its identifiers, one for one and in their
    order, when all of them are there and read. *)
Lemma fetch_all_spec (idxs : list string) (w : World) (rs : list A) :
  db_open w = true →
  (mapM (λ i, x ← ClassicLevel.get (key i);
              match rd x with
              | Some a => mret a
              | None => throw SyntaxError
              end) idxs w).1 = Return rs ↔
  Forall2 (fetches key rd (db_data w)) idxs rs.
Proof.
  revert w rs. induction idxs as [|i idxs IH]; intros w rs Hopen.
  - simpl. split.
    + intros [= <-]. constructor.
    + by intros ->%Forall2_nil_inv_l.
  - cbn [mapM]. rewrite !bind_unfold. unfold ClassicLevel.get. rewrite Hopen.
    destruct (db_data w !! key i) as [x|] eqn:Hx; simpl.
    2:{ split; [done|].
        intros (a & rs' & (y & Hy & _) & _ & _)%Forall2_cons_inv_l. congruence. }
    destruct (rd x) as [a|] eqn:Hp; simpl.
    2:{ split; [done|].
        intros (a & rs' & (y & Hy & Hq) & _ & _)%Forall2_cons_inv_l. congruence. }
    rewrite bind_unfold.
    pose proof (λ rs', IH (log (EvGet (key i)) w) rs' Hopen) as Hr.
    destruct (mapM (M:=Eff) _ idxs (log (EvGet (key i)) w)) as [[rs'|e|c] w'];
      simpl in *.
    + split.
      * intros [= <-]. constructor; [by exists x|]. by apply Hr.
      * intros (a' & rs'' & Ha & Hall & ->)%Forall2_cons_inv_l.
        rewrite (fetches_fun _ _ a' a Ha) by (by exists x).
        apply Hr in Hall. by injection Hall as ->.
    + split; [done|].
      intros (a' & rs'' & _ & Hall & _)%Forall2_cons_inv_l. by apply Hr in Hall.
    + split; [done|].
      intros (a' & rs'' & _ & Hall & _)%Forall2_cons_inv_l. by apply Hr in Hall.
Qed.

(** Draining a stream and resolving what it yields. *)
Lemma drain_fetch_spec (stream : ValueStream) (w : World) (rs : list A) :
  db_open w = true →
  ((ids ← drainStream stream;
    mapM (λ i, x ← ClassicLevel.get (key i);
               match rd x with
               | Some a => mret a
               | None => throw SyntaxError
               end) ids) w).1 = Return rs ↔
  Forall2 (λ kv a, fetches key rd (db_data w) kv.2 a) (scanned stream w) rs.
Proof.
  intros Hopen. rewrite bind_unfold. unfold drainStream. rewrite Hopen.
  set (w1 := log _ w).
  rewrite (fetch_all_spec (scanned stream w).*2 w1 rs Hopen).
  change (db_data w1) with (db_data w). by rewrite Forall2_fmap_l.
Qed.

Lemma drain_fetch_returns (stream : ValueStream) (w : World) :
  db_open w = true →
  (∀ k v, (k, v) ∈ scanned stream w → ∃ a, fetches key rd (db_data w) v a) →
  ∃ rs, Forall2 (λ kv a, fetches key rd (db_data w) kv.2 a) (scanned stream w) rs.
Proof.
  intros Hopen Hall.
  induction (scanned stream w) as [|[k v] l IH]; [by exists []|].
  destruct IH as [rs Hrs]. { intros k' v' Hin. apply (Hall k' v'). by right. }
  destruct (Hall k v) as [a Ha]; [left|].
  exists (a :: rs). by constructor.
Qed.

(** An entry of the range, on an unlimited scan, puts its document in
    the result. *)
Lemma drain_fetch_includes (stream : ValueStream) (w : World) (rs : list A)
    (k v : string) (a : A) :
  (opt_limit stream < 0)%Z →
  db_data w !! k = Some v → in_range (opt_gte stream) (opt_lt stream) k = true →
  fetches key rd (db_data w) v a →
  Forall2 (λ kv a, fetches key rd (db_data w) kv.2 a) (scanned stream w) rs →
  a ∈ rs.
Proof.
  intros Hlim Hk Hr Hres Hrs.
  assert (Hin : (k, v) ∈ scanned stream w).
  { unfold scanned. by apply elem_of_range_entries_unlimited. }
  apply list_elem_of_lookup in Hin as [i Hi].
  destruct (Forall2_lookup_l _ _ _ _ _ Hrs Hi) as (a' & Ha' & Hres').
  rewrite (fetches_fun _ _ a a' Hres Hres').
  by eapply list_elem_of_lookup_2.
Qed.

End Fetch.

Section TsSearch.
Context {json : IndexTs.JSON} {parse : IndexTsSearch.Parse}.

Lemma ts_elem_of_word_ops omitPartial (wd : IndexTs.Word.t) (op : BatchOp) :
  op ∈ IndexTs.word_ops omitPartial wd →
  op = Put ("raw/words/" +:+ IndexTs.Word.id wd) (IndexTs.JSON_stringify_Word wd) ∨
  ∃ x, op = Put ("indexes/" +:+ x +:+ "-" +:+ IndexTs.Word.id wd) (IndexTs.Word.id wd).
Proof.
  unfold IndexTs.word_ops. rewrite elem_of_app, !elem_of_cons, elem_of_nil.
  intros [[->|[->|[->|[]]]]|Hop]; [by left|right; eauto..|].
  right. destruct omitPartial; [by apply elem_of_nil in Hop|].
  apply elem_of_app in Hop as [Hop|Hop];
    apply list_elem_of_fmap in Hop as (substr & -> & _);
    exists ("partial/" +:+ substr); by rewrite string_app_assoc.
Qed.

Lemma ts_elem_of_phases omitPartial raw (op : BatchOp) :
  op ∈ ts_word_phase omitPartial raw ++ ts_character_phase raw ↔
  op = Put ("raw/" +:+ "version") (IndexTs.version raw) ∨
  (∃ wd, wd ∈ IndexTs.words raw ∧ op ∈ IndexTs.word_ops omitPartial wd) ∨
  (∃ c, c ∈ IndexTs.characters raw ∧ op ∈ IndexTs.character_ops c).
Proof.
  unfold ts_word_phase, ts_character_phase.
  rewrite elem_of_app, elem_of_cons, !list_elem_of_bind.
  split.
  - intros [[->|(wd & ? & ?)]|(c & ? & ?)]; eauto.
  - intros [->|[(wd & ? & ?)|(c & ? & ?)]]; eauto.
Qed.

Lemma ts_phases_puts omitPartial raw :
  Forall is_put (ts_word_phase omitPartial raw ++ ts_character_phase raw).
Proof.
  apply Forall_app. split; [apply ts_word_phase_puts|apply ts_character_phase_puts].
Qed.

Lemma ts_setup_loaded fs dbpath filename verbose omitPartial w contents raw :
  db_data w = ∅ → db_budget w = None → filename ≠ "" →
  fs !! filename = Some contents → IndexTs.JSON_parse contents = Some raw →
  (IndexTs.setup fs dbpath filename verbose omitPartial w).1
  = Return (IndexTs.version raw) ∧
  ts_loaded omitPartial raw (IndexTs.setup fs dbpath filename verbose omitPartial w).2.
Proof.
  intros Hempty Hb Hname Hfile Hparse.
  assert (Hv : db_data w !! "version" = None) by (by rewrite Hempty).
  rewrite (ts_setup_parsed _ _ _ _ _ _ _ _ Hv Hname Hfile Hparse).
  edestruct (ts_load_wrote raw verbose omitPartial)
    as (w' & again & -> & Hne & [pre Hpre] & evs & Ht & Hevs & Hd & Hopen & _);
    [by split|].
  cbn [fst snd db_data] in *. split; [done|]. split; [done|].
  rewrite Hd, Hempty, !apply_batch_app. f_equal.
  rewrite Hpre, apply_batch_app. apply apply_batch_idem.
  pose proof (ts_word_phase_puts omitPartial raw) as Hputs.
  rewrite Hpre in Hputs. by apply Forall_app in Hputs as [_ ?].
Qed.

(** What the load writes under a record key of a character, under a
    character-index key, under a record key of a word and under a word-
    index key. *)
Lemma ts_character_record_put omitPartial raw (i x : string) :
  Put ("raw/char/" +:+ i) x ∈ ts_word_phase omitPartial raw ++ ts_character_phase raw →
  ∃ c, c ∈ IndexTs.characters raw ∧ IndexTs.Character.id c = i ∧
       x = IndexTs.JSON_stringify_Character c.
Proof.
  intros [Hop|[(wd & _ & Hop)|(c & Hc & Hop)]]%ts_elem_of_phases.
  - keys. discriminate.
  - apply ts_elem_of_word_ops in Hop as [Hop|[y Hop]]; keys; discriminate.
  - unfold IndexTs.character_ops in Hop.
    rewrite !elem_of_cons, elem_of_nil in Hop.
    destruct Hop as [Hop|[Hop|[]]]; [|keys; discriminate].
    exists c. split; [done|].
    assert (Hk : "raw/char/" +:+ i = "raw/char/" +:+ IndexTs.Character.id c)
      by congruence.
    apply (inj (String.append "raw/char/")) in Hk. split; congruence.
Qed.

Lemma ts_character_index_put omitPartial raw (y v : string) :
  Put ("indexchar/" +:+ y) v ∈ ts_word_phase omitPartial raw ++ ts_character_phase raw →
  ∃ c, c ∈ IndexTs.characters raw ∧ v = IndexTs.Character.id c ∧
       y = IndexTs.Character.content c +:+ "-" +:+ IndexTs.Character.id c.
Proof.
  intros [Hop|[(wd & _ & Hop)|(c & Hc & Hop)]]%ts_elem_of_phases.
  - keys. discriminate.
  - apply ts_elem_of_word_ops in Hop as [Hop|[x Hop]]; keys; discriminate.
  - unfold IndexTs.character_ops in Hop.
    rewrite !elem_of_cons, elem_of_nil in Hop.
    destruct Hop as [Hop|[Hop|[]]]; [keys; discriminate|].
    exists c. split; [done|].
    assert (Hk : "indexchar/" +:+ y
                 = "indexchar/" +:+ IndexTs.Character.content c +:+ "-" +:+
                   IndexTs.Character.id c) by congruence.
    apply (inj (String.append "indexchar/")) in Hk. split; congruence.
Qed.

Lemma ts_word_record_put omitPartial raw (i x : string) :
  Put ("raw/words/" +:+ i) x ∈ ts_word_phase omitPartial raw ++ ts_character_phase raw →
  ∃ wd, wd ∈ IndexTs.words raw ∧ IndexTs.Word.id wd = i ∧
        x = IndexTs.JSON_stringify_Word wd.
Proof.
  intros [Hop|[(wd & Hwd & Hop)|(c & _ & Hop)]]%ts_elem_of_phases.
  - keys. discriminate.
  - apply ts_elem_of_word_ops in Hop as [Hop|[y Hop]]; [|keys; discriminate].
    exists wd. split; [done|].
    assert (Hk : "raw/words/" +:+ i = "raw/words/" +:+ IndexTs.Word.id wd)
      by congruence.
    apply (inj (String.append "raw/words/")) in Hk. split; congruence.
  - unfold IndexTs.character_ops in Hop.
    rewrite !elem_of_cons, elem_of_nil in Hop.
    destruct Hop as [Hop|[Hop|[]]]; keys; discriminate.
Qed.

Lemma ts_word_index_put omitPartial raw (y v : string) :
  Put ("indexes/" +:+ y) v ∈ ts_word_phase omitPartial raw ++ ts_character_phase raw →
  ∃ wd x, wd ∈ IndexTs.words raw ∧ v = IndexTs.Word.id wd ∧
          y = x +:+ "-" +:+ IndexTs.Word.id wd.
Proof.
  intros [Hop|[(wd & Hwd & Hop)|(c & _ & Hop)]]%ts_elem_of_phases.
  - keys. discriminate.
  - apply ts_elem_of_word_ops in Hop as [Hop|[x Hop]]; [keys; discriminate|].
    exists wd, x. split; [done|].
    assert (Hk : "indexes/" +:+ y = "indexes/" +:+ x +:+ "-" +:+ IndexTs.Word.id wd)
      by congruence.
    apply (inj (String.append "indexes/")) in Hk. split; congruence.
  - unfold IndexTs.character_ops in Hop.
    rewrite !elem_of_cons, elem_of_nil in Hop.
    destruct Hop as [Hop|[Hop|[]]]; keys; discriminate.
Qed.

Lemma ts_loaded_lookup omitPartial raw (w : World) (k v : string) :
  ts_loaded omitPartial raw w → db_data w !! k = Some v →
  Put k v ∈ ts_word_phase omitPartial raw ++ ts_character_phase raw.
Proof.
  intros [_ Hdata] Hk. rewrite Hdata in Hk.
  by apply apply_batch_lookup_inv in Hk as [Hk|Hk]; [|done|apply ts_phases_puts].
Qed.

(** Every identifier a character-index entry holds resolves to a
    character of the corpus with that identifier. *)
Lemma ts_loaded_character omitPartial raw (w : World) (c : IndexTs.Character.t) :
  ts_loaded omitPartial raw w → ts_round_trips raw → c ∈ IndexTs.characters raw →
  ∃ c', c' ∈ IndexTs.characters raw ∧
        IndexTs.Character.id c' = IndexTs.Character.id c ∧
        fetches (String.append "raw/char/") IndexTsSearch.JSON_parse_Character
                (db_data w) (IndexTs.Character.id c) c'.
Proof.
  intros Hl [_ Hrt] Hc.
  destruct (apply_batch_lookup_put
              (ts_word_phase omitPartial raw ++ ts_character_phase raw) ∅
              ("raw/char/" +:+ IndexTs.Character.id c)
              (IndexTs.JSON_stringify_Character c)) as [x Hx].
  { apply ts_phases_puts. }
  { apply ts_elem_of_phases. right. right. exists c. split; [done|]. left. }
  destruct Hl as [Hopen Hdata]. rewrite <- Hdata in Hx.
  destruct (ts_character_record_put omitPartial raw (IndexTs.Character.id c) x)
    as (c' & Hc' & Hid & ->).
  { apply (ts_loaded_lookup omitPartial raw w); [by split|done]. }
  exists c'. split; [done|]. split; [done|].
  exists (IndexTs.JSON_stringify_Character c'). split; [done|]. by apply Hrt.
Qed.

Lemma ts_loaded_word omitPartial raw (w : World) (wd : IndexTs.Word.t) :
  ts_loaded omitPartial raw w → ts_round_trips raw → wd ∈ IndexTs.words raw →
  ∃ wd', wd' ∈ IndexTs.words raw ∧
         IndexTs.Word.id wd' = IndexTs.Word.id wd ∧
         fetches (String.append "raw/words/") IndexTsSearch.JSON_parse_Word
                 (db_data w) (IndexTs.Word.id wd) wd'.
Proof.
  intros Hl [Hrt _] Hwd.
  destruct (apply_batch_lookup_put
              (ts_word_phase omitPartial raw ++ ts_character_phase raw) ∅
              ("raw/words/" +:+ IndexTs.Word.id wd)
              (IndexTs.JSON_stringify_Word wd)) as [x Hx].
  { apply ts_phases_puts. }
  { apply ts_elem_of_phases. right. left. exists wd. split; [done|]. left. }
  destruct Hl as [Hopen Hdata]. rewrite <- Hdata in Hx.
  destruct (ts_word_record_put omitPartial raw (IndexTs.Word.id wd) x)
    as (wd' & Hwd' & Hid & ->).
  { apply (ts_loaded_lookup omitPartial raw w); [by split|done]. }
  exists wd'. split; [done|]. split; [done|].
  exists (IndexTs.JSON_stringify_Word wd'). split; [done|]. by apply Hrt.
Qed.

(** X19: from a store the revised load has filled, [hanzi] returns, and
    returns characters of the corpus only: each shares its identifier
    with a character of the corpus whose [content], followed by ["-"]
    and the identifier, starts with the query. *)
Theorem X19_hanzi_returns_characters omitPartial raw (w : World)
    (q : string) (limit : option Z) :
  ts_loaded omitPartial raw w → ts_round_trips raw →
  ∃ cs, (IndexTsSearch.hanzi q limit w).1 = Return cs ∧
    ∀ c, c ∈ cs →
      c ∈ IndexTs.characters raw ∧
      ∃ c' rest, c' ∈ IndexTs.characters raw ∧
        IndexTs.Character.id c' = IndexTs.Character.id c ∧
        IndexTs.Character.content c' +:+ "-" +:+ IndexTs.Character.id c'
        = q +:+ rest.
Proof.
  intros Hl Hrt. pose proof Hl as [Hopen Hdata].
  set (stream := IndexTsSearch.character_stream q (default (-1)%Z limit)).
  assert (Hkeys : ∀ k v, (k, v) ∈ scanned stream w →
    ∃ c rest, c ∈ IndexTs.characters raw ∧ v = IndexTs.Character.id c ∧
      IndexTs.Character.content c +:+ "-" +:+ IndexTs.Character.id c = q +:+ rest).
  { intros k v [Hk Hr]%elem_of_range_entries.
    apply in_range_prefix in Hr as [rest ->].
    apply (ts_loaded_lookup omitPartial raw w _ _ Hl) in Hk.
    change (opt_gte stream) with ("indexchar/" +:+ q) in Hk.
    rewrite string_app_assoc in Hk.
    apply ts_character_index_put in Hk as (c & Hc & -> & Hy). by exists c, rest. }
  destruct (drain_fetch_returns (String.append "raw/char/")
              IndexTsSearch.JSON_parse_Character stream w Hopen) as [cs Hcs].
  { intros k v (c & rest & Hc & -> & _)%Hkeys.
    destruct (ts_loaded_character omitPartial raw w c Hl Hrt Hc) as (c' & _ & _ & ?).
    by exists c'. }
  exists cs. split.
  { by apply (drain_fetch_spec (String.append "raw/char/")
                IndexTsSearch.JSON_parse_Character stream w cs Hopen). }
  intros c [i Hi]%list_elem_of_lookup.
  destruct (Forall2_lookup_r _ _ _ _ _ Hcs Hi) as ([k v] & Hkv & Hf).
  apply list_elem_of_lookup_2 in Hkv.
  destruct (Hkeys k v Hkv) as (c1 & rest & Hc1 & -> & Hrest).
  destruct (ts_loaded_character omitPartial raw w c1 Hl Hrt Hc1) as (c2 & Hc2 & Hid & Hf2).
  cbn [snd] in Hf. rewrite (fetches_fun _ _ _ _ c c2 Hf Hf2).
  split; [done|]. exists c1, rest. by rewrite Hid.
Qed.

Lemma ts_loaded_character_entry omitPartial raw (w : World) (c : IndexTs.Character.t) :
  ts_loaded omitPartial raw w → plain_character_ids raw → c ∈ IndexTs.characters raw →
  db_data w !! ("indexchar/" +:+ IndexTs.Character.content c +:+ "-" +:+
                IndexTs.Character.id c)
  = Some (IndexTs.Character.id c).
Proof.
  intros [_ Hdata] [_ Hplain] Hc. rewrite Hdata.
  apply apply_batch_lookup_agree; [apply ts_phases_puts| |].
  - apply ts_elem_of_phases. right. right. exists c. split; [done|]. right. left.
  - intros v (c' & Hc' & -> & Hk)%ts_character_index_put.
    by destruct (hyphen_split _ _ _ _ Hk) as [_ ->]; auto.
Qed.

Lemma ts_loaded_character_exact omitPartial raw (w : World) (c : IndexTs.Character.t) :
  ts_loaded omitPartial raw w → ts_round_trips raw → plain_character_ids raw →
  c ∈ IndexTs.characters raw →
  fetches (String.append "raw/char/") IndexTsSearch.JSON_parse_Character
          (db_data w) (IndexTs.Character.id c) c.
Proof.
  intros Hl Hrt [Hnd _] Hc.
  destruct (ts_loaded_character omitPartial raw w c Hl Hrt Hc) as (c' & Hc' & Hid & Hf).
  assert (c' = c) as -> by exact (NoDup_fmap_eq IndexTs.Character.id _ c' c Hnd Hc' Hc Hid).
  done.
Qed.

Lemma ts_loaded_word_entry omitPartial raw (w : World) (wd : IndexTs.Word.t) (x : string) :
  ts_loaded omitPartial raw w → plain_word_ids raw → wd ∈ IndexTs.words raw →
  Put ("indexes/" +:+ x +:+ "-" +:+ IndexTs.Word.id wd) (IndexTs.Word.id wd)
    ∈ IndexTs.word_ops omitPartial wd →
  db_data w !! ("indexes/" +:+ x +:+ "-" +:+ IndexTs.Word.id wd)
  = Some (IndexTs.Word.id wd).
Proof.
  intros [_ Hdata] [_ Hplain] Hwd Hop. rewrite Hdata.
  apply apply_batch_lookup_agree; [apply ts_phases_puts| |].
  - apply ts_elem_of_phases. right. left. by exists wd.
  - intros v (wd' & x' & Hwd' & -> & Hk)%ts_word_index_put.
    by destruct (hyphen_split _ _ _ _ Hk) as [_ ->]; auto.
Qed.

Lemma ts_loaded_word_exact omitPartial raw (w : World) (wd : IndexTs.Word.t) :
  ts_loaded omitPartial raw w → ts_round_trips raw → plain_word_ids raw →
  wd ∈ IndexTs.words raw →
  fetches (String.append "raw/words/") IndexTsSearch.JSON_parse_Word
          (db_data w) (IndexTs.Word.id wd) wd.
Proof.
  intros Hl Hrt [Hnd _] Hwd.
  destruct (ts_loaded_word omitPartial raw w wd Hl Hrt Hwd) as (wd' & Hwd' & Hid & Hf).
  assert (wd' = wd) as -> by exact (NoDup_fmap_eq IndexTs.Word.id _ wd' wd Hnd Hwd' Hwd Hid).
  done.
Qed.

(** X20: from a store the revised load has filled, with plain character
    identifiers, [hanzi] without limit for the [content] of a character,
    or for a prefix of it that a unit below the sentinel follows,
    returns a list that holds the character. *)
Theorem X20_hanzi_finds_the_character omitPartial raw (w : World)
    (c : IndexTs.Character.t) (p rest : string) (limit : option Z) :
  ts_loaded omitPartial raw w → ts_round_trips raw → plain_character_ids raw →
  c ∈ IndexTs.characters raw → IndexTs.Character.content c = p +:+ rest →
  below_sentinel rest → (default (-1) limit < 0)%Z →
  ∃ cs, (IndexTsSearch.hanzi p limit w).1 = Return cs ∧ c ∈ cs.
Proof.
  intros Hl Hrt Hids Hc Hfield Hrest Hlim. pose proof Hl as [Hopen Hdata].
  set (stream := IndexTsSearch.character_stream p (default (-1)%Z limit)).
  destruct (drain_fetch_returns (String.append "raw/char/")
              IndexTsSearch.JSON_parse_Character stream w Hopen) as [cs Hcs].
  { intros k v [Hk Hr]%elem_of_range_entries.
    apply in_range_prefix in Hr as [rest' ->].
    apply (ts_loaded_lookup omitPartial raw w _ _ Hl) in Hk.
    change (opt_gte stream) with ("indexchar/" +:+ p) in Hk.
    rewrite string_app_assoc in Hk.
    apply ts_character_index_put in Hk as (c1 & Hc1 & -> & _).
    destruct (ts_loaded_character omitPartial raw w c1 Hl Hrt Hc1) as (c' & _ & _ & ?).
    by exists c'. }
  exists cs. split.
  { by apply (drain_fetch_spec (String.append "raw/char/")
                IndexTsSearch.JSON_parse_Character stream w cs Hopen). }
  apply (drain_fetch_includes (String.append "raw/char/")
           IndexTsSearch.JSON_parse_Character stream w cs
           ("indexchar/" +:+ IndexTs.Character.content c +:+ "-" +:+
            IndexTs.Character.id c)
           (IndexTs.Character.id c)); [done| | | |done].
  - by apply (ts_loaded_character_entry omitPartial raw).
  - change (in_range ("indexchar/" +:+ p) (("indexchar/" +:+ p) +:+ uFFFF)
              ("indexchar/" +:+ IndexTs.Character.content c +:+ "-" +:+
               IndexTs.Character.id c) = true).
    rewrite Hfield, (string_app_assoc p rest), <- (string_app_assoc "indexchar/" p).
    apply in_range_below. by apply below_sentinel_app.
  - by apply (ts_loaded_character_exact omitPartial raw).
Qed.

(** X23: from a store the revised load has filled, with plain
    character identifiers, [idsToChar] gives back any list of characters
    of the corpus from the list of their identifiers; it does not
    return as soon as one identifier is that of no character of the
    corpus. *)
Theorem X23_idsToChar_after_load omitPartial raw (w : World) :
  ts_loaded omitPartial raw w → ts_round_trips raw →
  (plain_character_ids raw →
   ∀ cs, Forall (λ c, c ∈ IndexTs.characters raw) cs →
         (IndexTsSearch.idsToChar (IndexTs.Character.id <$> cs) w).1 = Return cs) ∧
  (∀ idxs i, i ∈ idxs →
     (∀ c, c ∈ IndexTs.characters raw → IndexTs.Character.id c ≠ i) →
     ∀ cs, (IndexTsSearch.idsToChar idxs w).1 ≠ Return cs).
Proof.
  intros Hl Hrt. pose proof Hl as [Hopen Hdata]. split.
  - intros Hids cs Hcs.
    apply (fetch_all_spec (String.append "raw/char/")
             IndexTsSearch.JSON_parse_Character _ w cs Hopen).
    apply Forall2_fmap_l, Forall_Forall2_diag.
    eapply Forall_impl; [exact Hcs|]. intros c Hc. simpl.
    by apply (ts_loaded_character_exact omitPartial raw).
  - intros idxs i Hi Hnone cs Hret.
    apply (fetch_all_spec (String.append "raw/char/")
             IndexTsSearch.JSON_parse_Character idxs w cs Hopen) in Hret.
    apply list_elem_of_lookup in Hi as [n Hn].
    destruct (Forall2_lookup_l _ _ _ _ _ Hret Hn) as (c & _ & x & Hx & _).
    apply (ts_loaded_lookup omitPartial raw w _ _ Hl) in Hx.
    apply ts_character_record_put in Hx as (c' & Hc' & Hid & _).
    by apply (Hnone c').
Qed.

(** The values a word search scans resolve. *)
Lemma ts_word_scan_resolves omitPartial raw (w : World) (y v : string) :
  ts_loaded omitPartial raw w → ts_round_trips raw →
  db_data w !! ("indexes/" +:+ y) = Some v →
  ∃ wd, wd ∈ IndexTs.words raw ∧
        fetches (String.append "raw/words/") IndexTsSearch.JSON_parse_Word
                (db_data w) v wd.
Proof.
  intros Hl Hrt Hk.
  apply (ts_loaded_lookup omitPartial raw w _ _ Hl) in Hk.
  apply ts_word_index_put in Hk as (wd & x & Hwd & -> & _).
  destruct (ts_loaded_word omitPartial raw w wd Hl Hrt Hwd) as (wd' & Hwd' & _ & Hf).
  by exists wd'.
Qed.

Lemma ts_word_search_returns omitPartial raw (w : World) (stream : ValueStream) (y : string) :
  ts_loaded omitPartial raw w → ts_round_trips raw →
  opt_gte stream = "indexes/" +:+ y → opt_lt stream = opt_gte stream +:+ uFFFF →
  ∃ ws, ((ids ← drainStream stream; IndexTsSearch.idsToWords ids) w).1 = Return ws ∧
        Forall2 (λ kv wd, fetches (String.append "raw/words/")
                            IndexTsSearch.JSON_parse_Word (db_data w) kv.2 wd)
                (scanned stream w) ws ∧
        ∀ wd, wd ∈ ws → wd ∈ IndexTs.words raw.
Proof.
  intros Hl Hrt Hgte Hlt. pose proof Hl as [Hopen Hdata].
  assert (Hscan : ∀ k v, (k, v) ∈ scanned stream w →
    ∃ wd, wd ∈ IndexTs.words raw ∧
          fetches (String.append "raw/words/") IndexTsSearch.JSON_parse_Word
                  (db_data w) v wd).
  { intros k v [Hk Hr]%elem_of_range_entries.
    rewrite Hlt in Hr. apply in_range_prefix in Hr as [rest ->].
    rewrite Hgte, string_app_assoc in Hk.
    by apply (ts_word_scan_resolves omitPartial raw w (y +:+ rest) v). }
  destruct (drain_fetch_returns (String.append "raw/words/")
              IndexTsSearch.JSON_parse_Word stream w Hopen) as [ws Hws].
  { intros k v (wd & _ & Hf)%Hscan. by exists wd. }
  exists ws. split.
  { by apply (drain_fetch_spec (String.append "raw/words/")
                IndexTsSearch.JSON_parse_Word stream w ws Hopen). }
  split; [done|].
  intros wd [i Hi]%list_elem_of_lookup.
  destruct (Forall2_lookup_r _ _ _ _ _ Hws Hi) as ([k v] & Hkv & Hf).
  apply list_elem_of_lookup_2 in Hkv.
  destruct (Hscan k v Hkv) as (wd' & Hwd' & Hf').
  cbn [snd] in Hf. by rewrite (fetches_fun _ _ _ _ wd wd' Hf Hf').
Qed.

(** X21: the revision indexes two fields.  From a store the revised
    load has filled, with plain word identifiers, a prefix search
    without limit for the [content] or for the [simplified] field of a
    word, or for a prefix of either that a unit below the sentinel
    follows, returns a list that holds the word. *)
Theorem X21_ts_prefix_search_by_either_field omitPartial raw (w : World)
    (wd : IndexTs.Word.t) (p rest : string) (limit : option Z) :
  ts_loaded omitPartial raw w → ts_round_trips raw → plain_word_ids raw →
  wd ∈ IndexTs.words raw →
  IndexTs.Word.content wd = p +:+ rest ∨ IndexTs.Word.simplified wd = p +:+ rest →
  below_sentinel rest → (default (-1) limit < 0)%Z →
  ∃ ws, (IndexTsSearch.charBeginning p limit w).1 = Return ws ∧ wd ∈ ws.
Proof.
  intros Hl Hrt Hids Hwd Hfield Hrest Hlim.
  set (stream := IndexTsSearch.beginning_stream p (default (-1)%Z limit)).
  destruct (ts_word_search_returns omitPartial raw w stream p Hl Hrt eq_refl eq_refl)
    as (ws & Hret & Hws & _).
  exists ws. split; [exact Hret|].
  assert (∃ x, x = p +:+ rest ∧
    db_data w !! ("indexes/" +:+ x +:+ "-" +:+ IndexTs.Word.id wd)
    = Some (IndexTs.Word.id wd)) as (x & -> & Hx).
  { exists (p +:+ rest). split; [done|].
    apply (ts_loaded_word_entry omitPartial raw w wd _ Hl Hids Hwd).
    unfold IndexTs.word_ops. rewrite elem_of_app, !elem_of_cons. left.
    destruct Hfield as [<-|<-]; auto. }
  apply (drain_fetch_includes (String.append "raw/words/")
           IndexTsSearch.JSON_parse_Word stream w ws
           ("indexes/" +:+ (p +:+ rest) +:+ "-" +:+ IndexTs.Word.id wd)
           (IndexTs.Word.id wd)); [done|done| | |done].
  - change (in_range ("indexes/" +:+ p) (("indexes/" +:+ p) +:+ uFFFF)
              ("indexes/" +:+ (p +:+ rest) +:+ "-" +:+ IndexTs.Word.id wd) = true).
    rewrite (string_app_assoc p rest), <- (string_app_assoc "indexes/" p).
    apply in_range_below. by apply below_sentinel_app.
  - by apply (ts_loaded_word_exact omitPartial raw).
Qed.

(** X22: from a store the revised load has filled, both word searches
    return for every query and every limit, and return words of the
    corpus only: the entries of the characters never reach them. *)
Theorem X22_ts_word_searches_return_words omitPartial raw (w : World)
    (q : string) (limit : option Z) :
  ts_loaded omitPartial raw w → ts_round_trips raw →
  (∃ ws, (IndexTsSearch.charBeginning q limit w).1 = Return ws ∧
         ∀ wd, wd ∈ ws → wd ∈ IndexTs.words raw) ∧
  (∃ ws, (IndexTsSearch.charAnywhere q limit w).1 = Return ws ∧
         ∀ wd, wd ∈ ws → wd ∈ IndexTs.words raw).
Proof.
  intros Hl Hrt. split.
  - destruct (ts_word_search_returns omitPartial raw w
                (IndexTsSearch.beginning_stream q (default (-1)%Z limit)) q
                Hl Hrt eq_refl eq_refl) as (ws & Hret & _ & Hws).
    by exists ws.
  - destruct (ts_word_search_returns omitPartial raw w
                (IndexTsSearch.anywhere_stream q (default (-1)%Z limit))
                ("partial/" +:+ q) Hl Hrt) as (ws & Hret & _ & Hws).
    { simpl. by keys. }
    { done. }
    by exists ws.
Qed.

End TsSearch.

(** * The further properties on concrete inputs *)

Lemma files_abc : files !! "abc.json" = Some (Codec.write corpus_abc).
Proof. vm_compute. reflexivity. Qed.

Lemma loaded_abc_is_loaded : loaded false corpus_abc loaded_abc.
Proof. split; [reflexivity|]. vm_compute. reflexivity. Qed.

Lemma loaded_abc_exact_is_loaded : loaded true corpus_abc loaded_abc_exact.
Proof. split; [reflexivity|]. vm_compute. reflexivity. Qed.

Lemma corpus_abc_plain : plain_ids corpus_abc.
Proof.
  split.
  - apply NoDup_singleton.
  - intros wd ->%list_elem_of_singleton. reflexivity.
Qed.

Lemma abc_in_corpus : mkWord "1" "abc" ∈ words corpus_abc.
Proof. left. Qed.

Lemma ts_files_example :
  TsExample.files !! "cantodict.json" = Some "cantodict".
Proof. vm_compute. reflexivity. Qed.

Lemma ts_example_loaded : ts_loaded false TsExample.corpus TsSearchExample.loaded.
Proof. split; [reflexivity|]. vm_compute. reflexivity. Qed.

Lemma ts_example_round_trips : ts_round_trips TsExample.corpus.
Proof. split; intros x ->%list_elem_of_singleton; reflexivity. Qed.

Lemma ts_example_plain_words : plain_word_ids TsExample.corpus.
Proof.
  split; [apply NoDup_singleton|].
  intros x ->%list_elem_of_singleton. reflexivity.
Qed.

Lemma ts_example_plain_characters : plain_character_ids TsExample.corpus.
Proof.
  split; [apply NoDup_singleton|].
  intros x ->%list_elem_of_singleton. reflexivity.
Qed.

Lemma X3_prefix_of_abc : "ab" ≠ "" ∧ "ab" ∈ allSubstrings ("ab" +:+ "c").
Proof.
  assert (H : "ab" ≠ "") by discriminate.
  exact (conj H (X3_allSubstrings_prefixes "ab" "c" H)).
Defined.

Lemma X4_prefix_search_on_abc :
  loaded false corpus_abc loaded_abc ∧ plain_ids corpus_abc ∧
  mkWord "1" "abc" ∈ words corpus_abc ∧ below_sentinel "bc" ∧
  ∃ ws, (searchBeginning "a" (-1) loaded_abc).1 = Return ws ∧
        mkWord "1" "abc" ∈ ws.
Proof.
  assert (Hb : below_sentinel "bc") by reflexivity.
  exact (conj loaded_abc_is_loaded (conj corpus_abc_plain (conj abc_in_corpus (conj Hb
    (X4_prefix_search_finds_the_word false corpus_abc loaded_abc (mkWord "1" "abc")
       "a" "bc" (-1) loaded_abc_is_loaded corpus_abc_plain abc_in_corpus
       eq_refl Hb eq_refl))))).
Defined.

Lemma X5_substring_search_on_abc :
  loaded false corpus_abc loaded_abc ∧ plain_ids corpus_abc ∧
  "b" +:+ "" ∈ allSubstrings "abc" ∧
  ∃ ws, (searchAnywhere "b" (-1) loaded_abc).1 = Return ws ∧
        mkWord "1" "abc" ∈ ws.
Proof.
  assert (Hs : "b" +:+ "" ∈ allSubstrings "abc") by by_decide.
  exact (conj loaded_abc_is_loaded (conj corpus_abc_plain (conj Hs
    (X5_substring_search_finds_enumerated corpus_abc loaded_abc (mkWord "1" "abc")
       "b" "" (-1) loaded_abc_is_loaded corpus_abc_plain abc_in_corpus Hs I
       eq_refl)))).
Defined.

Lemma X6_results_on_abc :
  loaded false corpus_abc loaded_abc ∧
  (searchBeginning "a" (-1) loaded_abc).1 = Return [mkWord "1" "abc"] ∧
  ∀ wd, wd ∈ [mkWord "1" "abc"] → wd ∈ words corpus_abc.
Proof.
  assert (Hws : (searchBeginning "a" (-1) loaded_abc).1 = Return [mkWord "1" "abc"])
    by (vm_compute; reflexivity).
  exact (conj loaded_abc_is_loaded (conj Hws
    (proj1 (X6_search_results_come_from_the_corpus false corpus_abc loaded_abc
              "a" (-1) [mkWord "1" "abc"] loaded_abc_is_loaded (or_introl Hws))))).
Defined.

Lemma X7_substring_search_off_on_abc :
  loaded true corpus_abc loaded_abc_exact ∧
  (∀ wd r, wd ∈ words corpus_abc → traditional wd ≠ "partial/" +:+ r) ∧
  (searchAnywhere "a" (-1) loaded_abc_exact).1 = Return [].
Proof.
  assert (Hf : ∀ wd r, wd ∈ words corpus_abc → traditional wd ≠ "partial/" +:+ r).
  { intros wd r ->%list_elem_of_singleton. discriminate. }
  exact (conj loaded_abc_exact_is_loaded (conj Hf
    (X7_substring_search_off corpus_abc loaded_abc_exact "a" (-1)
       loaded_abc_exact_is_loaded Hf))).
Defined.

Lemma X8_getField_on_abc :
  db_open loaded_abc = true ∧
  db_data loaded_abc = apply_batch (corpus_ops false corpus_abc) ∅ ∧
  (getField "version" loaded_abc).1 = Return "1.0".
Proof.
  exact (conj (proj1 loaded_abc_is_loaded) (conj (proj2 loaded_abc_is_loaded)
    (proj1 (X8_getField_after_load false corpus_abc ∅ loaded_abc
              (proj1 loaded_abc_is_loaded) (proj2 loaded_abc_is_loaded))))).
Defined.

Lemma X9_idsToWords_on_abc :
  db_open loaded_abc = true ∧
  db_data loaded_abc = apply_batch (corpus_ops false corpus_abc) ∅ ∧
  (idsToWords ["1"; "1"] loaded_abc).1 = Return [mkWord "1" "abc"; mkWord "1" "abc"] ∧
  ∃ e, (idsToWords ["1"; "2"] loaded_abc).1 = Throw e.
Proof.
  destruct (X9_idsToWords_after_load false corpus_abc ∅ loaded_abc
              (proj1 loaded_abc_is_loaded) (proj2 loaded_abc_is_loaded))
    as [Hfound Hmissing].
  assert (Hnone : ∀ wd, wd ∈ words corpus_abc → id wd ≠ "2").
  { intros wd ->%list_elem_of_singleton. discriminate. }
  assert (Hin : "2" ∈ ["1"; "2"]) by (right; left).
  assert (Hws : Forall (λ wd, wd ∈ words corpus_abc)
                       [mkWord "1" "abc"; mkWord "1" "abc"]).
  { constructor; [exact abc_in_corpus|]. constructor; [exact abc_in_corpus|].
    constructor. }
  exact (conj (proj1 loaded_abc_is_loaded) (conj (proj2 loaded_abc_is_loaded)
    (conj (Hfound (proj1 corpus_abc_plain) [mkWord "1" "abc"; mkWord "1" "abc"] Hws)
          (Hmissing eq_refl ["1"; "2"] "2" Hin Hnone)))).
Defined.

Lemma X10_limit_on_abc :
  db_open loaded_abc = true ∧
  (searchBeginning "p" (-1) loaded_abc).1
  = Return (replicate 5 (mkWord "1" "abc")) ∧
  (searchBeginning "p" 2 loaded_abc).1
  = Return (take 2 (replicate 5 (mkWord "1" "abc"))).
Proof.
  assert (Hall : (searchBeginning "p" (-1) loaded_abc).1
                 = Return (replicate 5 (mkWord "1" "abc")))
    by (vm_compute; reflexivity).
  assert (Hlim : (0 ≤ 2)%Z) by discriminate.
  exact (conj (proj1 loaded_abc_is_loaded) (conj Hall
    (proj1 (X10_limit_takes_a_prefix loaded_abc "p" (-1) 2
              (replicate 5 (mkWord "1" "abc"))
              (proj1 loaded_abc_is_loaded) eq_refl Hlim) Hall))).
Defined.

Lemma loaded_astral_is_loaded : loaded false corpus_astral loaded_astral.
Proof. split; [reflexivity|]. vm_compute. reflexivity. Qed.

Lemma X24_astral_word_is_missed :
  loaded false corpus_astral loaded_astral ∧ plain_ids corpus_astral ∧
  astral_word ∈ words corpus_astral ∧
  traditional astral_word
  = "a" +:+ String "240" (String "160" (String "174" (String "183" ""))) ∧
  (239 < N_of_ascii "240")%N ∧ ¬ prefix_related "a" "partial/" ∧
  (searchBeginning "a" (-1) loaded_astral).1 = Return [] ∧
  astral_word ∉ ([] : list Word).
Proof.
  assert (Hids : plain_ids corpus_astral).
  { split; [apply NoDup_singleton|].
    intros wd ->%list_elem_of_singleton. reflexivity. }
  assert (Hwd : astral_word ∈ words corpus_astral) by left.
  assert (Hq : ¬ prefix_related "a" "partial/").
  { intros [[rest Hr]|[rest Hr]]; discriminate. }
  assert (Hws : (searchBeginning "a" (-1) loaded_astral).1 = Return [])
    by (vm_compute; reflexivity).
  exact (conj loaded_astral_is_loaded (conj Hids (conj Hwd (conj eq_refl
    (conj eq_refl (conj Hq (conj Hws
    (X24_prefix_search_misses_above_the_sentinel false corpus_astral
       loaded_astral astral_word "a" "240" _ (-1) [] loaded_astral_is_loaded
       Hids Hwd eq_refl eq_refl Hq Hws)))))))).
Defined.

Lemma X23_idsToChar_on_example :
  ts_loaded false TsExample.corpus TsSearchExample.loaded ∧
  ts_round_trips TsExample.corpus ∧
  (IndexTsSearch.idsToChar ["7"] TsSearchExample.loaded).1
  = Return [TsExample.character] ∧
  ∀ cs, (IndexTsSearch.idsToChar ["7"; "1"] TsSearchExample.loaded).1 ≠ Return cs.
Proof.
  destruct (X23_idsToChar_after_load false TsExample.corpus TsSearchExample.loaded
              ts_example_loaded ts_example_round_trips) as [Hfound Hmissing].
  assert (Hcs : Forall (λ c, c ∈ IndexTs.characters TsExample.corpus)
                       [TsExample.character]).
  { constructor; [left|constructor]. }
  assert (Hin : "1" ∈ ["7"; "1"]) by (right; left).
  assert (Hnone : ∀ c, c ∈ IndexTs.characters TsExample.corpus →
                       IndexTs.Character.id c ≠ "1").
  { intros c ->%list_elem_of_singleton. discriminate. }
  exact (conj ts_example_loaded (conj ts_example_round_trips
    (conj (Hfound ts_example_plain_characters [TsExample.character] Hcs)
          (Hmissing ["7"; "1"] "1" Hin Hnone)))).
Defined.

Lemma X12_first_setup_on_abc :
  db_data fresh !! "version" = None ∧ db_budget fresh = None ∧
  files !! "abc.json" = Some (Codec.write corpus_abc) ∧
  JSON_parse_Simplified (Codec.write corpus_abc) = Some corpus_abc ∧
  ∃ evs,
    trace (setup files "test" "abc.json" false false fresh).2
    = [EvOpen "test"; EvGet "version"; EvReadFile "abc.json"] ++ evs ∧
    concat (batches evs)
    = [Put "raw/version" "1.0";
       Put "raw/words/1" (JSON_stringify (mkWord "1" "abc"));
       Put "indexes/abc-1" "1";
       Put "indexes/partial/a-1" "1"; Put "indexes/partial/ab-1" "1";
       Put "indexes/partial/abc-1" "1"; Put "indexes/partial/-1" "1";
       Put "indexes/partial/b-1" "1"].
Proof.
  assert (Hname : "abc.json" ≠ "") by discriminate.
  destruct (X12_setup_writes_the_corpus_in_order files "test" "abc.json" false false
              fresh (Codec.write corpus_abc) corpus_abc
              eq_refl eq_refl Hname files_abc corpus_abc_parses)
    as (evs & Ht & Hc & _).
  exact (conj eq_refl (conj eq_refl (conj files_abc (conj corpus_abc_parses
    (ex_intro _ evs (conj Ht Hc)))))).
Defined.

Lemma X13_second_load_on_abc :
  db_data fresh !! "version" = None ∧ db_budget fresh = None ∧
  files !! "abc.json" = Some (Codec.write corpus_abc) ∧
  JSON_parse_Simplified (Codec.write corpus_abc) = Some corpus_abc ∧
  db_data (setup files "test" "abc.json" false false loaded_abc).2
  = db_data loaded_abc.
Proof.
  assert (Hname : "abc.json" ≠ "") by discriminate.
  exact (conj eq_refl (conj eq_refl (conj files_abc (conj corpus_abc_parses
    (X13_second_load_changes_no_data files "test" "abc.json" false false
       fresh (Codec.write corpus_abc) corpus_abc
       eq_refl eq_refl Hname files_abc corpus_abc_parses))))).
Defined.

Lemma X14_rejected_batch_on_abc :
  db_data failing !! "version" = None ∧
  files !! "abc.json" = Some (Codec.write corpus_abc) ∧
  JSON_parse_Simplified (Codec.write corpus_abc) = Some corpus_abc ∧
  (Z.of_nat (length (corpus_ops false corpus_abc)) ≤ maxBatches)%Z ∧
  (setup files "test" "abc.json" false false failing).1 = Throw WriteFailed ∧
  db_data (setup files "test" "abc.json" false false failing).2 = ∅ ∧
  db_open (setup files "test" "abc.json" false false failing).2 = false.
Proof.
  assert (Hname : "abc.json" ≠ "") by discriminate.
  assert (Hlen : (Z.of_nat (length (corpus_ops false corpus_abc)) ≤ maxBatches)%Z)
    by (vm_compute; discriminate).
  pose proof (X14_small_corpus_is_one_batch files "test" "abc.json" false false
                failing (Codec.write corpus_abc) corpus_abc
                eq_refl Hname files_abc corpus_abc_parses Hlen) as Hrun.
  exact (conj eq_refl (conj files_abc (conj corpus_abc_parses (conj Hlen
    (conj (f_equal fst Hrun)
       (conj (f_equal (λ r, db_data r.2) Hrun)
             (f_equal (λ r, db_open r.2) Hrun))))))).
Defined.

Lemma X15_failed_load_on_abc :
  db_data failing !! "version" = None ∧
  files !! "abc.json" = Some (Codec.write corpus_abc) ∧
  JSON_parse_Simplified (Codec.write corpus_abc) = Some corpus_abc ∧
  ∃ taken rest,
    corpus_ops false corpus_abc = taken ++ rest ∧
    db_data (setup files "test" "abc.json" false false failing).2
    = apply_batch taken ∅ ∧
    ((setup files "test" "abc.json" false false failing).1 = Return "1.0" ∧
     rest = [] ∧
     db_open (setup files "test" "abc.json" false false failing).2 = true
     ∨
     (setup files "test" "abc.json" false false failing).1 = Throw WriteFailed ∧
     rest ≠ [] ∧
     db_open (setup files "test" "abc.json" false false failing).2 = false).
Proof.
  assert (Hname : "abc.json" ≠ "") by discriminate.
  exact (conj eq_refl (conj files_abc (conj corpus_abc_parses
    (X15_failed_load_leaves_a_prefix files "test" "abc.json" false false
       failing (Codec.write corpus_abc) corpus_abc
       eq_refl Hname files_abc corpus_abc_parses)))).
Defined.

Lemma X17_batch_sizes_on_abc :
  db_data fresh !! "version" = None ∧
  files !! "abc.json" = Some (Codec.write corpus_abc) ∧
  JSON_parse_Simplified (Codec.write corpus_abc) = Some corpus_abc ∧
  (∀ wd, wd ∈ words corpus_abc → (length (word_ops false wd) ≤ 7)%nat) ∧
  ∃ evs early,
    trace (setup files "test" "abc.json" true false fresh).2
    = [EvOpen "test"; EvGet "version"; EvReadFile "abc.json"] ++ evs ∧
    (batches evs = early ∨ ∃ final, batches evs = early ++ [final]) ∧
    Forall (λ ops, maxBatches < Z.of_nat (length ops))%Z early ∧
    Forall (λ ops, 0 < Z.of_nat (length ops) ≤ maxBatches + Z.of_nat 7)%Z
           (batches evs).
Proof.
  assert (Hname : "abc.json" ≠ "") by discriminate.
  assert (HK : ∀ wd, wd ∈ words corpus_abc → (length (word_ops false wd) ≤ 7)%nat).
  { intros wd ->%list_elem_of_singleton. vm_compute. reflexivity. }
  exact (conj eq_refl (conj files_abc (conj corpus_abc_parses (conj HK
    (X17_batch_sizes files "test" "abc.json" true false fresh
       (Codec.write corpus_abc) corpus_abc 7
       eq_refl Hname files_abc corpus_abc_parses HK))))).
Defined.

Lemma X18_ts_setup_on_example :
  db_data fresh !! "version" = None ∧ db_budget fresh = None ∧
  TsExample.files !! "cantodict.json" = Some "cantodict" ∧
  IndexTs.JSON_parse "cantodict" = Some TsExample.corpus ∧
  ∃ evs again,
    trace (IndexTs.setup TsExample.files "test" "cantodict.json" false false fresh).2
    = [EvOpen "test"; EvGet "version"; EvReadFile "cantodict.json"] ++ evs ∧
    again ≠ [] ∧ again `suffix_of` ts_word_phase false TsExample.corpus ∧
    written evs = ts_word_phase false TsExample.corpus ++ again ++
                  ts_character_phase TsExample.corpus ∧
    db_data (IndexTs.setup TsExample.files "test" "cantodict.json" false false fresh).2
    = apply_batch (ts_word_phase false TsExample.corpus ++
                   ts_character_phase TsExample.corpus) ∅.
Proof.
  assert (Hname : "cantodict.json" ≠ "") by discriminate.
  exact (conj eq_refl (conj eq_refl (conj ts_files_example (conj eq_refl
    (X18_ts_last_word_batch_written_twice TsExample.files "test" "cantodict.json"
       false false fresh "cantodict" TsExample.corpus
       eq_refl eq_refl Hname ts_files_example eq_refl))))).
Defined.

Lemma X19_hanzi_on_example :
  ts_loaded false TsExample.corpus TsSearchExample.loaded ∧
  ts_round_trips TsExample.corpus ∧
  ∃ cs, (IndexTsSearch.hanzi "a" None TsSearchExample.loaded).1 = Return cs ∧
    ∀ c, c ∈ cs →
      c ∈ IndexTs.characters TsExample.corpus ∧
      ∃ c' rest, c' ∈ IndexTs.characters TsExample.corpus ∧
        IndexTs.Character.id c' = IndexTs.Character.id c ∧
        IndexTs.Character.content c' +:+ "-" +:+ IndexTs.Character.id c'
        = "a" +:+ rest.
Proof.
  exact (conj ts_example_loaded (conj ts_example_round_trips
    (X19_hanzi_returns_characters false TsExample.corpus TsSearchExample.loaded
       "a" None ts_example_loaded ts_example_round_trips))).
Defined.

Lemma X20_hanzi_finds_on_example :
  ts_loaded false TsExample.corpus TsSearchExample.loaded ∧
  ts_round_trips TsExample.corpus ∧ plain_character_ids TsExample.corpus ∧
  TsExample.character ∈ IndexTs.characters TsExample.corpus ∧
  ∃ cs, (IndexTsSearch.hanzi "a" None TsSearchExample.loaded).1 = Return cs ∧
        TsExample.character ∈ cs.
Proof.
  assert (Hc : TsExample.character ∈ IndexTs.characters TsExample.corpus) by left.
  exact (conj ts_example_loaded (conj ts_example_round_trips
    (conj ts_example_plain_characters (conj Hc
    (X20_hanzi_finds_the_character false TsExample.corpus TsSearchExample.loaded
       TsExample.character "a" "" None ts_example_loaded ts_example_round_trips
       ts_example_plain_characters Hc eq_refl I eq_refl))))).
Defined.

Lemma X21_simplified_field_on_example :
  ts_loaded false TsExample.corpus TsSearchExample.loaded ∧
  ts_round_trips TsExample.corpus ∧ plain_word_ids TsExample.corpus ∧
  TsExample.word ∈ IndexTs.words TsExample.corpus ∧
  IndexTs.Word.simplified TsExample.word = "a" +:+ "b" ∧ below_sentinel "b" ∧
  ∃ ws, (IndexTsSearch.charBeginning "a" None TsSearchExample.loaded).1 = Return ws ∧
        TsExample.word ∈ ws.
Proof.
  assert (Hwd : TsExample.word ∈ IndexTs.words TsExample.corpus) by left.
  assert (Hb : below_sentinel "b") by reflexivity.
  exact (conj ts_example_loaded (conj ts_example_round_trips
    (conj ts_example_plain_words (conj Hwd (conj eq_refl (conj Hb
    (X21_ts_prefix_search_by_either_field false TsExample.corpus
       TsSearchExample.loaded TsExample.word "a" "b" None ts_example_loaded
       ts_example_round_trips ts_example_plain_words Hwd (or_intror eq_refl) Hb
       eq_refl))))))).
Defined.

Lemma X22_word_searches_on_example :
  ts_loaded false TsExample.corpus TsSearchExample.loaded ∧
  ts_round_trips TsExample.corpus ∧
  (∃ ws, (IndexTsSearch.charBeginning "a" None TsSearchExample.loaded).1 = Return ws ∧
         ∀ wd, wd ∈ ws → wd ∈ IndexTs.words TsExample.corpus) ∧
  (∃ ws, (IndexTsSearch.charAnywhere "a" None TsSearchExample.loaded).1 = Return ws ∧
         ∀ wd, wd ∈ ws → wd ∈ IndexTs.words TsExample.corpus).
Proof.
  exact (conj ts_example_loaded (conj ts_example_round_trips
    (X22_ts_word_searches_return_words false TsExample.corpus
       TsSearchExample.loaded "a" None ts_example_loaded ts_example_round_trips))).
Defined.
